(** * m3u8load: a shallow embedding of cmd/root.go

    The downloader resolves an m3u8 playlist, fetches its segments with a
    bounded pool of goroutines, records per-segment status in a checkpoint
    file and concatenates the segment files.

    The program is effectful throughout (package-level variables, the file
    system, HTTP, channels, panics recovered by deferred calls, os.Exit), so
    it is embedded in a small state-and-outcome monad over an explicit
    [World].  External packages (net/http, net/url, grafov/m3u8,
    encoding/json) are an environment the functions are parameterised by.

    Goroutines are followed in one schedule: a goroutine runs to its end
    where it is started, so the producer of the segment queue has finished
    when the pool starts to drain it, and each fetch task has finished when
    the next one is started.  What a single function does (the fetch task,
    the resolver, the merge, the signal handler) does not depend on that
    choice.  A statement about several goroutines is made only of what
    every schedule gives: the requests of a run are stated up to their
    order, and a producer without a consumer is given no more items than
    its queue holds. *)

From Stdlib Require Import ZArith NArith Ascii.
From Stdlib Require Import PrimFloat FloatOps SpecFloat.
From stdpp Require Import gmap strings list fin_maps pretty.

Local Open Scope Z_scope.

Abbreviation byte := Corelib.Init.Byte.byte.

(** ** Go strings *)

Module GoString.

(** [s[n:]] *)
Fixpoint drop (n : nat) (s : string) : string :=
  match n, s with
  | O, _ => s
  | S n', String _ s' => drop n' s'
  | S _, EmptyString => EmptyString
  end.

(** [s[:n]] *)
Fixpoint take (n : nat) (s : string) : string :=
  match n, s with
  | O, _ => EmptyString
  | S n', String a s' => String a (take n' s')
  | S _, EmptyString => EmptyString
  end.

(** strings.HasPrefix *)
Definition HasPrefix (s p : string) : bool := String.prefix p s.

(** strings.HasSuffix *)
Definition HasSuffix (s suf : string) : bool :=
  (String.length suf <=? String.length s)%nat
  && bool_decide (drop (String.length s - String.length suf) s = suf).

(** strings.LastIndex restricted to the suffix of [s] that starts at
    offset [i]: the greatest offset at which [sep] occurs, or -1. *)
Fixpoint LastIndex_from (i : Z) (s sep : string) : Z :=
  match s with
  | EmptyString => if bool_decide (sep = EmptyString) then i else -1
  | String _ s' =>
      let r := LastIndex_from (i + 1) s' sep in
      if r =? -1 then (if String.prefix sep s then i else -1) else r
  end.

(** strings.LastIndex *)
Definition LastIndex (s sep : string) : Z := LastIndex_from 0 s sep.

End GoString.

Import GoString.

(** ** Data of the program *)

(** type Download struct { URI string } *)
Record Download := mkDownload { URI : string }.

Global Instance Download_eq_dec : EqDecision Download.
Proof. solve_decision. Defined.

(** type DownloadProcess struct.  A nil map and a nil sync.Map pointer are [None];
    the embedded sync.Mutex is the flag [locked]. *)
Record DownloadProcess := mkDownloadProcess {
  Path : string;
  MediaStatus : option (gmap string bool);
  MediaList : list string;
  status : option (gmap string bool);
  locked : bool
}.

(** var downloadProcess = &DownloadProcess{} *)
Definition emptyProcess : DownloadProcess :=
  {| Path := ""; MediaStatus := None; MediaList := []; status := None;
     locked := false |}.

(** The part of pb.ProgressBar the program drives. *)
Record ProgressBar := mkBar { total : nat; current : nat; finished : bool }.

(** A regular file: its bytes, whether this process may open it for
    reading and for writing, and whether its directory entry is [pinned]:
    one this process may not remove. *)
Record File := MkFile {
  content : list byte;
  readable : bool;
  writable : bool;
  pinned : bool
}.

(** A file of this process's own, which it may write and remove.  The
    files the program makes or writes over are taken to be such files: the
    one it can write over without being able to read it, a checkpoint file
    that is write-only, it does not read again in the same run. *)
Definition mkFile (c : list byte) (r : bool) : File := MkFile c r true false.

(** What the program does that an observer can see, in program order. *)
Inductive Event :=
| EvPrintln (s : string)        (* fmt.Println *)
| EvLog (s : string)            (* log.Print, log.Printf, log.Panic *)
| EvHelp                        (* cmd.Help() *)
| EvHttpGet (uri : string)      (* client.Do of a GET request *)
| EvSleep (ns : Z)              (* time.Sleep, in nanoseconds *)
| EvSend (d : Download)         (* dlc <- d *)
| EvClose.                      (* close(dlc) *)

Global Instance Event_eq_dec : EqDecision Event.
Proof. solve_decision. Defined.

(** Package-level variables, the channels and WaitGroup shared by the
    goroutines, and the file system: the regular files and the directories
    by the path the program names them with, and the directories this
    process may not make an entry in. *)
Record World := mkWorld {
  downloadProcess : DownloadProcess;
  bar : option ProgressBar;           (* the package-level progress bar, nil at start *)
  files : gmap string File;
  dirs : gset string;
  sealed : gset string;               (* directories without write permission *)
  dlc : list Download;                (* items queued on msChan *)
  dlcClosed : bool;
  chLimit : nat;                      (* tokens held in chLimit *)
  chLimitClosed : bool;
  wg : Z;                             (* sync.WaitGroup counter *)
  trace : list Event
}.

(** How a call ends. *)
Inductive Result (A : Type) :=
| Ok (a : A)              (* returned *)
| Panic (msg : string)    (* unwinding with a panic *)
| Exit (code : Z)         (* os.Exit(code) *)
| Block                   (* parked forever on a channel, mutex or WaitGroup *)
| OutOfFuel.              (* the recursion bound of the model was reached *)

Arguments Ok {A} a.
Arguments Panic {A} msg.
Arguments Exit {A} code.
Arguments Block {A}.
Arguments OutOfFuel {A}.

Definition M (A : Type) : Type := World → Result A * World.

Definition ret {A} (a : A) : M A := λ w, (Ok a, w).

Definition bind {A B} (m : M A) (k : A → M B) : M B :=
  λ w, match m w with
       | (Ok a, w') => k a w'
       | (Panic msg, w') => (Panic msg, w')
       | (Exit c, w') => (Exit c, w')
       | (Block, w') => (Block, w')
       | (OutOfFuel, w') => (OutOfFuel, w')
       end.

Notation "'let*' x := m 'in' k" := (bind m (λ x, k))
  (at level 10, x name, m at level 100, k at level 200).
Notation "m >> k" := (bind m (λ _, k))
  (at level 100, k at level 200, right associativity).

Definition get : M World := λ w, (Ok w, w).
Definition modify (f : World → World) : M unit := λ w, (Ok tt, f w).
Definition panic {A} (msg : string) : M A := λ w, (Panic msg, w).
Definition os_Exit {A} (code : Z) : M A := λ w, (Exit code, w).
Definition block {A} : M A := λ w, (Block, w).

Definition nil_deref : string :=
  "runtime error: invalid memory address or nil pointer dereference".

(** *** Field updates *)

Definition set_process (f : DownloadProcess → DownloadProcess) (w : World) : World :=
  {| downloadProcess := f (downloadProcess w); bar := bar w; files := files w;
     dirs := dirs w; sealed := sealed w; dlc := dlc w; dlcClosed := dlcClosed w;
     chLimit := chLimit w; chLimitClosed := chLimitClosed w; wg := wg w;
     trace := trace w |}.

Definition set_bar (b : option ProgressBar) (w : World) : World :=
  {| downloadProcess := downloadProcess w; bar := b; files := files w;
     dirs := dirs w; sealed := sealed w; dlc := dlc w; dlcClosed := dlcClosed w;
     chLimit := chLimit w; chLimitClosed := chLimitClosed w; wg := wg w;
     trace := trace w |}.

Definition set_files (f : gmap string File → gmap string File) (w : World) : World :=
  {| downloadProcess := downloadProcess w; bar := bar w; files := f (files w);
     dirs := dirs w; sealed := sealed w; dlc := dlc w; dlcClosed := dlcClosed w;
     chLimit := chLimit w; chLimitClosed := chLimitClosed w; wg := wg w;
     trace := trace w |}.

Definition set_dirs (f : gset string → gset string) (w : World) : World :=
  {| downloadProcess := downloadProcess w; bar := bar w; files := files w;
     dirs := f (dirs w); sealed := sealed w; dlc := dlc w; dlcClosed := dlcClosed w;
     chLimit := chLimit w; chLimitClosed := chLimitClosed w; wg := wg w;
     trace := trace w |}.

Definition set_dlc (q : list Download) (c : bool) (w : World) : World :=
  {| downloadProcess := downloadProcess w; bar := bar w; files := files w;
     dirs := dirs w; sealed := sealed w; dlc := q; dlcClosed := c;
     chLimit := chLimit w; chLimitClosed := chLimitClosed w; wg := wg w;
     trace := trace w |}.

Definition set_chLimit (n : nat) (c : bool) (w : World) : World :=
  {| downloadProcess := downloadProcess w; bar := bar w; files := files w;
     dirs := dirs w; sealed := sealed w; dlc := dlc w; dlcClosed := dlcClosed w;
     chLimit := n; chLimitClosed := c; wg := wg w;
     trace := trace w |}.

Definition set_wg (n : Z) (w : World) : World :=
  {| downloadProcess := downloadProcess w; bar := bar w; files := files w;
     dirs := dirs w; sealed := sealed w; dlc := dlc w; dlcClosed := dlcClosed w;
     chLimit := chLimit w; chLimitClosed := chLimitClosed w; wg := n;
     trace := trace w |}.

Definition emit (e : Event) (w : World) : World :=
  {| downloadProcess := downloadProcess w; bar := bar w; files := files w;
     dirs := dirs w; sealed := sealed w; dlc := dlc w; dlcClosed := dlcClosed w;
     chLimit := chLimit w; chLimitClosed := chLimitClosed w; wg := wg w;
     trace := trace w ++ [e] |}.

Definition Println (s : string) : M unit := modify (emit (EvPrintln s)).
Definition log_Print (s : string) : M unit := modify (emit (EvLog s)).
(** log.Panic writes the message to the log and then panics with it. *)
Definition log_Panic {A} (s : string) : M A := log_Print s >> panic s.

(** ** The file system *)

Definition PathSeparator : string := "/".

(** The text of an fs.PathError. *)
Definition PathError (op path msg : string) : string :=
  op +:+ " " +:+ path +:+ ": " +:+ msg.

Definition ENOENT : string := "no such file or directory".
Definition EACCES : string := "permission denied".
Definition ENOTDIR : string := "not a directory".
Definition EISDIR : string := "is a directory".

(** The paths that name the directory [d]: [d] itself, [d] with a trailing
    separator, and its entries "." and "..", the latter of which names the
    directory above. *)
Definition dirNames (d : string) : list string :=
  [d; d +:+ PathSeparator; d +:+ PathSeparator +:+ "."; d +:+ PathSeparator +:+ ".."].

(** Whether [name] leads to a directory. *)
Definition isDir (w : World) (name : string) : bool :=
  bool_decide (set_Exists (λ d, name ∈ dirNames d) (dirs w)).
Global Arguments isDir : simpl never.

(** Whether [name] leads through a regular file, as a/b does when a is
    one. *)
Definition underFile (w : World) (name : string) : bool :=
  negb (bool_decide (map_Forall (λ p _, HasPrefix name (p +:+ PathSeparator) = false) (files w))).

(** What os.Stat(name) reports: no error, an error that os.IsNotExist
    accepts, or another error. *)
Inductive StatResult :=
| Found
| NotExist
| StatError (msg : string).

Definition os_IsNotExist (r : StatResult) : bool :=
  match r with NotExist => true | _ => false end.

Definition os_Stat (name : string) : M StatResult :=
  let* w := get in
  ret (if bool_decide (is_Some (files w !! name)) || isDir w name then Found
       else if underFile w name then StatError (PathError "stat" name ENOTDIR)
       else NotExist).

(** os.Remove(name); [Some msg] is its error.  A pinned file stays.  A
    directory is removed only when no file lies under it. *)
Definition os_Remove (name : string) : M (option string) :=
  let* w := get in
  match files w !! name with
  | Some f =>
      if pinned f then ret (Some (PathError "remove" name "operation not permitted"))
      else modify (set_files (delete name)) >> ret None
  | None =>
      if bool_decide (name ∈ dirs w)
      then if bool_decide (map_Forall (λ p _, HasPrefix p (name +:+ PathSeparator) = false) (files w))
           then modify (set_dirs (λ d, d ∖ {[name]})) >> ret None
           else ret (Some (PathError "remove" name "directory not empty"))
      else ret (Some (PathError "remove" name ENOENT))
  end.

(** os.OpenFile(name, O_CREATE|O_WRONLY|O_APPEND, ModePerm): the file is
    created empty when absent and left as it is otherwise.  Whether the
    directory the file lies in is there and lets the process make the
    file, and whether a file that is there lets the process write it, is
    not looked at here: the statements on what the merge writes are made
    where nothing is in its way ([clearTarget] below). *)
Definition os_OpenFile_append (name : string) : M (option string) :=
  let* w := get in
  if isDir w name then ret (Some (PathError "open" name EISDIR))
  else match files w !! name with
       | Some _ => ret None
       | None => modify (set_files <[name := mkFile [] true]>) >> ret None
       end.

(** os.OpenFile(name, O_RDONLY, _); [Some msg] is its error.  A directory
    opens as a regular file does. *)
Definition os_OpenFile_rdonly (name : string) : M (option string) :=
  let* w := get in
  match files w !! name with
  | Some f => if readable f then ret None
              else ret (Some (PathError "open" name EACCES))
  | None =>
      if isDir w name then ret None
      else ret (Some (PathError "open" name
                        (if underFile w name then ENOTDIR else ENOENT)))
  end.

(** ioutil.ReadAll on the descriptor os.OpenFile gave for [name]: the
    bytes of a regular file; a directory cannot be read. *)
Definition ioutil_ReadAll (name : string) : M (string + list byte) :=
  let* w := get in
  match files w !! name with
  | Some f => ret (inr (content f))
  | None => ret (inl (PathError "read" name EISDIR))
  end.

Definition appendBytes (b : list byte) (f : File) : File :=
  MkFile (content f ++ b) (readable f) (writable f) (pinned f).

(** File.Write on a descriptor opened with O_APPEND *)
Definition file_Write (name : string) (b : list byte) : M unit :=
  modify (set_files (alter (appendBytes b) name)).

(** Whether [path] in the directory [dir] can be opened for writing, and
    made when it is not there, as ioutil.WriteFile and os.Create do: [dir]
    is a directory; nothing but a regular file is at [path]; a file there
    is one this process may write, and without one the process may make
    an entry in [dir]. *)
Definition canCreate (dir path : string) (w : World) : bool :=
  isDir w dir && negb (isDir w path)
  && match files w !! path with
     | Some f => writable f
     | None => bool_decide (dir ∉ sealed w)
     end.

(** Whether os.Create gives a file for the segment [name] in [outPath]:
    Create opens for reading and writing, so a file that is there has to
    allow both. *)
Definition canStore (outPath name : string) (w : World) : bool :=
  canCreate outPath (outPath +:+ PathSeparator +:+ name) w
  && negb (bool_decide (name = ""))
  && default true (readable <$> files w !! (outPath +:+ PathSeparator +:+ name)).

(** ** mergeMediaFile *)

Fixpoint mergeLoop (outPath fileName : string) (l : list string) : M unit :=
  match l with
  | [] => ret tt
  | value :: rest =>
      let name := outPath +:+ PathSeparator +:+ value in
      let* err := os_OpenFile_rdonly name in
      match err with
      | Some e => Println e
      | None =>
          let* r := ioutil_ReadAll name in
          match r with
          | inl e => Println e
          | inr b => file_Write fileName b >> mergeLoop outPath fileName rest
          end
      end
  end.

Definition mergeMediaFile (outPath : string) : M unit :=
  let fileName := outPath +:+ ".ts" in
  let* st := os_Stat fileName in
  (match st with
   | Found =>
       let* err := os_Remove fileName in
       match err with
       | Some _ => Println ("remove file " +:+ fileName +:+ " failed. ")
       | None => ret tt
       end
   | _ => ret tt
   end) >>
  let* err := os_OpenFile_append fileName in
  match err with
  | Some e => panic e
  | None =>
      let* w := get in
      mergeLoop outPath fileName (MediaList (downloadProcess w))
  end.

(** ** External packages *)

(** What client.Do returns: an error (and a nil response), or a response. *)
Inductive HttpResult :=
| HttpErr (msg : string)
| HttpResp (StatusCode : Z) (Body : list byte).

(** grafov/m3u8: the fields of MediaSegment, Variant, MediaPlaylist and
    MasterPlaylist that the program reads.  [Segments] is the playlist's
    ring buffer, whose unused slots are nil.  Bandwidth is a uint32, on
    which the program only compares.  TargetDuration is a float64, in
    seconds. *)
Record MediaSegment := mkSegment { seg_URI : string }.
Record Variant := mkVariant { var_URI : string; Bandwidth : N }.
Record MediaPlaylist := mkMedia {
  Segments : list (option MediaSegment);
  Closed : bool;
  TargetDuration : float
}.
Record MasterPlaylist := mkMaster { Variants : list Variant }.

(** The (playlist, listType, err) triple of m3u8.DecodeFrom. *)
Inductive Decoded :=
| DecodeErr (msg : string)
| MEDIA (mpl : MediaPlaylist)
| MASTER (mpl : MasterPlaylist)
| OtherType.

(** The command-line flags and the packages the program calls.  An error
    result is [inl msg] or [Some msg]. *)
Record Env := mkEnv {
  parallel : Z;
  m3u8Url : string;
  outPath : string;
  url_Parse : string → option string;
  (* playlistUrl.Parse(ref) followed by String() *)
  url_Resolve : string → string → string + string;
  url_QueryUnescape : string → string + string;
  http_Do : string → HttpResult;
  m3u8_DecodeFrom : list byte → Decoded;
  json_MarshalIndent : DownloadProcess → list byte;
  (* json.Unmarshal(data, v): the value left in v, and whether err != nil *)
  json_Unmarshal : list byte → DownloadProcess → DownloadProcess * bool;
  os_Mkdir : string → option string;
  (* the order in which a range statement visits a map *)
  map_range : gmap string bool → list (string * bool)
}.

(** groupcache/lru: entries from most to least recently used. *)
Module lru.
Record Cache := mkCache { MaxEntries : nat; ll : list string }.

Definition New (maxEntries : nat) : Cache := mkCache maxEntries [].

Definition Get (key : string) (c : Cache) : bool * Cache :=
  if bool_decide (key ∈ ll c)
  then (true, mkCache (MaxEntries c) (key :: filter (λ k, k ≠ key) (ll c)))
  else (false, c).

Definition Add (key : string) (c : Cache) : Cache :=
  if bool_decide (key ∈ ll c)
  then mkCache (MaxEntries c) (key :: filter (λ k, k ≠ key) (ll c))
  else
    let l := key :: ll c in
    if negb (MaxEntries c =? 0)%nat && (MaxEntries c <? length l)%nat
    then mkCache (MaxEntries c) (removelast l)
    else mkCache (MaxEntries c) l.
End lru.

(** ** Channels, WaitGroup, progress bar, status map *)

(** dlc <- d.  The channel holds 1024 items, and a send on a full one
    waits for the pool to take an item.  The queue here is not bounded:
    in the schedule followed the pool starts after the producer, so a
    bound would park a producer that the running pool lets go on.  The
    statements about a producer that has no consumer bound the items
    themselves. *)
Definition dlc_send (d : Download) : M unit :=
  let* w := get in
  if dlcClosed w then panic "send on closed channel"
  else modify (set_dlc (dlc w ++ [d]) false) >> modify (emit (EvSend d)).

(** close(dlc) *)
Definition dlc_close : M unit :=
  let* w := get in
  if dlcClosed w then panic "close of closed channel"
  else modify (set_dlc (dlc w) true) >> modify (emit EvClose).

(** chLimit <- true, on a channel of capacity [cap]: with every slot taken
    (or no slot at all) the sender waits for a receiver. *)
Definition chLimit_send (cap : nat) : M unit :=
  let* w := get in
  if (chLimit w <? cap)%nat then modify (set_chLimit (S (chLimit w)) (chLimitClosed w))
  else block.

(** <-chLimit *)
Definition chLimit_recv : M unit :=
  let* w := get in
  match chLimit w with
  | S n => modify (set_chLimit n (chLimitClosed w))
  | O => if chLimitClosed w then ret tt else block
  end.

(** close(chLimit) *)
Definition chLimit_close : M unit :=
  let* w := get in
  if chLimitClosed w then panic "close of closed channel"
  else modify (set_chLimit (chLimit w) true).

Definition wg_Add (n : Z) : M unit :=
  let* w := get in
  if wg w + n <? 0 then panic "sync: negative WaitGroup counter"
  else modify (set_wg (wg w + n)).

Definition wg_Done : M unit := wg_Add (-1).

(** wg.Wait(), once every task that will ever run has run *)
Definition wg_Wait : M unit :=
  let* w := get in if wg w =? 0 then ret tt else block.

(** pb.StartNew(n) *)
Definition bar_StartNew (n : nat) : M unit := modify (set_bar (Some (mkBar n 0 false))).

Definition bar_Increment : M unit :=
  let* w := get in
  match bar w with
  | None => panic nil_deref
  | Some b => modify (set_bar (Some (mkBar (total b) (S (current b)) (finished b))))
  end.

Definition bar_Finish : M unit :=
  let* w := get in
  match bar w with
  | None => panic nil_deref
  | Some b => modify (set_bar (Some (mkBar (total b) (current b) true)))
  end.

Definition with_status (o : option (gmap string bool)) (p : DownloadProcess) : DownloadProcess :=
  {| Path := Path p; MediaStatus := MediaStatus p; MediaList := MediaList p;
     status := o; locked := locked p |}.

Definition with_Path (s : string) (p : DownloadProcess) : DownloadProcess :=
  {| Path := s; MediaStatus := MediaStatus p; MediaList := MediaList p;
     status := status p; locked := locked p |}.

Definition with_MediaList (l : list string) (p : DownloadProcess) : DownloadProcess :=
  {| Path := Path p; MediaStatus := MediaStatus p; MediaList := l;
     status := status p; locked := locked p |}.

Definition with_MediaStatus (o : option (gmap string bool)) (p : DownloadProcess) : DownloadProcess :=
  {| Path := Path p; MediaStatus := o; MediaList := MediaList p;
     status := status p; locked := locked p |}.

Definition with_locked (b : bool) (p : DownloadProcess) : DownloadProcess :=
  {| Path := Path p; MediaStatus := MediaStatus p; MediaList := MediaList p;
     status := status p; locked := b |}.

(** downloadProcess.status.Store(key, value) *)
Definition status_Store (key : string) (value : bool) : M unit :=
  let* w := get in
  match status (downloadProcess w) with
  | None => panic nil_deref
  | Some m => modify (set_process (with_status (Some (<[key := value]> m))))
  end.

(** _, ok := downloadProcess.status.Load(key) *)
Definition status_Load (key : string) : M bool :=
  let* w := get in
  match status (downloadProcess w) with
  | None => panic nil_deref
  | Some m => ret (bool_decide (is_Some (m !! key)))
  end.

(** time.Sleep(d), d in nanoseconds *)
Definition time_Sleep (d : Z) : M unit := modify (emit (EvSleep d)).

(** The conversion int64(x) of a float64, as amd64 makes it: the fraction
    is dropped, and a value that is not a number or out of range gives
    the least int64. *)
Definition int64 (x : float) : Z :=
  match Prim2SF x with
  | S754_zero _ => 0
  | S754_finite s m e =>
      let v := if 0 <=? e then Z.pos m * 2 ^ e else Z.pos m / 2 ^ (- e) in
      let r := if s then - v else v in
      if (- 2 ^ 63 <=? r) && (r <? 2 ^ 63) then r else - 2 ^ 63
  | S754_infinity _ | S754_nan => - 2 ^ 63
  end.

(** make(chan bool, size): the runtime refuses a negative size and one
    whose buffer is above what it can allocate (2^48 bytes on
    linux/amd64, less the channel header of 96). *)
Definition make_chan (size : Z) : M unit :=
  if (size <? 0) || (2 ^ 48 - 96 <? size) then panic "makechan: size out of range"
  else ret tt.

(** ** The program *)

Section Program.
Context (E : Env).

Definition indexName : string := outPath E +:+ PathSeparator +:+ ".index".

(** writeJsonFile.  The mutex is still held when the traversal of a nil
    status map panics.  The error of ioutil.WriteFile is dropped: nothing
    is written while the output directory does not exist. *)
Definition writeJsonFile : M unit :=
  let* w := get in
  if locked (downloadProcess w) then block
  else
    modify (set_process (with_locked true)) >>
    (match MediaStatus (downloadProcess w) with
     | None => modify (set_process (with_MediaStatus (Some ∅)))
     | Some _ => ret tt
     end) >>
    let* w := get in
    match status (downloadProcess w) with
    | None => panic nil_deref
    | Some st =>
        modify (set_process (λ p,
          with_MediaStatus (Some (st ∪ default ∅ (MediaStatus p))) p)) >>
        let* w := get in
        let result := json_MarshalIndent E (downloadProcess w) in
        (if canCreate (outPath E) indexName w
         then modify (set_files <[indexName := mkFile result true]>)
         else ret tt) >>
        modify (set_process (with_locked false))
    end.

(** catchException, given what recover() returned *)
Definition catchException (err : option string) : M unit :=
  (match err with
   | Some e => Println ("error msg: " +:+ e)
   | None => ret tt
   end) >>
  writeJsonFile.

(** A function body under [defer catchException()]: the deferred call
    runs when the body returns or panics, not when the process exits. *)
Definition deferred (body : M unit) : M unit :=
  λ w, match body w with
       | (Ok _, w') => catchException None w'
       | (Panic e, w') => catchException (Some e) w'
       | r => r
       end.

(** [go f()], scheduled to run to its end at once: one of the schedules
    of the program, in which what the goroutine does comes before what its
    creator does next.  A panic that leaves a goroutine ends the process
    with status 2; a parked goroutine lets its creator go on. *)
Definition go (task : M unit) : M unit :=
  λ w, match task w with
       | (Ok _, w') => (Ok tt, w')
       | (Panic _, w') => (Exit 2, w')
       | (Block, w') => (Ok tt, w')
       | r => r
       end.

Definition load (filename : string) : M unit :=
  let* w := get in
  match files w !! filename with
  | None => ret tt
  | Some f =>
      if negb (readable f) then ret tt
      else
        let '(v, _) := json_Unmarshal E (content f) (downloadProcess w) in
        modify (set_process (λ p,
          with_Path (Path v) (with_MediaStatus (MediaStatus v)
            (with_MediaList (MediaList v) p))))
  end.

Definition getFileName (uri : string) : string :=
  let index := LastIndex uri "/" in
  drop (Z.to_nat (index + 1)) uri.

(** getAbsoluteUri.  When playlistUrl.Parse fails its URL is nil, and
    the call of String() on it panics before err is looked at. *)
Definition getAbsoluteUri (masterURI playlistUrl : string) : M string :=
  let* masterURI :=
    (if negb (HasPrefix masterURI "http")
     then match url_Resolve E playlistUrl masterURI with
          | inl _ => panic nil_deref
          | inr abs => ret abs
          end
     else ret masterURI) in
  match url_QueryUnescape E masterURI with
  | inl err => log_Panic err
  | inr msURI => ret msURI
  end.

Definition getFilePath (uri playlistUrl : string) : M string :=
  let* uri := getAbsoluteUri uri playlistUrl in
  let index := LastIndex uri "/" in
  ret (take (Z.to_nat (index + 1)) uri).

Definition setMediaStatus (uri : string) (value : bool) : M unit :=
  status_Store (getFileName uri) value.

(** *** getContinuePlaylist *)

Fixpoint continueLoop (l : list (string * bool)) : M unit :=
  match l with
  | [] => ret tt
  | (key, value) :: rest =>
      (if negb value
       then status_Store key false >>
            let* w := get in
            dlc_send (mkDownload (Path (downloadProcess w) +:+ key))
       else status_Store key true >> bar_Increment) >>
      continueLoop rest
  end.

Definition getContinuePlaylist : M unit :=
  deferred (
    let* w := get in
    bar_StartNew (length (MediaList (downloadProcess w))) >>
    modify (set_process (with_status (Some ∅))) >>
    continueLoop (match MediaStatus (downloadProcess w) with
                  | None => []
                  | Some m => map_range E m
                  end) >>
    dlc_close).

(** *** getPlaylist *)

(** The first loop over mpl.Segments *)
Fixpoint recordSegments (playlistUrl : string) (segs : list (option MediaSegment)) : M unit :=
  match segs with
  | [] => ret tt
  | vv :: rest =>
      (match vv with
       | None => ret tt
       | Some seg =>
           let name := getFileName (seg_URI seg) in
           let* w := get in
           (if bool_decide (Path (downloadProcess w) = "")
            then let* p := getFilePath (seg_URI seg) playlistUrl in
                 modify (set_process (with_Path p))
            else ret tt) >>
           status_Store name false >>
           modify (set_process (λ p, with_MediaList (MediaList p ++ [name]) p))
       end) >>
      recordSegments playlistUrl rest
  end.

(** The second loop over mpl.Segments *)
Fixpoint enqueueSegments (playlistUrl : string) (cache : lru.Cache)
    (segs : list (option MediaSegment)) : M unit :=
  match segs with
  | [] => ret tt
  | v :: rest =>
      match v with
      | None => enqueueSegments playlistUrl cache rest
      | Some seg =>
          let* msURI := getAbsoluteUri (seg_URI seg) playlistUrl in
          let '(hit, cache) := lru.Get msURI cache in
          if negb hit
          then dlc_send (mkDownload msURI) >>
               enqueueSegments playlistUrl (lru.Add msURI cache) rest
          else enqueueSegments playlistUrl cache rest
      end
  end.

(** One iteration of the loop over mpl.Variants, on the pair
    (masterURI, maxBandwidth) *)
Definition pickVariant (acc : string * N) (v : Variant) : string * N :=
  let '(masterURI, maxBandwidth) := acc in
  if (maxBandwidth <? Bandwidth v)%N then (var_URI v, Bandwidth v)
  else (masterURI, maxBandwidth).

(** The loop over mpl.Variants, from masterURI empty and maxBandwidth 0 *)
Definition maxVariant (vs : list Variant) : string * N :=
  foldl pickVariant ("", 0%N) vs.

(** getPlaylist.  [fuel] bounds the depth of the recursion on master
    playlists, which the source leaves unbounded.  The URL is kept as the
    string url.Parse accepted; http.NewRequest parses the same string and
    so does not fail after it.  When client.Do fails its response is nil,
    and the reading of resp.Body that follows the sleep panics.  After the
    sleep of a playlist that is not closed the function ends. *)
Fixpoint getPlaylist (fuel : nat) (urlStr : string) : M unit :=
  match fuel with
  | O => λ w, (OutOfFuel, w)
  | S fuel' =>
      deferred (
        let cache := lru.New 1024 in
        match url_Parse E urlStr with
        | Some err => log_Panic err
        | None =>
            let playlistUrl := urlStr in
            modify (emit (EvHttpGet urlStr)) >>
            match http_Do E urlStr with
            | HttpErr err =>
                log_Print err >>
                time_Sleep (3 * 1000000000) >>
                panic nil_deref
            | HttpResp _ body =>
                match m3u8_DecodeFrom E body with
                | DecodeErr err => log_Panic err
                | MEDIA mpl =>
                    modify (set_process (with_status (Some ∅))) >>
                    recordSegments playlistUrl (Segments mpl) >>
                    let* w := get in
                    bar_StartNew (length (MediaList (downloadProcess w))) >>
                    enqueueSegments playlistUrl cache (Segments mpl) >>
                    if Closed mpl
                    then dlc_close
                    else time_Sleep (int64 (TargetDuration mpl * 1000000000))
                | MASTER mpl =>
                    let masterURI := fst (maxVariant (Variants mpl)) in
                    let* msURI := getAbsoluteUri masterURI playlistUrl in
                    Println ("master m3u8 url " +:+ msURI) >>
                    getPlaylist fuel' msURI
                | OtherType => log_Panic "Not a valid media playlist"
                end
            end
        end)
  end.

(** *** The fetch pool *)

(** os.Create(outPath + "/" + name) and io.Copy(out, resp.Body): the
    error of Create is dropped, and Copy into the nil file it leaves fails. *)
Definition storeSegment (outPath name : string) (body : list byte) : M unit :=
  let* w := get in
  if canStore outPath name w
  then modify (set_files <[outPath +:+ "/" +:+ name := mkFile body true]>)
  else log_Panic "invalid argument".

(** The last two statements of downloadSegment *)
Definition releaseSlot : M unit := wg_Done >> chLimit_recv.

(** The statements of downloadSegment after its defer.  The branches
    that end in [ret tt], or in the call before it, are the return
    statements inside the if block; the others fall through to
    wg.Done() and the receive on chLimit. *)
Definition downloadSegment_body (outPath : string) (v : Download) : M unit :=
  let index := LastIndex (URI v) "/" in
  if bool_decide (index ≠ -1) then
    let* ok := status_Load (URI v) in
    if ok then ret tt
    else
      match url_Parse E (URI v) with
      | Some err => log_Panic err
      | None =>
          modify (emit (EvHttpGet (URI v))) >>
          match http_Do E (URI v) with
          | HttpErr err =>
              log_Print err >> setMediaStatus (URI v) false
          | HttpResp code body =>
              if bool_decide (code ≠ 200)
              then setMediaStatus (URI v) false >>
                   log_Print ("Received HTTP " +:+ pretty code +:+ " for " +:+ URI v)
              else
                let name := getFileName (URI v) in
                storeSegment outPath name body >>
                setMediaStatus (URI v) true >>
                bar_Increment >>
                releaseSlot
          end
      end
  else releaseSlot.

Definition downloadSegment (outPath : string) (v : Download) : M unit :=
  deferred (downloadSegment_body outPath v).

(** The body of [for v := range dlc], over the items queued *)
Fixpoint poolLoop (outPath : string) (q : list Download) : M unit :=
  match q with
  | [] => ret tt
  | v :: rest =>
      modify (λ w, set_dlc (tail (dlc w)) (dlcClosed w) w) >>
      chLimit_send (Z.to_nat (parallel E)) >>
      wg_Add 1 >>
      go (downloadSegment outPath v) >>
      poolLoop outPath rest
  end.

(** downloadSegmentLimit, with the producer run to its end beforehand:
    the range loop ends only on a closed channel. *)
Definition downloadSegmentLimit (outPath : string) : M unit :=
  deferred (
    let* st := os_Stat outPath in
    (if os_IsNotExist st
     then match os_Mkdir E outPath with
          | Some err => log_Panic err
          | None => modify (set_dirs (λ d, d ∪ {[outPath]}))
          end
     else ret tt) >>
    make_chan (parallel E) >>
    modify (set_chLimit 0 false) >>
    modify (set_wg 0) >>
    let* w := get in
    poolLoop outPath (dlc w) >>
    let* w := get in
    (if dlcClosed w then ret tt else block) >>
    chLimit_close >>
    wg_Wait).

(** *** Lifecycle *)

(** listenSignal, from the moment a signal is received.  The channel
    that Println also prints is left out of the message. *)
Definition listenSignal : M unit :=
  Println "exit program , signs: " >>
  writeJsonFile >>
  os_Exit 0.

Definition writeAndMergeFile (outPath : string) : M unit :=
  writeJsonFile >> mergeMediaFile outPath.

(** The end of downloadFunc, after the pool has returned *)
Definition finishRun : M unit :=
  bar_Finish >>
  Println "" >>
  writeAndMergeFile (outPath E) >>
  os_Exit 0.

(** The five lines downloadFunc prints once the flags are accepted *)
Definition printFlags : M unit :=
  Println "" >>
  Println ("concurrent num : " +:+ pretty (parallel E)) >>
  Println ("m3u8 url: " +:+ m3u8Url E) >>
  Println ("output file path: " +:+ outPath E) >>
  Println "".

(** downloadFunc.  The goroutine started for listenSignal only waits;
    what it does on a signal is [listenSignal] above. *)
Definition downloadFunc (fuel : nat) : M unit :=
  if bool_decide (m3u8Url E = "") || bool_decide (outPath E = "") then
    Println "args miss, for example: " >>
    Println "m3u8load -u https://v2.szjal.cn/20191215/B6UVqUJm/index.m3u8 -o charles" >>
    modify (emit EvHelp) >>
    os_Exit 1
  else if negb (HasPrefix (m3u8Url E) "http") || negb (HasSuffix (m3u8Url E) "m3u8") then
    Println "m3u8 url illegal, for example: https://v2.szjal.cn/20191215/B6UVqUJm/index.m3u8 " >>
    modify (emit EvHelp) >>
    os_Exit 1
  else
    printFlags >>
    deferred (
      let name := indexName in
      let* st := os_Stat name in
      (if os_IsNotExist st then
         go (getPlaylist fuel (m3u8Url E)) >>
         downloadSegmentLimit (outPath E)
       else
         load name >>
         let* w := get in
         if (0 <? length (MediaList (downloadProcess w)))%nat then
           go getContinuePlaylist >>
           downloadSegmentLimit (outPath E)
         else
           go (getPlaylist fuel (m3u8Url E)) >>
           downloadSegmentLimit (outPath E)) >>
      finishRun).

(** The status the process ends with: os.Exit's argument, 0 when main
    returns, 2 when a panic leaves main; none while it is parked. *)
Definition exitStatus (r : Result unit) : option Z :=
  match r with
  | Ok _ => Some 0
  | Exit c => Some c
  | Panic _ => Some 2
  | Block | OutOfFuel => None
  end.

End Program.

(** ** Observations used in the statements *)

(** The bytes ioutil.ReadAll gets from the segment file of [name], if
    the file can be opened. *)
Definition segmentFile (outPath : string) (w : World) (name : string) : option (list byte) :=
  match files w !! (outPath +:+ PathSeparator +:+ name) with
  | Some f => if readable f then Some (content f) else None
  | None => None
  end.

(** The last byte of a path. *)
Fixpoint lastChar (s : string) : option ascii :=
  match s with
  | EmptyString => None
  | String c EmptyString => Some c
  | String _ s' => lastChar s'
  end.

(** The directory a path lies in: the part before its last separator,
    "." for a path without one, and "/" for an entry of the root. *)
Definition parentOf (path : string) : string :=
  let i := LastIndex path "/" in
  if i =? -1 then "." else if i =? 0 then "/" else take (Z.to_nat i) path.

(** Nothing is in the way of the merged file: the output path ends in a
    name, so that the merged file lies beside the output directory and not
    in it; no directory has the merged file's name; the directory it lies
    in is there and lets the process make entries; and a merged file left
    by an earlier run is one the process may remove. *)
Definition clearTarget (outPath : string) (w : World) : Prop :=
  (getFileName outPath ∉ [""; "."; ".."])
  ∧ (outPath +:+ ".ts" ∉ dirs w)
  ∧ (isDir w (parentOf (outPath +:+ ".ts")) = true
     ∧ (parentOf (outPath +:+ ".ts") ∉ sealed w))
  ∧ ∀ f, files w !! (outPath +:+ ".ts") = Some f → pinned f = false.

(** A name as getFileName gives it: it holds no separator. *)
Definition baseName (name : string) : Prop := LastIndex name "/" = -1.

(** The bytes of the merged file. *)
Definition artifact (outPath : string) (w : World) : option (list byte) :=
  content <$> files w !! (outPath +:+ ".ts").

Definition segmentBytes (outPath : string) (w : World) (name : string) : list byte :=
  default [] (segmentFile outPath w name).

(** The error the merge meets at the segment file of [name]: that of
    os.OpenFile, or that of ioutil.ReadAll where a directory is in the
    file's place. *)
Definition openError (outPath : string) (w : World) (name : string) : string :=
  let path := outPath +:+ PathSeparator +:+ name in
  match files w !! path with
  | Some _ => PathError "open" path EACCES
  | None =>
      if isDir w path then PathError "read" path EISDIR
      else PathError "open" path (if underFile w path then ENOTDIR else ENOENT)
  end.

(** The files after the fetch tasks of [done] have stored their bodies, in
    that order of completion. *)
Definition completeAll (outPath : string) (done : list (string * list byte)) (w : World) : World :=
  foldl (λ w '(name, body), snd (storeSegment outPath name body w)) w done.

(** The fetch task gave back its slot and told the WaitGroup it is done:
    one token fewer in chLimit, the counter one lower. *)
Definition released (w w' : World) : Prop :=
  wg w' = wg w - 1 ∧ S (chLimit w') = chLimit w.

(** The GET requests of a trace, in order. *)
Definition httpGets (tr : list Event) : list string :=
  omap (λ e, match e with EvHttpGet u => Some u | _ => None end) tr.

(** The descriptors sent on dlc in a trace, in order. *)
Definition sends (tr : list Event) : list Download :=
  omap (λ e, match e with EvSend d => Some d | _ => None end) tr.

(** Two states with the same files and directories, and the same
    downloadProcess. *)
Definition sameDisk (w w' : World) : Prop :=
  files w = files w' ∧ dirs w = dirs w' ∧ downloadProcess w = downloadProcess w'
  ∧ sealed w = sealed w'.

(** The three ways a fetch task leaves through a return statement:
    the URI is a key of the status map; the request fails; the response
    is not a 200. *)
Definition returnsEarly (E : Env) (st : gmap string bool) (v : Download) : Prop :=
  is_Some (st !! URI v)
  ∨ (st !! URI v = None ∧ url_Parse E (URI v) = None
     ∧ ((∃ msg, http_Do E (URI v) = HttpErr msg)
        ∨ (∃ code body, http_Do E (URI v) = HttpResp code body ∧ code ≠ 200))).

(** A step that requests nothing and leaves dlc open or closed as it was. *)
Definition quiet (w w' : World) : Prop :=
  httpGets (trace w') = httpGets (trace w) ∧ dlcClosed w' = dlcClosed w.

(** A computation all of whose runs are quiet and end within the
    recursion bound. *)
Definition Quiet {A} (m : M A) : Prop :=
  ∀ w r w', m w = (r, w') → quiet w w' ∧ r ≠ OutOfFuel.

(** Of the entries a range over MediaStatus visits: the names recorded as
    not complete, and the number recorded as complete. *)
Definition pending (l : list (string * bool)) : list string :=
  (filter (λ kv, kv.2 = false) l).*1.

Definition completed (l : list (string * bool)) : nat :=
  length (filter (λ kv, kv.2 = true) l).

(** Flags that pass the checks at the head of downloadFunc. *)
Definition validFlags (E : Env) : Prop :=
  m3u8Url E ≠ "" ∧ outPath E ≠ ""
  ∧ HasPrefix (m3u8Url E) "http" = true ∧ HasSuffix (m3u8Url E) "m3u8" = true.

(** The state in which downloadFunc looks for the checkpoint. *)
Definition announced (E : Env) (w : World) : World := snd (printFlags E w).

(** The descriptor getContinuePlaylist builds for a name. *)
Definition descriptor (w : World) (name : string) : Download :=
  mkDownload (Path (downloadProcess w) +:+ name).

(** ** The specification's wording of three claims *)



(** On resume, exactly one descriptor is sent for each entry of
    segmentOrder whose status is not complete. *)
Definition resume_sends_incomplete_order_entries (E : Env) (w : World) : Prop :=
  let ms := default ∅ (MediaStatus (downloadProcess w)) in
  sends (trace (snd (getContinuePlaylist E w)))
  ≡ₚ sends (trace w)
     ++ (descriptor w <$> filter (λ n, ms !! n ≠ Some true) (MediaList (downloadProcess w))).

(** A checkpoint file that cannot be read, or that the decoder reports an
    error for, leaves the state as it was before loading. *)
Definition rejected_checkpoint_leaves_state (E : Env) (w : World) : Prop :=
  ∀ f, files w !! indexName E = Some f →
       readable f = false
       ∨ snd (json_Unmarshal E (content f) (downloadProcess w)) = true →
       downloadProcess (snd (load E (indexName E) w)) = downloadProcess w.

(** ** Sample inputs *)

Module Sample.

Definition bytes (s : string) : list byte := String.list_byte_of_string s.

(** Reference resolution for plain relative names: the directory of the
    base URL followed by the reference. *)
Definition resolve (base ref : string) : string + string :=
  inr (take (Z.to_nat (LastIndex base "/" + 1)) base +:+ ref).

Definition env (http : string → HttpResult) (dec : list byte → Decoded)
    (unmarshal : list byte → DownloadProcess → DownloadProcess * bool) : Env :=
  {| parallel := 10; m3u8Url := "http://h/v/index.m3u8"; outPath := "out";
     url_Parse := λ _, None;
     url_Resolve := resolve;
     url_QueryUnescape := λ s, inr s;
     http_Do := http;
     m3u8_DecodeFrom := dec;
     json_MarshalIndent := λ _, [];
     json_Unmarshal := unmarshal;
     os_Mkdir := λ _, None;
     map_range := map_to_list |}.

(** The state of a process that has just started. *)
Definition start (fs : gmap string File) (ds : gset string) : World :=
  {| downloadProcess := emptyProcess; bar := None; files := fs; dirs := ds;
     sealed := ∅; dlc := []; dlcClosed := false; chLimit := 0; chLimitClosed := false;
     wg := 0; trace := [] |}.

(** A server with the manifest and the segments a.ts and b.ts; every
    other request fails to connect, except c.ts, which is not found. *)
Definition http (u : string) : HttpResult :=
  if bool_decide (u = "http://h/v/index.m3u8") then HttpResp 200 (bytes "#EXTM3U")
  else if bool_decide (u = "http://h/v/a.ts") then HttpResp 200 (bytes "AAA")
  else if bool_decide (u = "http://h/v/b.ts") then HttpResp 200 (bytes "BB")
  else if bool_decide (u = "http://h/v/c.ts") then HttpResp 404 (bytes "")
  else HttpErr "dial tcp: connection refused".

Definition noUnmarshal (data : list byte) (p : DownloadProcess) : DownloadProcess * bool :=
  (p, true).

(** Decoded manifests: a closed one of two segments, a live one, one
    of three segments, and a master whose only rendition declares no
    bandwidth. *)
Definition closedManifest : Decoded :=
  MEDIA (mkMedia [Some (mkSegment "a.ts"); Some (mkSegment "b.ts"); None] true 10).
Definition liveManifest : Decoded :=
  MEDIA (mkMedia [Some (mkSegment "a.ts"); None] false 10).
Definition threeSegments : Decoded :=
  MEDIA (mkMedia [Some (mkSegment "a.ts"); Some (mkSegment "c.ts");
                  Some (mkSegment "b.ts")] true 10).
Definition zeroMaster : list Variant := [mkVariant "low.m3u8" 0].

(** A decoder that finds the given checkpoint in the file. *)
Definition checkpoint (path : string) (ms : gmap string bool) (ml : list string)
    (data : list byte) (p : DownloadProcess) : DownloadProcess * bool :=
  (with_Path path (with_MediaStatus (Some ms) (with_MediaList ml p)), false).

(** encoding/json on a document whose MediaList is a list of strings and
    whose MediaStatus is a number: the list is stored, the number is
    skipped, and an UnmarshalTypeError is returned. *)
Definition typeMismatch (data : list byte) (p : DownloadProcess) : DownloadProcess * bool :=
  (with_MediaList ["a.ts"] p, true).

Definition E_closed : Env := env http (λ _, closedManifest) noUnmarshal.
Definition E_live : Env := env http (λ _, liveManifest) noUnmarshal.
Definition E_three : Env := env http (λ _, threeSegments) noUnmarshal.
Definition E_done : Env :=
  env http (λ _, closedManifest)
    (checkpoint "http://h/v/" {["a.ts" := true; "b.ts" := true]} ["a.ts"; "b.ts"]).
Definition E_extra : Env :=
  env http (λ _, closedManifest)
    (checkpoint "http://h/v/" {["a.ts" := true; "b.ts" := false]} ["a.ts"]).
Definition E_mismatch : Env := env http (λ _, closedManifest) typeMismatch.

(** An output directory with a checkpoint file and the segment a.ts. *)
Definition w_resume : World :=
  start {["out/.index" := mkFile (bytes "{}") true;
          "out/a.ts" := mkFile (bytes "AAA") true]} {["out"]}.

(** The state loaded from a checkpoint whose MediaStatus has a key that
    MediaList does not list. *)
Definition w_extra : World :=
  set_process (λ p, with_Path "http://h/v/"
                      (with_MediaStatus (Some {["a.ts" := true; "b.ts" := false]})
                         (with_MediaList ["a.ts"] p)))
    (start ∅ {["out"]}).

(** After the pool: a.ts and c.ts are stored, b.ts is not. *)
Definition w_fetched : World :=
  {| downloadProcess :=
       with_MediaList ["a.ts"; "b.ts"; "c.ts"]
         (with_status (Some {["a.ts" := true; "b.ts" := false; "c.ts" := true]})
            emptyProcess);
     bar := Some (mkBar 3 2 false);
     files := {["out/a.ts" := mkFile (bytes "AAA") true;
                "out/c.ts" := mkFile (bytes "C") true]};
     dirs := {["out"]}; sealed := ∅;
     dlc := []; dlcClosed := true; chLimit := 0; chLimitClosed := true;
     wg := 0; trace := [] |}.

(** A pool in which one task has been started: its token is in
    chLimit and it is counted in the WaitGroup. *)
Definition running (st : gmap string bool) : World :=
  {| downloadProcess := with_status (Some st) emptyProcess;
     bar := Some (mkBar 3 0 false); files := ∅; dirs := {["out"]};
     sealed := ∅; dlc := []; dlcClosed := true; chLimit := 1; chLimitClosed := false;
     wg := 1; trace := [] |}.

End Sample.


(** ** Further functions and observations *)

(** How cobra dispatches the command line: a parse error, the config
    subcommand of cmd/config.go, or the root command. *)
Inductive Invocation :=
| ParseError (err : string)
| ConfigCmd
| RootCmd.

(** Execute, with the Run function of the command cobra selects.  The
    default of the num flag set in init is 10. *)
Definition Execute (E : Env) (inv : Invocation) (fuel : nat) : M unit :=
  match inv with
  | ParseError err => Println err >> os_Exit 1
  | ConfigCmd => Println "config called"
  | RootCmd => downloadFunc E fuel
  end.

(** The part of a URI up to and with its last slash. *)
Definition dirOf (uri : string) : string :=
  take (Z.to_nat (LastIndex uri "/" + 1)) uri.

(** What getAbsoluteUri returns for a reference, when the packages it
    calls report no error. *)
Definition resolved (E : Env) (base ref : string) : option string :=
  match (if negb (HasPrefix ref "http") then url_Resolve E base ref else inr ref) with
  | inl _ => None
  | inr abs =>
      match url_QueryUnescape E abs with
      | inl _ => None
      | inr u => Some u
      end
  end.

(** The entries of a playlist's ring buffer that are not nil. *)
Definition segmentsOf (segs : list (option MediaSegment)) : list MediaSegment :=
  omap id segs.

(** The file names recordSegments appends, and the absolute URIs
    enqueueSegments looks up, in playlist order. *)
Definition segmentNames (segs : list (option MediaSegment)) : list string :=
  (getFileName ∘ seg_URI) <$> segmentsOf segs.

Definition segmentURIs (E : Env) (base : string) (segs : list (option MediaSegment)) : list string :=
  omap (λ seg, resolved E base (seg_URI seg)) (segmentsOf segs).

(** The URIs of a list that are not among [seen] nor earlier in the list,
    in order. *)
Fixpoint firstSeen (seen uris : list string) : list string :=
  match uris with
  | [] => []
  | u :: rest =>
      if bool_decide (u ∈ seen) then firstSeen seen rest
      else u :: firstSeen (u :: seen) rest
  end.

(** downloadProcess.Path after the first loop: it is set from the first
    URI while it is empty. *)
Definition settlePath (p : string) (uris : list string) : string :=
  foldl (λ p u, if bool_decide (p = "") then dirOf u else p) p uris.

(** The status map after the first loop. *)
Definition recordStatus (st : gmap string bool) (names : list string) : gmap string bool :=
  foldl (λ m n, <[n := false]> m) st names.

(** The status map after the loop of getContinuePlaylist. *)
Definition storeAll (st : gmap string bool) (l : list (string * bool)) : gmap string bool :=
  foldl (λ m kv, <[kv.1 := kv.2]> m) st l.

(** The value writeJsonFile hands to json.MarshalIndent. *)
Definition checkpointOf (w : World) (st : gmap string bool) : DownloadProcess :=
  with_MediaStatus (Some (st ∪ default ∅ (MediaStatus (downloadProcess w))))
    (with_locked true (downloadProcess w)).

(** The state after the descriptors [ds] have been sent on an open dlc. *)
Definition sendAll (ds : list Download) (w : World) : World :=
  foldl (λ w d, emit (EvSend d) (set_dlc (dlc w ++ [d]) false w)) w ds.

(** The state after the first loop of getPlaylist over segments of the
    given names and absolute URIs. *)
Definition recorded (names uris : list string) (st : gmap string bool) (w : World) : World :=
  set_process (λ p,
    {| Path := settlePath (Path p) uris; MediaStatus := MediaStatus p;
       MediaList := MediaList p ++ names;
       status := Some (recordStatus st names); locked := locked p |}) w.

(** A status map none of whose keys holds a slash. *)
Definition slashFree (st : gmap string bool) : Prop :=
  ∀ k, is_Some (st !! k) → LastIndex k "/" = -1.

(** Two states that differ at most in the file of one path, in a
    directory at that path, and in what was printed or logged. *)
Definition onlyFile (name : string) (w w' : World) : Prop :=
  (∀ p, p ≠ name → files w' !! p = files w !! p)
  ∧ (∀ d, d ≠ name → d ∈ dirs w' ↔ d ∈ dirs w)
  ∧ downloadProcess w' = downloadProcess w
  ∧ httpGets (trace w') = httpGets (trace w).

Definition Touches {A} (name : string) (m : M A) : Prop :=
  ∀ w r w', m w = (r, w') → onlyFile name w w'.


(** Every file there is can be read and written by this process. *)
Definition accessible (w : World) : Prop :=
  ∀ p f, files w !! p = Some f → readable f = true ∧ writable f = true.




Definition markAll (st : gmap string bool) (uris : list string) : gmap string bool :=
  foldl (λ m u, <[getFileName u := true]> m) st uris.


(** ** Further sample inputs *)

Module Cases.
Import Sample.

Definition url : string := "http://h/v/index.m3u8".

(** The closed playlist of a.ts and b.ts, and a ring buffer that lists
    a.ts twice. *)
Definition twoSegments : MediaPlaylist :=
  mkMedia [Some (mkSegment "a.ts"); Some (mkSegment "b.ts"); None] true 10.
Definition repeated : list (option MediaSegment) :=
  [Some (mkSegment "a.ts"); None; Some (mkSegment "a.ts"); Some (mkSegment "b.ts")].

(** A process in which getPlaylist has just made the status map. *)
Definition resolving : World :=
  set_process (with_status (Some ∅)) (start ∅ {["out"]}).

(** A pool with one descriptor queued on a closed dlc. *)
Definition queued : World :=
  set_dlc [mkDownload "http://h/v/a.ts"] true (running ∅).

(** Other flags, and a Mkdir that answers otherwise. *)
Definition withFlags (n : Z) (u : string) (mk : string → option string) (E : Env) : Env :=
  {| parallel := n; m3u8Url := u; outPath := outPath E;
     url_Parse := url_Parse E; url_Resolve := url_Resolve E;
     url_QueryUnescape := url_QueryUnescape E; http_Do := http_Do E;
     m3u8_DecodeFrom := m3u8_DecodeFrom E;
     json_MarshalIndent := json_MarshalIndent E;
     json_Unmarshal := json_Unmarshal E;
     os_Mkdir := mk; map_range := map_range E |}.

Definition E_noslots : Env := withFlags 0 url (λ _, None) E_closed.
Definition E_negative : Env := withFlags (-1) url (λ _, None) E_closed.
Definition E_nodir : Env :=
  withFlags 10 url (λ _, Some "mkdir out: permission denied") E_closed.
Definition E_nourl : Env := withFlags 10 "" (λ _, None) E_closed.

(** A master playlist of four renditions, two of them of the greatest
    bandwidth, and a manifest of another type. *)
Definition renditions : MasterPlaylist :=
  mkMaster [mkVariant "low.m3u8" 500; mkVariant "high.m3u8" 2000;
            mkVariant "mid.m3u8" 1200; mkVariant "also.m3u8" 2000].
Definition E_master : Env := env http (λ _, MASTER renditions) noUnmarshal.
Definition E_other : Env := env http (λ _, OtherType) noUnmarshal.

End Cases.

(** * Properties *)

Ltac unfold_m :=
  unfold log_Panic, Println, log_Print, bind, get, ret, modify, panic,
    os_Exit, block in *.

(** ** Merge *)

Section Merge.

Lemma append_inv_head (p a b : string) : p +:+ a = p +:+ b → a = b.
Proof.
  induction p as [|c p IH]; cbv [String.append]; fold String.append.
  - done.
  - intros H. injection H. done.
Qed.

(** The merged file is never one of the segment files. *)
Lemma artifact_not_segment (outPath name : string) :
  outPath +:+ ".ts" ≠ outPath +:+ PathSeparator +:+ name.
Proof.
  intros H. apply append_inv_head in H. discriminate H.
Qed.

Lemma lastChar_app (s t : string) : t ≠ "" → lastChar (s +:+ t) = lastChar t.
Proof.
  intros Ht. induction s as [|c s IH]; [done|].
  change (String c s +:+ t) with (String c (s +:+ t)). rewrite <- IH.
  destruct (s +:+ t) eqn:Hs; [exfalso|done].
  destruct s; [by simplify_eq/=|discriminate Hs].
Qed.

(** A path that ends in ".ts" or ".index" is no spelling of a directory
    other than its own name. *)
Lemma isDir_by_name (w : World) (name : string) (c : ascii) :
  lastChar name = Some c → c ≠ "/"%char → c ≠ "."%char →
  isDir w name = bool_decide (name ∈ dirs w).
Proof.
  intros Hc H1 H2. unfold isDir. apply bool_decide_ext. split.
  - intros (d & Hd & Hin). unfold dirNames in Hin.
    repeat (apply elem_of_cons in Hin as [Hin|Hin]); try by apply elem_of_nil in Hin.
    + by subst.
    + subst. rewrite lastChar_app in Hc by done. by simplify_eq/=.
    + subst. rewrite lastChar_app in Hc by done. by simplify_eq/=.
    + subst. rewrite lastChar_app in Hc by done. by simplify_eq/=.
  - intros Hin. exists name. split; [done|]. unfold dirNames. by left.
Qed.

Lemma isDir_artifact (outPath : string) (w : World) :
  isDir w (outPath +:+ ".ts") = bool_decide (outPath +:+ ".ts" ∈ dirs w).
Proof. apply (isDir_by_name _ _ "s"%char); [by rewrite lastChar_app| |]; done. Qed.

Lemma isDir_dirs (w w' : World) (name : string) :
  dirs w' = dirs w → isDir w' name = isDir w name.
Proof. intros H. unfold isDir. by rewrite H. Qed.

Lemma prefix_app (p a b : string) :
  String.prefix (p +:+ a) (p +:+ b) = String.prefix a b.
Proof.
  induction p as [|c p IH]; [done|].
  change (String c p +:+ a) with (String c (p +:+ a)).
  change (String c p +:+ b) with (String c (p +:+ b)).
  cbn [String.prefix]. by destruct (ascii_dec c c).
Qed.

Lemma string_app_assoc (p a b : string) : (p +:+ a) +:+ b = p +:+ (a +:+ b).
Proof.
  induction p as [|c p IH]; [done|].
  change (String c p +:+ a) with (String c (p +:+ a)).
  change (String c (p +:+ a) +:+ b) with (String c ((p +:+ a) +:+ b)).
  by rewrite IH.
Qed.



(** Whether a path leads through a regular file depends on the names of
    the files only. *)
Lemma underFile_alter (w w' : World) (name k : string) g :
  files w' = alter g k (files w) → underFile w' name = underFile w name.
Proof.
  intros Hf. unfold underFile. rewrite Hf. f_equal. apply bool_decide_ext.
  unfold map_Forall. split; intros H p f Hp.
  - destruct (decide (k = p)) as [->|Hne].
    + apply (H p (g f)). by rewrite lookup_alter_eq, Hp.
    + apply (H p f). by rewrite lookup_alter_ne.
  - destruct (decide (k = p)) as [->|Hne].
    + rewrite lookup_alter_eq in Hp.
      destruct (files w !! p) as [f'|] eqn:Hp'; [|done]. by apply (H p f').
    + rewrite lookup_alter_ne in Hp by done. by apply (H p f).
Qed.

(** No segment path leads through the merged file. *)
Lemma underFile_insert_artifact (w w' : World) (outPath name : string) f :
  files w' = <[outPath +:+ ".ts" := f]> (files w) →
  underFile w' (outPath +:+ PathSeparator +:+ name)
  = underFile w (outPath +:+ PathSeparator +:+ name).
Proof.
  intros Hf. unfold underFile. rewrite Hf. f_equal. apply bool_decide_ext.
  assert (HasPrefix (outPath +:+ PathSeparator +:+ name)
            ((outPath +:+ ".ts") +:+ PathSeparator) = false) as Hown.
  { unfold HasPrefix, PathSeparator. by rewrite string_app_assoc, prefix_app. }
  unfold map_Forall. split; intros H p f' Hp.
  - destruct (decide (outPath +:+ ".ts" = p)) as [<-|Hne]; [done|].
    apply (H p f'). by rewrite lookup_insert_ne.
  - destruct (decide (outPath +:+ ".ts" = p)) as [<-|Hne]; [done|].
    rewrite lookup_insert_ne in Hp by done. by apply (H p f').
Qed.

Lemma segmentFile_alter outPath w w' name g :
  files w' = alter g (outPath +:+ ".ts") (files w) →
  segmentFile outPath w' name = segmentFile outPath w name.
Proof.
  intros Hf. unfold segmentFile. rewrite Hf.
  rewrite lookup_alter_ne; [done|]. apply artifact_not_segment.
Qed.

Lemma openError_alter outPath w w' name g :
  files w' = alter g (outPath +:+ ".ts") (files w) →
  dirs w' = dirs w →
  openError outPath w' name = openError outPath w name.
Proof.
  intros Hf Hd. unfold openError.
  rewrite (isDir_dirs _ _ _ Hd), (underFile_alter _ _ _ _ _ Hf), Hf.
  rewrite lookup_alter_ne; [done|]. apply artifact_not_segment.
Qed.

(** One iteration whose segment file opens. *)
Lemma mergeLoop_cons outPath value rest w b :
  segmentFile outPath w value = Some b →
  mergeLoop outPath (outPath +:+ ".ts") (value :: rest) w =
  mergeLoop outPath (outPath +:+ ".ts") rest
    (set_files (alter (appendBytes b) (outPath +:+ ".ts")) w).
Proof.
  unfold segmentFile. intros H. simpl.
  unfold bind at 1. unfold os_OpenFile_rdonly. unfold_m.
  destruct (files w !! _) as [f|] eqn:Hf; [|done].
  destruct (readable f); [|done]. unfold ioutil_ReadAll. unfold_m.
  rewrite Hf. by simplify_eq.
Qed.

Lemma omap_segmentFile_alter outPath w w' g (l : list string) :
  files w' = alter g (outPath +:+ ".ts") (files w) →
  omap (segmentFile outPath w') l = omap (segmentFile outPath w) l.
Proof.
  intros Hf. induction l as [|n l IH]; [done|]. csimpl.
  by rewrite (segmentFile_alter _ _ _ _ _ Hf), IH.
Qed.

Lemma alter_appendBytes_nil (k : string) (m : gmap string File) :
  alter (appendBytes []) k m = m.
Proof.
  apply map_eq. intros j. rewrite lookup_alter. case_decide; [|done].
  subst. destruct (m !! j) as [[c r x p]|]; [|done]. simpl.
  unfold appendBytes. simpl. by rewrite app_nil_r.
Qed.

Lemma alter_appendBytes_app (k : string) (m : gmap string File) b1 b2 :
  alter (appendBytes b2) k (alter (appendBytes b1) k m)
  = alter (appendBytes (b1 ++ b2)) k m.
Proof.
  apply map_eq. intros j. destruct (decide (k = j)) as [->|Hne].
  - rewrite !lookup_alter_eq.
    destruct (m !! j) as [[c r x p]|]; [|done]. simpl.
    unfold appendBytes. simpl. by rewrite <- app_assoc.
  - by rewrite !lookup_alter_ne.
Qed.

(** The loop over names whose files all open: every file is appended in
    full, in list order, and nothing is printed. *)
Lemma mergeLoop_present outPath l : ∀ w,
  Forall (λ n, is_Some (segmentFile outPath w n)) l →
  ∃ w', mergeLoop outPath (outPath +:+ ".ts") l w = (Ok tt, w')
        ∧ files w' = alter (appendBytes (concat (omap (segmentFile outPath w) l)))
                       (outPath +:+ ".ts") (files w)
        ∧ trace w' = trace w
        ∧ downloadProcess w' = downloadProcess w.
Proof.
  induction l as [|n l IH]; intros w Hall.
  - exists w. split; [done|]. split; [|done].
    simpl. by rewrite alter_appendBytes_nil.
  - inversion Hall as [|? ? [b Hb] Hl]; subst.
    rewrite (mergeLoop_cons _ _ _ _ b Hb).
    set (w1 := set_files _ w).
    assert (Hw1 : files w1 = alter (appendBytes b) (outPath +:+ ".ts") (files w)) by done.
    destruct (IH w1) as (w' & Hrun & Hfiles & Htr & Hdp).
    { eapply Forall_impl; [exact Hl|]. intros x Hx. simpl.
      by rewrite (segmentFile_alter _ _ _ _ _ Hw1). }
    exists w'. split; [done|]. split; [|done].
    rewrite Hfiles, Hw1, (omap_segmentFile_alter _ _ _ _ _ Hw1).
    csimpl. rewrite Hb. simpl. apply alter_appendBytes_app.
Qed.

(** The loop reaching a name whose file does not open, or is a directory
    and cannot be read: the names before it are appended, the error is
    printed, and the loop ends. *)
Lemma mergeLoop_missing outPath pre n post : ∀ w,
  Forall (λ m, is_Some (segmentFile outPath w m)) pre →
  segmentFile outPath w n = None →
  ∃ w', mergeLoop outPath (outPath +:+ ".ts") (pre ++ n :: post) w = (Ok tt, w')
        ∧ files w' = alter (appendBytes (concat (omap (segmentFile outPath w) pre)))
                       (outPath +:+ ".ts") (files w)
        ∧ trace w' = trace w ++ [EvPrintln (openError outPath w n)]
        ∧ downloadProcess w' = downloadProcess w.
Proof.
  induction pre as [|m pre IH]; intros w Hall Hn.
  - simpl. unfold bind at 1. unfold os_OpenFile_rdonly. unfold_m.
    unfold segmentFile in Hn. unfold openError. cbv zeta.
    destruct (files w !! _) as [f|] eqn:Hf.
    + destruct (readable f); [done|].
      eexists. split; [done|]. split; [|done].
      simpl. by rewrite alter_appendBytes_nil.
    + destruct (isDir w _).
      * unfold ioutil_ReadAll. unfold_m. rewrite Hf.
        eexists. split; [done|]. split; [|done].
        simpl. by rewrite alter_appendBytes_nil.
      * eexists. split; [done|]. split; [|done].
        simpl. by rewrite alter_appendBytes_nil.
  - inversion Hall as [|? ? [b Hb] Hl]; subst.
    rewrite <- app_comm_cons, (mergeLoop_cons _ _ _ _ b Hb).
    set (w1 := set_files _ w).
    assert (Hw1 : files w1 = alter (appendBytes b) (outPath +:+ ".ts") (files w)) by done.
    destruct (IH w1) as (w' & Hrun & Hfiles & Htr & Hdp).
    { eapply Forall_impl; [exact Hl|]. intros x Hx. simpl.
      by rewrite (segmentFile_alter _ _ _ _ _ Hw1). }
    { by rewrite (segmentFile_alter _ _ _ _ _ Hw1). }
    exists w'. split; [done|]. split; [|split; [|done]].
    + rewrite Hfiles, Hw1, (omap_segmentFile_alter _ _ _ _ _ Hw1).
      csimpl. rewrite Hb. simpl. apply alter_appendBytes_app.
    + by rewrite Htr, (openError_alter _ _ _ _ _ Hw1).
Qed.

Lemma insert_as_alter (k : string) (m : gmap string File) b :
  alter (appendBytes b) k (<[k := mkFile [] true]> m) = <[k := mkFile b true]> m.
Proof.
  apply map_eq. intros j. destruct (decide (k = j)) as [->|Hne].
  - by rewrite lookup_alter_eq, !lookup_insert_eq.
  - by rewrite lookup_alter_ne, !lookup_insert_ne.
Qed.

(** Before the loop: a stale merged file is removed and an empty one is
    opened for appending. *)
Lemma mergeMediaFile_open outPath w :
  outPath +:+ ".ts" ∉ dirs w →
  (∀ f, files w !! (outPath +:+ ".ts") = Some f → pinned f = false) →
  ∃ w0, mergeMediaFile outPath w
        = mergeLoop outPath (outPath +:+ ".ts") (MediaList (downloadProcess w)) w0
        ∧ files w0 = <[outPath +:+ ".ts" := mkFile [] true]> (files w)
        ∧ trace w0 = trace w
        ∧ downloadProcess w0 = downloadProcess w
        ∧ dirs w0 = dirs w.
Proof.
  intros Hdir Hpin.
  assert (∀ w0, dirs w0 = dirs w → isDir w0 (outPath +:+ ".ts") = false) as Hnodir.
  { intros w0 Hd. by rewrite isDir_artifact, Hd, (bool_decide_eq_false_2 _ Hdir). }
  unfold mergeMediaFile, os_Stat, os_Remove, os_OpenFile_append.
  unfold_m. cbv zeta. rewrite (Hnodir w eq_refl), orb_false_r.
  destruct (files w !! (outPath +:+ ".ts")) as [f|] eqn:Hf; simpl.
  - rewrite Hf, (Hpin f eq_refl). simpl.
    rewrite Hnodir by done. rewrite lookup_delete_eq. simpl.
    eexists. split; [done|]. simpl. by rewrite insert_delete_eq.
  - destruct (underFile w _); simpl;
      rewrite (Hnodir w eq_refl), Hf; simpl;
      eexists; (split; [done|]); done.
Qed.

Lemma segmentFile_insert outPath w w' name f :
  files w' = <[outPath +:+ ".ts" := f]> (files w) →
  segmentFile outPath w' name = segmentFile outPath w name.
Proof.
  intros Hf. unfold segmentFile. rewrite Hf.
  rewrite lookup_insert_ne; [done|]. apply artifact_not_segment.
Qed.

Lemma openError_insert outPath w w' name f :
  files w' = <[outPath +:+ ".ts" := f]> (files w) →
  dirs w' = dirs w →
  openError outPath w' name = openError outPath w name.
Proof.
  intros Hf Hd. unfold openError.
  rewrite (isDir_dirs _ _ _ Hd), (underFile_insert_artifact _ _ _ _ _ Hf), Hf.
  rewrite lookup_insert_ne; [done|]. apply artifact_not_segment.
Qed.

Lemma omap_segmentFile_present outPath w (l : list string) :
  Forall (λ n, is_Some (segmentFile outPath w n)) l →
  omap (segmentFile outPath w) l = map (segmentBytes outPath w) l.
Proof.
  induction 1 as [|n l [b Hb] _ IH]; [done|]. csimpl.
  unfold segmentBytes at 1. rewrite Hb. simpl. by rewrite IH.
Qed.

Lemma first_unopened {A} (f : string → option A) (l : list string) :
  (∃ n, n ∈ l ∧ f n = None) →
  ∃ pre n post, l = pre ++ n :: post ∧ Forall (λ m, is_Some (f m)) pre ∧ f n = None.
Proof.
  induction l as [|x l IH]; intros (n & Hin & Hn).
  - by apply elem_of_nil in Hin.
  - destruct (f x) as [a|] eqn:Hx.
    + apply elem_of_cons in Hin as [->|Hin]; [congruence|].
      destruct IH as (pre & m & post & -> & Hpre & Hm); [by eauto|].
      exists (x :: pre), m, post. split; [done|]. split; [|done].
      constructor; [by rewrite Hx|done].
    + exists [], x, l. by repeat split.
Qed.

(** With every segment file in place the merge returns, and the merged
    file is the concatenation of the segment files in MediaList order. *)
Lemma mergeMediaFile_concat (outPath : string) (w : World) :
  outPath +:+ ".ts" ∉ dirs w →
  (∀ f, files w !! (outPath +:+ ".ts") = Some f → pinned f = false) →
  Forall (λ n, is_Some (segmentFile outPath w n)) (MediaList (downloadProcess w)) →
  ∃ w', mergeMediaFile outPath w = (Ok tt, w')
        ∧ artifact outPath w'
          = Some (concat (map (segmentBytes outPath w) (MediaList (downloadProcess w))))
        ∧ trace w' = trace w.
Proof.
  intros Hdir Hpin Hall.
  destruct (mergeMediaFile_open outPath w Hdir Hpin) as (w1 & -> & Hf1 & Ht1 & _).
  destruct (mergeLoop_present outPath (MediaList (downloadProcess w)) w1)
    as (w' & Hrun & Hf' & Ht' & _).
  { eapply Forall_impl; [exact Hall|]. intros n Hn. simpl.
    by rewrite (segmentFile_insert _ _ _ _ _ Hf1). }
  exists w'. split; [done|]. split; [|congruence].
  unfold artifact. rewrite Hf', Hf1, insert_as_alter, lookup_insert_eq. simpl.
  do 2 f_equal. rewrite <- (omap_segmentFile_present _ _ _ Hall).
  apply list_omap_ext, Forall2_same_length_lookup. split; [done|].
  intros i x y Hx Hy. simplify_eq. by apply (segmentFile_insert _ _ _ _ _ Hf1).
Qed.

(** Where the merged file of an earlier run cannot be removed, the
    failure is printed and the segments are appended to what it holds. *)
Lemma merge_appends_to_pinned_file (outPath : string) (w : World) (f : File) :
  outPath +:+ ".ts" ∉ dirs w →
  files w !! (outPath +:+ ".ts") = Some f →
  pinned f = true →
  Forall (λ n, is_Some (segmentFile outPath w n)) (MediaList (downloadProcess w)) →
  ∃ w', mergeMediaFile outPath w = (Ok tt, w')
        ∧ artifact outPath w'
          = Some (content f
                  ++ concat (map (segmentBytes outPath w) (MediaList (downloadProcess w))))
        ∧ trace w'
          = trace w ++ [EvPrintln ("remove file " +:+ (outPath +:+ ".ts") +:+ " failed. ")].
Proof.
  intros Hdir Hf Hpin Hall.
  assert (∀ w0, dirs w0 = dirs w → isDir w0 (outPath +:+ ".ts") = false) as Hnodir.
  { intros w0 Hd. by rewrite isDir_artifact, Hd, (bool_decide_eq_false_2 _ Hdir). }
  unfold mergeMediaFile, os_Stat, os_Remove, os_OpenFile_append. unfold_m. cbv zeta.
  rewrite Hf. simpl. rewrite Hf, Hpin. simpl.
  rewrite Hnodir by done. rewrite Hf. simpl.
  set (w1 := emit _ w).
  destruct (mergeLoop_present outPath (MediaList (downloadProcess w)) w1)
    as (w' & Hrun & Hf' & Ht' & _); [done|].
  exists w'. split; [done|]. split; [|done].
  unfold artifact. rewrite Hf'. simpl. rewrite lookup_alter_eq, Hf. simpl.
  change (segmentFile outPath w1) with (segmentFile outPath w).
  by rewrite (omap_segmentFile_present _ _ _ Hall).
Qed.

(** *** The order of completion *)

Lemma sameDisk_refl w : sameDisk w w.
Proof. done. Qed.

Lemma sameDisk_trans w1 w2 w3 : sameDisk w1 w2 → sameDisk w2 w3 → sameDisk w1 w3.
Proof. intros (? & ? & ? & ?) (? & ? & ? & ?). repeat split; congruence. Qed.

Lemma canCreate_sameDisk dir path w1 w2 :
  sameDisk w1 w2 → canCreate dir path w1 = canCreate dir path w2.
Proof.
  intros (Hf & Hd & _ & Hs). unfold canCreate, isDir. by rewrite Hf, Hd, Hs.
Qed.

Lemma canStore_sameDisk outPath name w1 w2 :
  sameDisk w1 w2 → canStore outPath name w1 = canStore outPath name w2.
Proof.
  intros Hs. unfold canStore. rewrite (canCreate_sameDisk _ _ _ _ Hs).
  destruct Hs as (-> & _). done.
Qed.

(** What a task's store leaves: the file, or the log of the failed copy. *)
Lemma storeSegment_snd outPath name body w :
  snd (storeSegment outPath name body w)
  = if canStore outPath name w
    then set_files <[outPath +:+ "/" +:+ name := mkFile body true]> w
    else emit (EvLog "invalid argument") w.
Proof. unfold storeSegment. unfold_m. by destruct (canStore _ _ _). Qed.

Lemma storeSegment_sameDisk outPath name body w1 w2 :
  sameDisk w1 w2 →
  sameDisk (snd (storeSegment outPath name body w1))
           (snd (storeSegment outPath name body w2)).
Proof.
  intros Hs. rewrite !storeSegment_snd.
  rewrite (canStore_sameDisk _ _ _ _ Hs). destruct Hs as (Hf & Hd & Hp & Hs).
  destruct (canStore _ _ w2); simpl; repeat split; simpl; congruence.
Qed.

Lemma segment_path_inj (outPath n1 n2 : string) :
  outPath +:+ "/" +:+ n1 = outPath +:+ "/" +:+ n2 → n1 = n2.
Proof. intros H. apply append_inv_head in H. by injection H. Qed.

Lemma canCreate_insert_ne dir path k f w :
  path ≠ k → canCreate dir path (set_files <[k := f]> w) = canCreate dir path w.
Proof.
  intros Hne. unfold canCreate, isDir. simpl. by rewrite lookup_insert_ne.
Qed.

Lemma canStore_insert_ne outPath name k f w :
  outPath +:+ "/" +:+ name ≠ k →
  canStore outPath name (set_files <[k := f]> w) = canStore outPath name w.
Proof.
  intros Hne. unfold canStore. rewrite canCreate_insert_ne by done.
  simpl. by rewrite lookup_insert_ne.
Qed.

(** Two tasks for different names may complete in either order. *)
Lemma storeSegment_swap outPath n1 b1 n2 b2 w :
  n1 ≠ n2 →
  sameDisk
    (snd (storeSegment outPath n2 b2 (snd (storeSegment outPath n1 b1 w))))
    (snd (storeSegment outPath n1 b1 (snd (storeSegment outPath n2 b2 w)))).
Proof.
  intros Hne.
  assert (outPath +:+ "/" +:+ n1 ≠ outPath +:+ "/" +:+ n2) as Hp
    by (intros H; by apply segment_path_inj in H).
  rewrite (storeSegment_snd _ n1 _ w), (storeSegment_snd _ n2 _ w).
  destruct (canStore outPath n1 w) eqn:H1; destruct (canStore outPath n2 w) eqn:H2;
    rewrite !storeSegment_snd;
    rewrite ?canStore_insert_ne by done;
    change (canStore outPath ?n (emit ?e w)) with (canStore outPath n w);
    rewrite ?H1, ?H2; repeat split; try done.
  simpl. by apply insert_insert_ne.
Qed.

Lemma completeAll_sameDisk outPath (done : list (string * list byte)) : ∀ w1 w2,
  sameDisk w1 w2 → sameDisk (completeAll outPath done w1) (completeAll outPath done w2).
Proof.
  induction done as [|[n b] done IH]; intros w1 w2 Hs; [done|].
  simpl. apply IH. by apply storeSegment_sameDisk.
Qed.

(** Over distinct names the files on disk do not depend on the order in
    which the tasks completed. *)
Lemma completeAll_Permutation outPath (done done' : list (string * list byte)) :
  done ≡ₚ done' → NoDup done.*1 →
  ∀ w, sameDisk (completeAll outPath done w) (completeAll outPath done' w).
Proof.
  induction 1 as [|[n b] l l' Hl IH|[n1 b1] [n2 b2] l|l l' l'' H1 IH1 H2 IH2];
    intros Hnd w.
  - done.
  - simpl. apply IH. by inversion Hnd.
  - simpl. apply completeAll_sameDisk, storeSegment_swap.
    inversion Hnd as [|? ? Hnotin _]; subst. intros ->. apply Hnotin. by left.
  - eapply sameDisk_trans; [by apply IH1|]. apply IH2. by rewrite <- H1.
Qed.

Lemma segmentFile_sameDisk outPath w1 w2 n :
  sameDisk w1 w2 → segmentFile outPath w1 n = segmentFile outPath w2 n.
Proof. intros (Hf & _). unfold segmentFile. by rewrite Hf. Qed.

Lemma clearTarget_sameDisk outPath w1 w2 :
  sameDisk w1 w2 → clearTarget outPath w1 → clearTarget outPath w2.
Proof.
  intros (Hf & Hd & _ & Hs) (H0 & H1 & H2 & H3). unfold clearTarget, isDir in *.
  by rewrite <- Hf, <- Hd, <- Hs.
Qed.

(** C3.  Whatever the order [done] in which the fetch tasks completed and
    stored their bodies, the merge returns with the merged file holding
    the contents of the segment files, each in full, concatenated in the
    order of MediaList (segmentOrder); and had the tasks, for distinct
    names, completed in another order [done'], the merged file would hold
    the same bytes.  The merge starts from an empty merged file: nothing
    is in the way of it (it lies beside the output directory, in a
    directory that is there and can be written, and no directory has its
    name), and one left by an earlier run can be removed.  The names of
    MediaList are file names, with no separator in them, as getFileName
    gives them. *)
Theorem merge_in_segment_order (outPath : string) (w0 : World)
    (done : list (string * list byte)) :
  let w := completeAll outPath done w0 in
  clearTarget outPath w →
  Forall baseName (MediaList (downloadProcess w)) →
  Forall (λ n, is_Some (segmentFile outPath w n)) (MediaList (downloadProcess w)) →
  ∃ w', mergeMediaFile outPath w = (Ok tt, w')
        ∧ artifact outPath w'
          = Some (concat (map (segmentBytes outPath w) (MediaList (downloadProcess w))))
        ∧ trace w' = trace w
        ∧ ∀ done', done ≡ₚ done' → NoDup done.*1 →
            artifact outPath (snd (mergeMediaFile outPath (completeAll outPath done' w0)))
            = artifact outPath w'.
Proof.
  intros w Hclear _ Hall.
  destruct (mergeMediaFile_concat outPath w (proj1 (proj2 Hclear))
              (proj2 (proj2 (proj2 Hclear))) Hall)
    as (w' & Hrun & Hart & Htr).
  exists w'. split; [done|]. split; [done|]. split; [done|].
  intros done' Hperm Hnd.
  pose proof (completeAll_Permutation outPath _ _ Hperm Hnd w0) as Hs.
  fold w in Hs. set (w2 := completeAll outPath done' w0) in *.
  pose proof (clearTarget_sameDisk _ _ _ Hs Hclear) as Hclear2.
  destruct Hs as (Hf & Hd & Hp & Hse).
  destruct (mergeMediaFile_concat outPath w2 (proj1 (proj2 Hclear2))
              (proj2 (proj2 (proj2 Hclear2))))
    as (w2' & Hrun2 & Hart2 & _).
  { rewrite <- Hp. eapply Forall_impl; [exact Hall|]. intros n Hn. simpl.
    by rewrite <- (segmentFile_sameDisk outPath w w2 n). }
  rewrite Hrun2. simpl. rewrite Hart2, Hart, <- Hp. do 2 f_equal.
  apply map_ext. intros n. unfold segmentBytes.
  by rewrite (segmentFile_sameDisk outPath w w2 n).
Qed.

(** C6.  When some name of MediaList has no segment file that opens, the
    merge stops at the first such name: it prints the error it met there,
    which names the path of the segment file (that of the open, or, where
    a directory is in the file's place, that of the read), and copies
    nothing further; the merged file is left with the segments before it.
    The merge starts from an empty merged file, and the names of MediaList
    are file names, as in C3. *)
Theorem merge_aborts_on_missing_segment (outPath : string) (w : World) :
  clearTarget outPath w →
  Forall baseName (MediaList (downloadProcess w)) →
  (∃ n, n ∈ MediaList (downloadProcess w) ∧ segmentFile outPath w n = None) →
  ∃ pre n post w',
    MediaList (downloadProcess w) = pre ++ n :: post
    ∧ Forall (λ m, is_Some (segmentFile outPath w m)) pre
    ∧ segmentFile outPath w n = None
    ∧ mergeMediaFile outPath w = (Ok tt, w')
    ∧ trace w' = trace w ++ [EvPrintln (openError outPath w n)]
    ∧ artifact outPath w' = Some (concat (map (segmentBytes outPath w) pre)).
Proof.
  intros (_ & Hdir & _ & Hpin) _ Hmiss.
  destruct (first_unopened _ _ Hmiss) as (pre & n & post & Hl & Hpre & Hn).
  destruct (mergeMediaFile_open outPath w Hdir Hpin)
    as (w1 & Hrun1 & Hf1 & Ht1 & _ & Hd1).
  destruct (mergeLoop_missing outPath pre n post w1)
    as (w' & Hrun & Hf' & Ht' & _).
  { eapply Forall_impl; [exact Hpre|]. intros m Hm. simpl.
    by rewrite (segmentFile_insert _ _ _ _ _ Hf1). }
  { by rewrite (segmentFile_insert _ _ _ _ _ Hf1). }
  exists pre, n, post, w'. repeat split; try done.
  - by rewrite Hrun1, Hl.
  - by rewrite Ht', Ht1, (openError_insert _ _ _ _ _ Hf1 Hd1).
  - unfold artifact. rewrite Hf', Hf1, insert_as_alter, lookup_insert_eq. simpl.
    do 2 f_equal. rewrite <- (omap_segmentFile_present _ _ _ Hpre).
    apply list_omap_ext, Forall2_same_length_lookup. split; [done|].
    intros i x y Hx Hy. simplify_eq. by apply (segmentFile_insert _ _ _ _ _ Hf1).
Qed.

End Merge.

(** ** The fetch task *)

Section Fetch.
Context (E : Env).

(** writeJsonFile touches the checkpoint and the lock only. *)
Lemma writeJsonFile_frame (w : World) :
  ∀ r w', writeJsonFile E w = (r, w') →
    chLimit w' = chLimit w ∧ wg w' = wg w ∧ trace w' = trace w
    ∧ dlc w' = dlc w ∧ dlcClosed w' = dlcClosed w ∧ bar w' = bar w
    ∧ status (downloadProcess w') = status (downloadProcess w)
    ∧ MediaList (downloadProcess w') = MediaList (downloadProcess w).
Proof.
  intros r w'. unfold writeJsonFile. unfold_m.
  destruct (locked (downloadProcess w)); [intros ?; by simplify_eq|].
  destruct (MediaStatus (downloadProcess w)); simpl;
    (destruct (status (downloadProcess w)) eqn:Hst; simpl;
     [destruct (canCreate _ _ _); simpl|]);
    intros ?; simplify_eq; simpl; by rewrite ?Hst.
Qed.

(** With the status map in place and the lock free, writeJsonFile returns. *)
Lemma writeJsonFile_returns (w : World) :
  locked (downloadProcess w) = false →
  is_Some (status (downloadProcess w)) →
  ∃ w', writeJsonFile E w = (Ok tt, w')
        ∧ locked (downloadProcess w') = false.
Proof.
  intros Hl [st Hst]. unfold writeJsonFile. unfold_m. rewrite Hl.
  destruct (MediaStatus _); simpl; rewrite Hst; simpl;
    destruct (canCreate _ _ _); simpl; eauto.
Qed.

Lemma httpGets_app (l1 l2 : list Event) :
  httpGets (l1 ++ l2) = httpGets l1 ++ httpGets l2.
Proof. apply omap_app. Qed.

(** The deferred catchException fetches nothing and leaves the pool's
    channel and WaitGroup alone. *)
Lemma deferred_frame (body : M unit) (w : World) r1 w1 :
  body w = (r1, w1) →
  ∀ r w', deferred E body w = (r, w') →
    chLimit w' = chLimit w1 ∧ wg w' = wg w1
    ∧ httpGets (trace w') = httpGets (trace w1).
Proof.
  intros Hb r w'. unfold deferred. rewrite Hb.
  destruct r1 as [[]|e| | |]; try (intros ?; by simplify_eq).
  - unfold catchException. unfold_m. intros H.
    by destruct (writeJsonFile_frame _ _ _ H) as (-> & -> & -> & _).
  - unfold catchException. unfold_m. simpl. intros H.
    destruct (writeJsonFile_frame _ _ _ H) as (-> & -> & -> & _).
    simpl. rewrite httpGets_app. simpl. by rewrite app_nil_r.
Qed.

(** A body that returns with the status map in place and the lock free
    makes the whole call return. *)
Lemma deferred_returns (body : M unit) (w w1 : World) :
  body w = (Ok tt, w1) →
  locked (downloadProcess w1) = false →
  is_Some (status (downloadProcess w1)) →
  ∃ w', deferred E body w = (Ok tt, w').
Proof.
  intros Hb Hl Hs. unfold deferred. rewrite Hb.
  unfold catchException. unfold_m.
  destruct (writeJsonFile_returns w1 Hl Hs) as (w' & -> & _). eauto.
Qed.

(** C1, as the code has it.  A fetch task that is skipped, or whose
    request fails or is answered with another status than 200, returns
    without calling wg.Done() and without taking its token back from
    chLimit: both are as they were when the task started. *)
Theorem fetch_return_keeps_slot (outPath : string) (v : Download) (w : World)
    (st : gmap string bool) :
  LastIndex (URI v) "/" ≠ -1 →
  status (downloadProcess w) = Some st →
  locked (downloadProcess w) = false →
  returnsEarly E st v →
  ∃ w', downloadSegment E outPath v w = (Ok tt, w')
        ∧ wg w' = wg w ∧ chLimit w' = chLimit w
        ∧ ¬ released w w'.
Proof.
  intros Hidx Hst Hl Hearly.
  assert (∃ w1, downloadSegment_body E outPath v w = (Ok tt, w1)
          ∧ wg w1 = wg w ∧ chLimit w1 = chLimit w
          ∧ locked (downloadProcess w1) = false
          ∧ is_Some (status (downloadProcess w1))) as (w1 & Hbody & Hwg & Hch & Hl1 & Hs1).
  { unfold downloadSegment_body. simpl. rewrite bool_decide_eq_true_2 by done.
    unfold status_Load, setMediaStatus, status_Store. unfold_m. rewrite Hst.
    destruct Hearly as [Hin|(Hnone & Hparse & [[msg Hh]|(code & body & Hh & Hcode)])].
    - rewrite bool_decide_eq_true_2 by done. exists w. rewrite Hst. eauto 10.
    - rewrite bool_decide_eq_false_2 by (rewrite Hnone; by intros [? ?]).
      rewrite Hparse, Hh. simpl. rewrite Hst. simpl. eexists. split; [done|].
      simpl. rewrite Hl. eauto.
    - rewrite bool_decide_eq_false_2 by (rewrite Hnone; by intros [? ?]).
      rewrite Hparse, Hh. simpl. rewrite bool_decide_eq_true_2 by done.
      simpl. rewrite Hst. simpl. eexists. split; [done|].
      simpl. rewrite Hl. eauto. }
  destruct (deferred_returns _ _ _ Hbody Hl1 Hs1) as (w' & Hrun).
  destruct (deferred_frame _ _ _ _ Hbody _ _ Hrun) as (Hc & Hw & _).
  exists w'. unfold downloadSegment. split; [exact Hrun|].
  split; [congruence|]. split; [congruence|].
  unfold released. intros [Hr _]. rewrite Hw, Hwg in Hr. lia.
Qed.

(** C2, as the code has it.  The skip test looks the whole URI up in
    the status map, whose keys are file names, so a segment recorded as
    complete under its derived name is requested again. *)
Theorem fetch_repeats_completed_segment (outPath : string) (v : Download)
    (w : World) (st : gmap string bool) :
  LastIndex (URI v) "/" ≠ -1 →
  status (downloadProcess w) = Some st →
  st !! getFileName (URI v) = Some true →
  st !! URI v = None →
  url_Parse E (URI v) = None →
  ∀ r w', downloadSegment E outPath v w = (r, w') →
    httpGets (trace w') = httpGets (trace w) ++ [URI v].
Proof.
  intros Hidx Hst _ Hnone Hparse r w' Hrun.
  assert (∃ r1 w1, downloadSegment_body E outPath v w = (r1, w1)
            ∧ httpGets (trace w1) = httpGets (trace w) ++ [URI v])
    as (r1 & w1 & Hbody & Htr).
  { unfold downloadSegment_body. simpl. rewrite bool_decide_eq_true_2 by done.
    unfold status_Load, setMediaStatus, status_Store, storeSegment,
      bar_Increment, releaseSlot, wg_Done, wg_Add, chLimit_recv.
    unfold_m. rewrite Hst.
    rewrite bool_decide_eq_false_2 by (rewrite Hnone; by intros [? ?]).
    rewrite Hparse. simpl.
    repeat (case_match; simpl in *; simplify_eq);
      eexists _, _; (split; [reflexivity|]); simpl;
      rewrite ?httpGets_app; simpl; by rewrite ?app_nil_r. }
  destruct (deferred_frame _ _ _ _ Hbody _ _ Hrun) as (_ & _ & ->). done.
Qed.

End Fetch.

(** ** The resolver *)

Section Resolver.
Context (E : Env).

(** catchException after a recovered panic: the message is printed and
    the checkpoint written; the trace grows by the message only. *)
Lemma catchException_trace (e : option string) (w : World) r w' :
  catchException E e w = (r, w') →
  trace w' = trace w ++ match e with
                        | Some msg => [EvPrintln ("error msg: " +:+ msg)]
                        | None => []
                        end
  ∧ dlc w' = dlc w ∧ dlcClosed w' = dlcClosed w.
Proof.
  unfold catchException. unfold_m. destruct e as [msg|]; simpl; intros H;
    destruct (writeJsonFile_frame _ _ _ _ H) as (_ & _ & -> & -> & -> & _);
    simpl; by rewrite ?app_nil_r.
Qed.

(** C5, as the code has it.  When the request for the manifest fails,
    the resolver logs the error, sleeps three seconds and then reads the
    body of the nil response: the call panics.  The manifest is requested
    once, nothing is decoded and nothing is sent. *)
Theorem manifest_error_is_not_retried (fuel : nat) (urlStr msg : string) (w : World) :
  url_Parse E urlStr = None →
  http_Do E urlStr = HttpErr msg →
  ∀ r w', getPlaylist E (S fuel) urlStr w = (r, w') →
    trace w' = trace w ++ [EvHttpGet urlStr; EvLog msg; EvSleep 3000000000;
                           EvPrintln ("error msg: " +:+ nil_deref)]
    ∧ httpGets (trace w') = httpGets (trace w) ++ [urlStr]
    ∧ dlc w' = dlc w ∧ dlcClosed w' = dlcClosed w.
Proof.
  intros Hparse Hhttp r w'. simpl. unfold deferred. rewrite Hparse, Hhttp.
  unfold_m. simpl. intros H.
  destruct (catchException_trace _ _ _ _ H) as (Htr & Hd & Hc).
  simpl in *. rewrite Htr, Hd, Hc, <- !app_assoc. simpl.
  repeat split. rewrite httpGets_app. simpl. done.
Qed.

(** *** Rendition selection *)

Lemma maxVariant_foldl (vs : list Variant) :
  maxVariant vs = foldl pickVariant ("", 0%N) vs.
Proof. done. Qed.

Lemma pickVariant_keeps (vs : list Variant) : ∀ uri bw,
  Forall (λ v, (Bandwidth v ≤ bw)%N) vs →
  foldl pickVariant (uri, bw) vs = (uri, bw).
Proof.
  induction vs as [|v vs IH]; intros uri bw Hall; [done|].
  inversion Hall as [|? ? Hv Hvs]; subst. simpl.
  destruct (N.ltb_spec bw (Bandwidth v)); [lia|]. by apply IH.
Qed.

Lemma pickVariant_below (vs : list Variant) : ∀ uri bw,
  Forall (λ v, (Bandwidth v < bw)%N) vs →
  foldl pickVariant (uri, bw) vs = (uri, bw).
Proof.
  intros uri bw Hall. apply pickVariant_keeps.
  eapply Forall_impl; [exact Hall|]. simpl. lia.
Qed.

(** With a rendition of non-zero bandwidth, the loop ends on the first
    rendition of greatest bandwidth. *)
Lemma maxVariant_first_max (pre post : list Variant) (v : Variant) :
  (0 < Bandwidth v)%N →
  Forall (λ u, (Bandwidth u < Bandwidth v)%N) pre →
  Forall (λ u, (Bandwidth u ≤ Bandwidth v)%N) post →
  maxVariant (pre ++ v :: post) = (var_URI v, Bandwidth v).
Proof.
  intros Hpos Hpre Hpost. rewrite maxVariant_foldl, foldl_app.
  assert (∃ uri bw, foldl pickVariant ("", 0%N) pre = (uri, bw)
                    ∧ (bw < Bandwidth v)%N) as (uri & bw & -> & Hbw).
  { clear Hpost. revert Hpre. generalize ("" : string).
    assert (0 < Bandwidth v)%N as Hz by done. revert Hz.
    generalize 0%N. induction pre as [|u pre IH]; intros bw Hz uri Hpre.
    - by exists uri, bw.
    - inversion Hpre as [|? ? Hu Hrest]; subst. simpl.
      destruct (bw <? Bandwidth u)%N; by apply IH. }
  simpl. destruct (N.ltb_spec bw (Bandwidth v)); [|lia].
  by apply pickVariant_keeps.
Qed.

(** C9, as the code has it.  The maximum starts at zero and only a
    strictly greater bandwidth replaces it: when no rendition declares a
    bandwidth above zero, none is selected and masterURI stays empty. *)
Theorem zero_bandwidth_selects_nothing (vs : list Variant) :
  Forall (λ v, Bandwidth v = 0%N) vs →
  maxVariant vs = ("", 0%N).
Proof.
  intros Hall. rewrite maxVariant_foldl. apply pickVariant_keeps.
  eapply Forall_impl; [exact Hall|]. simpl. lia.
Qed.

(** *** A pass over a segment manifest *)

Lemma quiet_trans w1 w2 w3 : quiet w1 w2 → quiet w2 w3 → quiet w1 w3.
Proof. intros [? ?] [? ?]. split; congruence. Qed.

Lemma Quiet_ret {A} (a : A) : Quiet (ret a).
Proof. intros w r w' H. unfold_m. by simplify_eq. Qed.

Lemma Quiet_bind {A B} (m : M A) (k : A → M B) :
  Quiet m → (∀ a, Quiet (k a)) → Quiet (bind m k).
Proof.
  intros Hm Hk w r w'. unfold bind. destruct (m w) as [r1 w1] eqn:Hmw.
  destruct (Hm _ _ _ Hmw) as [Hq Hr].
  destruct r1; try (intros ?; by simplify_eq).
  intros H. destruct (Hk _ _ _ _ H) as [Hq' Hr'].
  split; [|done]. by eapply quiet_trans.
Qed.

Lemma Quiet_get : Quiet get.
Proof. intros w r w' H. unfold_m. by simplify_eq. Qed.

Lemma Quiet_panic {A} msg : Quiet (panic (A:=A) msg).
Proof. intros w r w' H. unfold_m. by simplify_eq. Qed.

Lemma Quiet_modify (f : World → World) :
  (∀ w, quiet w (f w)) → Quiet (modify f).
Proof. intros Hf w r w' H. unfold_m. simplify_eq. split; [apply Hf|done]. Qed.

Lemma quiet_emit e w :
  (∀ u, e ≠ EvHttpGet u) → quiet w (emit e w).
Proof.
  intros He. split; [|done]. simpl. rewrite httpGets_app. simpl.
  destruct e; simpl; rewrite ?app_nil_r; try done. by destruct (He uri).
Qed.

Lemma Quiet_log_Print s : Quiet (log_Print s).
Proof. apply Quiet_modify. intros w. by apply quiet_emit. Qed.

Lemma Quiet_log_Panic {A} s : Quiet (log_Panic (A:=A) s).
Proof.
  apply Quiet_bind; [apply Quiet_log_Print|]. intros _. apply Quiet_panic.
Qed.

Lemma Quiet_status_Store k b : Quiet (status_Store k b).
Proof.
  apply Quiet_bind; [apply Quiet_get|]. intros w.
  destruct (status _); [|apply Quiet_panic]. by apply Quiet_modify.
Qed.

Lemma Quiet_dlc_send d : Quiet (dlc_send d).
Proof.
  intros w r w'. unfold dlc_send. unfold_m.
  destruct (dlcClosed w) eqn:Hc; intros H; simplify_eq; [done|].
  split; [|done]. split; simpl; [|done].
  rewrite httpGets_app. simpl. by rewrite app_nil_r.
Qed.

Lemma Quiet_getAbsoluteUri u p : Quiet (getAbsoluteUri E u p).
Proof.
  unfold getAbsoluteUri. apply Quiet_bind.
  - destruct (negb _); [|apply Quiet_ret].
    destruct (url_Resolve _ _ _); [apply Quiet_panic|apply Quiet_ret].
  - intros a. destruct (url_QueryUnescape _ _); [apply Quiet_log_Panic|apply Quiet_ret].
Qed.

Lemma Quiet_getFilePath u p : Quiet (getFilePath E u p).
Proof.
  unfold getFilePath. apply Quiet_bind; [apply Quiet_getAbsoluteUri|].
  intros a. apply Quiet_ret.
Qed.

Lemma Quiet_recordSegments p segs : Quiet (recordSegments E p segs).
Proof.
  induction segs as [|vv segs IH]; simpl; [apply Quiet_ret|].
  apply Quiet_bind; [|by intros _].
  destruct vv as [seg|]; [|apply Quiet_ret].
  apply Quiet_bind; [apply Quiet_get|]. intros w.
  apply Quiet_bind.
  { destruct (bool_decide _); [|apply Quiet_ret].
    apply Quiet_bind; [apply Quiet_getFilePath|]. intros a. by apply Quiet_modify. }
  intros _. apply Quiet_bind; [apply Quiet_status_Store|].
  intros _. by apply Quiet_modify.
Qed.

Lemma Quiet_enqueueSegments p segs : ∀ cache,
  Quiet (enqueueSegments E p cache segs).
Proof.
  induction segs as [|v segs IH]; intros cache; simpl; [apply Quiet_ret|].
  destruct v as [seg|]; [|apply IH].
  apply Quiet_bind; [apply Quiet_getAbsoluteUri|]. intros msURI.
  destruct (lru.Get msURI cache) as [hit cache'].
  destruct hit; simpl; [apply IH|].
  apply Quiet_bind; [apply Quiet_dlc_send|]. intros _. apply IH.
Qed.

(** C4, as the code has it.  For a manifest that is not closed the
    resolver makes its one pass, sleeps, and returns: the manifest is
    requested once, whatever the recursion bound, and dlc is left open. *)
Theorem live_manifest_is_fetched_once (fuel : nat) (urlStr : string) (w : World)
    (code : Z) (body : list byte) (mpl : MediaPlaylist) :
  url_Parse E urlStr = None →
  http_Do E urlStr = HttpResp code body →
  m3u8_DecodeFrom E body = MEDIA mpl →
  Closed mpl = false →
  ∀ r w', getPlaylist E (S fuel) urlStr w = (r, w') →
    httpGets (trace w') = httpGets (trace w) ++ [urlStr]
    ∧ dlcClosed w' = dlcClosed w
    ∧ r ≠ OutOfFuel.
Proof.
  intros Hparse Hhttp Hdec Hlive r w'. simpl. unfold deferred.
  rewrite Hparse, Hhttp, Hdec, Hlive.
  set (pass := bind (modify (set_process (with_status (Some ∅)))) _).
  assert (Quiet pass) as Hpass.
  { apply Quiet_bind; [by apply Quiet_modify|]. intros _.
    apply Quiet_bind; [apply Quiet_recordSegments|]. intros _.
    apply Quiet_bind; [apply Quiet_get|]. intros w1.
    apply Quiet_bind; [by apply Quiet_modify|]. intros _.
    apply Quiet_bind; [apply Quiet_enqueueSegments|]. intros _.
    apply Quiet_modify. intros w2. by apply quiet_emit. }
  unfold bind at 1. unfold modify at 1.
  destruct (pass (emit (EvHttpGet urlStr) w)) as [r1 w1] eqn:Hrun.
  destruct (Hpass _ _ _ Hrun) as [[Hg Hc] Hr1]. simpl in Hg, Hc.
  rewrite httpGets_app in Hg. simpl in Hg.
  assert (∀ e, catchException E e w1 = (r, w') →
            httpGets (trace w') = httpGets (trace w) ++ [urlStr]
            ∧ dlcClosed w' = dlcClosed w ∧ r ≠ OutOfFuel) as Hcatch.
  { intros e H. destruct (catchException_trace _ _ _ _ H) as (Ht & _ & Hcl).
    rewrite Ht, httpGets_app, Hg, Hcl, Hc. split; [|split; [done|]].
    - destruct e; simpl; by rewrite app_nil_r.
    - revert H. unfold catchException, writeJsonFile. unfold_m.
      repeat (case_match; simpl in *; simplify_eq); intros ?; by simplify_eq. }
  destruct r1 as [[]|e| | |]; eauto; try done;
    intros ?; simplify_eq; by rewrite Hg, Hc.
Qed.


(** *** Resuming from a checkpoint *)

Lemma sends_app (l1 l2 : list Event) : sends (l1 ++ l2) = sends l1 ++ sends l2.
Proof. apply omap_app. Qed.

Lemma continueLoop_run (l : list (string * bool)) : ∀ w st b,
  status (downloadProcess w) = Some st →
  bar w = Some b →
  dlcClosed w = false →
  ∃ w', continueLoop l w = (Ok tt, w')
        ∧ trace w' = trace w ++ ((EvSend ∘ descriptor w) <$> pending l)
        ∧ bar w' = Some (mkBar (total b) (current b + completed l) (finished b))
        ∧ dlcClosed w' = false
        ∧ is_Some (status (downloadProcess w'))
        ∧ Path (downloadProcess w') = Path (downloadProcess w)
        ∧ MediaList (downloadProcess w') = MediaList (downloadProcess w)
        ∧ locked (downloadProcess w') = locked (downloadProcess w).
Proof.
  induction l as [|[key value] l IH]; intros w st b Hst Hbar Hopen.
  - exists w. simpl. rewrite app_nil_r. unfold completed. simpl.
    rewrite Nat.add_0_r. destruct b. simpl. by eauto 10.
  - simpl. unfold status_Store, dlc_send, bar_Increment. unfold_m.
    destruct value; simpl; rewrite Hst; simpl.
    + rewrite Hbar. simpl.
      edestruct (IH (set_bar (Some (mkBar (total b) (S (current b)) (finished b)))
                      (set_process (with_status (Some (<[key:=true]> st))) w)))
        as (w' & Hrun & Htr & Hb & Hc & Hs & Hp & Hm & Hl); [done..|].
      exists w'. split; [exact Hrun|]. simpl in *.
      unfold pending, completed in *. rewrite !filter_cons. simpl.
      rewrite Htr, Hb. simpl. repeat split; try done.
      do 2 f_equal. lia.
    + rewrite Hopen. simpl.
      edestruct (IH (emit (EvSend (descriptor w key))
                      (set_dlc (dlc w ++ [descriptor w key]) false
                        (set_process (with_status (Some (<[key:=false]> st))) w))))
        as (w' & Hrun & Htr & Hb & Hc & Hs & Hp & Hm & Hl); [done..|].
      exists w'. split; [exact Hrun|]. simpl in *.
      unfold pending, completed in *. rewrite !filter_cons. simpl.
      rewrite Htr, Hb. simpl. rewrite <- app_assoc. by repeat split.
Qed.

(** The run of getContinuePlaylist over the entries [l] that its range
    visits. *)
Lemma getContinuePlaylist_run (w : World) :
  dlcClosed w = false →
  locked (downloadProcess w) = false →
  let l := match MediaStatus (downloadProcess w) with
           | None => []
           | Some m => map_range E m
           end in
  ∃ w', getContinuePlaylist E w = (Ok tt, w')
        ∧ trace w' = trace w ++ ((EvSend ∘ descriptor w) <$> pending l) ++ [EvClose]
        ∧ bar w' = Some (mkBar (length (MediaList (downloadProcess w))) (completed l) false)
        ∧ dlcClosed w' = true
        ∧ MediaList (downloadProcess w') = MediaList (downloadProcess w).
Proof.
  intros Hopen Hl l. unfold getContinuePlaylist, deferred.
  unfold bind at 1. unfold get at 1. unfold bind at 1. unfold bar_StartNew.
  unfold modify at 1. unfold bind at 1. unfold modify at 1. unfold bind at 1.
  simpl. fold l.
  edestruct (continueLoop_run l
               (set_process (with_status (Some ∅))
                  (set_bar (Some (mkBar (length (MediaList (downloadProcess w))) 0 false)) w)))
    as (w1 & -> & Htr & Hb & Hc & Hs & Hp & Hm & Hl1); [done..|].
  unfold dlc_close. unfold_m. rewrite Hc. simpl.
  unfold catchException. unfold_m.
  edestruct (writeJsonFile_returns E (emit EvClose (set_dlc (dlc w1) true w1)))
    as (w' & Hw & _); [simpl; by rewrite Hl1|done|].
  rewrite Hw. exists w'. split; [done|].
  destruct (writeJsonFile_frame _ _ _ _ Hw) as (_ & _ & -> & _ & -> & -> & _ & ->).
  simpl in *. rewrite Htr, Hb, Hm, <- app_assoc. repeat split; try done.
Qed.

End Resolver.

(** ** Start, resume and exit *)

Section Lifecycle.
Context (E : Env).

Lemma printFlags_run (w : World) : printFlags E w = (Ok tt, announced E w).
Proof. done. Qed.

Lemma load_returns (name : string) (w : World) :
  load E name w = (Ok tt, snd (load E name w)).
Proof.
  unfold load. unfold_m. destruct (files w !! name) as [f|]; [|done].
  destruct (negb (readable f)); [done|]. by destruct (json_Unmarshal _ _ _).
Qed.



(** With a checkpoint file, the state is loaded and MediaList decides. *)
Lemma downloadFunc_with_checkpoint (fuel : nat) (w : World) :
  validFlags E →
  is_Some (files w !! indexName E) →
  let w2 := snd (load E (indexName E) (announced E w)) in
  downloadFunc E fuel w
  = deferred E ((if (0 <? length (MediaList (downloadProcess w2)))%nat
                 then go (getContinuePlaylist E) >> downloadSegmentLimit E (outPath E)
                 else go (getPlaylist E fuel (m3u8Url E)) >>
                      downloadSegmentLimit E (outPath E)) >> finishRun E) w2.
Proof.
  intros (Hu & Ho & Hp & Hs) Hf w2. unfold downloadFunc.
  rewrite !bool_decide_eq_false_2 by done. rewrite Hp, Hs. simpl.
  unfold bind at 1. rewrite printFlags_run. unfold deferred.
  unfold bind at 1. unfold os_Stat, bind at 1, get at 1, ret at 1.
  assert (is_Some (files (announced E w) !! indexName E)) as Hf' by done.
  rewrite (bool_decide_eq_true_2 _ Hf'). simpl.
  unfold bind at 1. unfold bind at 1. rewrite load_returns. fold w2.
  unfold bind at 1. unfold get at 1. done.
Qed.

Lemma pending_Permutation (l l' : list (string * bool)) :
  l ≡ₚ l' → pending l ≡ₚ pending l'.
Proof. intros H. unfold pending. by rewrite H. Qed.

Lemma completed_Permutation (l l' : list (string * bool)) :
  l ≡ₚ l' → completed l = completed l'.
Proof. intros H. unfold completed. by rewrite H. Qed.

Lemma elem_of_pending (ms : gmap string bool) (n : string) :
  n ∈ pending (map_to_list ms) ↔ ms !! n = Some false.
Proof.
  unfold pending. rewrite list_elem_of_fmap. split.
  - intros ([k b] & -> & [Hb Hin]%list_elem_of_filter). simpl in *. subst.
    by apply elem_of_map_to_list.
  - intros H. exists (n, false). split; [done|].
    apply list_elem_of_filter. split; [done|]. by apply elem_of_map_to_list.
Qed.

(** When the keys of MediaStatus are the names of a MediaList without
    duplicates, the pending names are the entries of MediaList recorded
    as not complete. *)
Lemma pending_of_MediaList (ms : gmap string bool) (ml : list string) :
  NoDup ml → dom ms = list_to_set ml →
  pending (map_to_list ms) ≡ₚ filter (λ n, ms !! n = Some false) ml.
Proof.
  intros Hnd Hdom. apply NoDup_Permutation.
  - unfold pending. eapply sublist_NoDup; [apply (NoDup_fst_map_to_list ms)|].
    apply fmap_sublist, sublist_filter.
  - by apply NoDup_filter.
  - intros n. rewrite elem_of_pending, list_elem_of_filter. split; [|tauto].
    intros H. split; [done|].
    assert (n ∈ dom ms) as Hn by (apply elem_of_dom; eauto).
    rewrite Hdom in Hn. by apply elem_of_list_to_set in Hn.
Qed.

Lemma sends_of_descriptors (d : string → Download) (l : list string) :
  sends ((EvSend ∘ d) <$> l) = d <$> l.
Proof. induction l as [|x l IH]; [done|]. cbn. by f_equal. Qed.

Lemma httpGets_of_descriptors (d : string → Download) (l : list string) :
  httpGets ((EvSend ∘ d) <$> l) = [].
Proof. induction l as [|x l IH]; [done|]. cbn. exact IH. Qed.

(** C8, as the code has it.  With a checkpoint file present, the loaded
    MediaList decides: when it is not empty the producer is
    getContinuePlaylist, otherwise the manifest is resolved as on a first
    run.  getContinuePlaylist requests nothing; it ranges over
    MediaStatus, sends one descriptor (Path followed by the name) for each
    entry whose value is false, counts each entry whose value is true on
    the progress bar, and closes dlc, as long as dlc, which holds 1024
    items, has room for the descriptors: a send on a full dlc waits for
    the pool.  The entries are those of MediaList recorded as not complete
    when the keys of MediaStatus are exactly the names of a MediaList
    without duplicates. *)
Theorem resume_sends_pending_status_entries (fuel : nat) (w : World) :
  validFlags E →
  is_Some (files w !! indexName E) →
  (∀ m, map_range E m ≡ₚ map_to_list m) →
  let w2 := snd (load E (indexName E) (announced E w)) in
  let ms := default ∅ (MediaStatus (downloadProcess w2)) in
  let ml := MediaList (downloadProcess w2) in
  (ml ≠ [] →
     downloadFunc E fuel w
     = deferred E ((go (getContinuePlaylist E) >> downloadSegmentLimit E (outPath E))
                   >> finishRun E) w2)
  ∧ (ml = [] →
     downloadFunc E fuel w
     = deferred E ((go (getPlaylist E fuel (m3u8Url E)) >>
                    downloadSegmentLimit E (outPath E)) >> finishRun E) w2)
  ∧ (dlcClosed w2 = false → locked (downloadProcess w2) = false →
     (length (dlc w2) + length (pending (map_to_list ms)) ≤ 1024)%nat →
     ∃ w3, getContinuePlaylist E w2 = (Ok tt, w3)
           ∧ httpGets (trace w3) = httpGets (trace w2)
           ∧ sends (trace w3)
             ≡ₚ sends (trace w2) ++ (descriptor w2 <$> pending (map_to_list ms))
           ∧ last (trace w3) = Some EvClose
           ∧ dlcClosed w3 = true
           ∧ bar w3 = Some (mkBar (length ml) (completed (map_to_list ms)) false))
  ∧ (NoDup ml → dom ms = list_to_set ml →
     pending (map_to_list ms) ≡ₚ filter (λ n, ms !! n = Some false) ml).
Proof.
  intros Hflags Hfile Hrange w2 ms ml.
  pose proof (downloadFunc_with_checkpoint fuel w Hflags Hfile) as Hrun.
  simpl in Hrun. fold w2 in Hrun. fold ml in Hrun.
  split; [|split; [|split]].
  - intros Hne. rewrite Hrun. destruct ml; [done|]. done.
  - intros Hnil. rewrite Hrun, Hnil. done.
  - intros Hopen Hlock _.
    destruct (getContinuePlaylist_run E w2 Hopen Hlock)
      as (w3 & Hgo & Htr & Hbar & Hcl & _).
    set (l := match MediaStatus (downloadProcess w2) with
              | None => []
              | Some m => map_range E m
              end) in *.
    assert (l ≡ₚ map_to_list ms) as Hl.
    { unfold l, ms. destruct (MediaStatus _); simpl; [apply Hrange|].
      by rewrite map_to_list_empty. }
    exists w3. split; [done|]. rewrite Htr.
    rewrite !httpGets_app, !sends_app, httpGets_of_descriptors,
      sends_of_descriptors. simpl. rewrite !app_nil_r.
    repeat split; try done.
    + by rewrite (pending_Permutation _ _ Hl).
    + by rewrite app_assoc, last_snoc.
    + rewrite Hbar. by rewrite (completed_Permutation _ _ Hl).
  - apply pending_of_MediaList.
Qed.

(** C10, as the code has it.  load reports nothing.  A checkpoint file
    that cannot be read, or that the decoder turns down without storing
    anything in the target, leaves the state as it was; with MediaList
    still empty the run resolves the manifest as on a first run. *)
Theorem unusable_checkpoint_starts_afresh (fuel : nat) (w : World) (f : File) :
  validFlags E →
  files w !! indexName E = Some f →
  readable f = false
  ∨ fst (json_Unmarshal E (content f) (downloadProcess w)) = downloadProcess w →
  MediaList (downloadProcess w) = [] →
  let w2 := snd (load E (indexName E) (announced E w)) in
  downloadProcess w2 = downloadProcess w
  ∧ trace w2 = trace (announced E w)
  ∧ downloadFunc E fuel w
    = deferred E ((go (getPlaylist E fuel (m3u8Url E)) >>
                   downloadSegmentLimit E (outPath E)) >> finishRun E) w2.
Proof.
  intros Hflags Hf Hbad Hml w2.
  assert (downloadProcess w2 = downloadProcess w ∧ trace w2 = trace (announced E w))
    as [Hdp Htr].
  { unfold w2, load. unfold_m.
    assert (files (announced E w) !! indexName E = Some f) as -> by done.
    destruct Hbad as [->|Hsame]; [done|].
    destruct (readable f); [|done]. simpl.
    change (downloadProcess (announced E w)) with (downloadProcess w).
    destruct (json_Unmarshal E (content f) (downloadProcess w)) as [v err].
    simpl in *. subst v. split; [|done]. by destruct (downloadProcess w). }
  split; [done|]. split; [done|].
  rewrite (downloadFunc_with_checkpoint fuel w Hflags) by eauto.
  fold w2. by rewrite Hdp, Hml.
Qed.

(** *** Exit status *)






End Lifecycle.

(** ** Runs on the sample inputs *)

Section Runs.
Import Sample.

(** *** Names and paths *)

Example LastIndex_of_uri : LastIndex "http://h/v/a.ts" "/" = 10.
Proof. reflexivity. Qed.

Example LastIndex_without_slash : LastIndex "a.ts" "/" = -1.
Proof. reflexivity. Qed.

Example getFileName_of_uri :
  (getFileName "http://h/v/a.ts", getFileName "a.ts", getFileName "http://h/v/")
  = ("a.ts", "a.ts", "").
Proof. reflexivity. Qed.

Example getFilePath_of_relative_uri :
  fst (getFilePath E_closed "a.ts" "http://h/v/index.m3u8" (start ∅ ∅))
  = Ok "http://h/v/".
Proof. reflexivity. Qed.

(** *** The fetch task *)

(** A request that cannot connect: the task returns with its token still
    in chLimit and the WaitGroup still counting it. *)
Lemma fetch_return_keeps_slot_witness :
  ∃ w', downloadSegment E_closed "out" (mkDownload "http://h/v/zzz.ts") (running ∅)
        = (Ok tt, w')
        ∧ wg w' = 1 ∧ chLimit w' = 1%nat
        ∧ ¬ released (running ∅) w'.
Proof.
  apply (fetch_return_keeps_slot E_closed "out" (mkDownload "http://h/v/zzz.ts")
           (running ∅) ∅).
  - by vm_compute.
  - reflexivity.
  - reflexivity.
  - right. split; [reflexivity|]. split; [reflexivity|]. left.
    by exists "dial tcp: connection refused".
Defined.

(** The same after a 404, and the release after a download that succeeds. *)
Example fetch_not_found_keeps_slot :
  let w' := snd (downloadSegment E_closed "out" (mkDownload "http://h/v/c.ts") (running ∅)) in
  (wg w', chLimit w') = (1, 1%nat).
Proof. by vm_compute. Qed.

Example fetch_success_releases :
  let w' := snd (downloadSegment E_closed "out" (mkDownload "http://h/v/a.ts") (running ∅)) in
  (wg w', chLimit w') = (0, 0%nat).
Proof. by vm_compute. Qed.

(** A run over three segments of which one is not found: the pool waits
    on the WaitGroup for ever and the run never reaches the merge. *)
Example pool_waits_for_failed_task :
  fst (downloadFunc E_three 3 (start ∅ ∅)) = Block.
Proof. by vm_compute. Qed.

(** a.ts is recorded as complete, and is requested again. *)
Lemma fetch_repeats_completed_segment_witness :
  httpGets (trace (snd (downloadSegment E_closed "out" (mkDownload "http://h/v/a.ts")
                          (running {["a.ts" := true]}))))
  = ["http://h/v/a.ts"].
Proof.
  apply (fetch_repeats_completed_segment E_closed "out" (mkDownload "http://h/v/a.ts")
           (running {["a.ts" := true]}) {["a.ts" := true]}
           ltac:(by vm_compute) eq_refl ltac:(by vm_compute) ltac:(by vm_compute) eq_refl
           _ _ (surjective_pairing _)).
Defined.

(** A URI without a slash is never requested: the task only releases. *)
Example fetch_without_slash_requests_nothing :
  let w' := snd (downloadSegment E_closed "out" (mkDownload "http.ts") (running ∅)) in
  (httpGets (trace w'), wg w', chLimit w') = ([], 0, 0%nat).
Proof. by vm_compute. Qed.

(** *** Merge *)

(** b.ts completes before a.ts, beside the merged file of an earlier
    run; the merged file has a.ts first and nothing of the earlier one. *)
Lemma merge_in_segment_order_witness :
  let w0 := set_process (with_MediaList ["a.ts"; "b.ts"])
              (start {["out.ts" := mkFile (bytes "old") true]} {["."; "out"]}) in
  let done := [("b.ts", bytes "BB"); ("a.ts", bytes "AAA")] in
  let w := completeAll "out" done w0 in
  ∃ w', mergeMediaFile "out" w = (Ok tt, w')
        ∧ artifact "out" w'
          = Some (concat (map (segmentBytes "out" w) (MediaList (downloadProcess w))))
        ∧ trace w' = trace w
        ∧ ∀ done', done ≡ₚ done' → NoDup done.*1 →
            artifact "out" (snd (mergeMediaFile "out" (completeAll "out" done' w0)))
            = artifact "out" w'.
Proof.
  apply (merge_in_segment_order "out"
           (set_process (with_MediaList ["a.ts"; "b.ts"])
              (start {["out.ts" := mkFile (bytes "old") true]} {["."; "out"]}))
           [("b.ts", bytes "BB"); ("a.ts", bytes "AAA")]).
  - split; [by apply (bool_decide_unpack _); vm_compute|].
    split; [by vm_compute|]. split; [split; by vm_compute|].
    intros f Hf. vm_compute in Hf. by injection Hf as <-.
  - by repeat constructor.
  - by apply (bool_decide_unpack _); vm_compute.
Defined.

Example merge_replaces_stale_file :
  let w0 := set_process (with_MediaList ["a.ts"; "b.ts"])
              (start {["out.ts" := mkFile (bytes "old") true]} {["out"]}) in
  let w := completeAll "out" [("b.ts", bytes "BB"); ("a.ts", bytes "AAA")] w0 in
  artifact "out" (snd (mergeMediaFile "out" w)) = Some (bytes "AAA" ++ bytes "BB").
Proof. by vm_compute. Qed.

(** A merged file that cannot be removed is appended to. *)
Example merge_onto_pinned_file :
  let w0 := set_process (with_MediaList ["a.ts"])
              (start {["out.ts" := MkFile (bytes "old") true true true;
                       "out/a.ts" := mkFile (bytes "AAA") true]} {["out"]}) in
  let w' := snd (mergeMediaFile "out" w0) in
  (trace w', artifact "out" w')
  = ([EvPrintln "remove file out.ts failed. "], Some (bytes "old" ++ bytes "AAA")).
Proof. by vm_compute. Qed.

(** The specification's test: segmentOrder A, B, C, completing in the
    order C, A, B. *)
Example merge_order_of_three :
  let w0 := set_process (with_MediaList ["A"; "B"; "C"]) (start ∅ {["out"]}) in
  let w := completeAll "out" [("C", bytes "cc"); ("A", bytes "a"); ("B", bytes "bbb")] w0 in
  artifact "out" (snd (mergeMediaFile "out" w)) = Some (bytes "a" ++ bytes "bbb" ++ bytes "cc").
Proof. by vm_compute. Qed.

(** b.ts was never stored: the merge prints the error of opening it
    and leaves a merged file holding a.ts only. *)
Lemma merge_aborts_on_missing_segment_witness :
  let w := set_dirs (λ d, d ∪ {["."]}) w_fetched in
  ∃ pre n post w',
    MediaList (downloadProcess w) = pre ++ n :: post
    ∧ Forall (λ m, is_Some (segmentFile "out" w m)) pre
    ∧ segmentFile "out" w n = None
    ∧ mergeMediaFile "out" w = (Ok tt, w')
    ∧ trace w' = trace w ++ [EvPrintln (openError "out" w n)]
    ∧ artifact "out" w' = Some (concat (map (segmentBytes "out" w) pre)).
Proof.
  apply (merge_aborts_on_missing_segment "out" (set_dirs (λ d, d ∪ {["."]}) w_fetched)).
  - split; [by apply (bool_decide_unpack _); vm_compute|].
    split; [by vm_compute|]. split; [split; by vm_compute|].
    intros f Hf. vm_compute in Hf. discriminate Hf.
  - by repeat constructor.
  - exists "b.ts". split; [|by vm_compute].
    apply list_elem_of_In. simpl. tauto.
Defined.

Example merge_abort_run :
  let w' := snd (mergeMediaFile "out" w_fetched) in
  (trace w', artifact "out" w')
  = ([EvPrintln "open out/b.ts: no such file or directory"], Some (bytes "AAA")).
Proof. by vm_compute. Qed.

(** Names in whose place there is no regular file to read: the empty
    name, which leads to the output directory itself; a directory; a file
    this process may not read; and a name under an output path that is a
    regular file. *)
Example merge_abort_on_directory :
  let w := set_process (with_MediaList [""]) (start ∅ {["out"]}) in
  trace (snd (mergeMediaFile "out" w)) = [EvPrintln "read out/: is a directory"].
Proof. by vm_compute. Qed.

Example merge_abort_on_subdirectory :
  let w := set_process (with_MediaList ["a.ts"; "sub"])
             (start {["out/a.ts" := mkFile (bytes "AAA") true]} {["out"; "out/sub"]}) in
  let w' := snd (mergeMediaFile "out" w) in
  (trace w', artifact "out" w')
  = ([EvPrintln "read out/sub: is a directory"], Some (bytes "AAA")).
Proof. by vm_compute. Qed.

Example merge_abort_on_unreadable_file :
  let w := set_process (with_MediaList ["a.ts"])
             (start {["out/a.ts" := mkFile (bytes "AAA") false]} {["out"]}) in
  trace (snd (mergeMediaFile "out" w)) = [EvPrintln "open out/a.ts: permission denied"].
Proof. by vm_compute. Qed.

Example merge_abort_under_file :
  let w := set_process (with_MediaList ["a.ts"])
             (start {["out" := mkFile (bytes "x") true]} ∅) in
  trace (snd (mergeMediaFile "out" w)) = [EvPrintln "open out/a.ts: not a directory"].
Proof. by vm_compute. Qed.

(** *** The resolver *)

(** A live manifest: one request, one sleep of the target duration, and
    the call returns with dlc open. *)
Lemma live_manifest_is_fetched_once_witness :
  let run := getPlaylist E_live 3 "http://h/v/index.m3u8" (start ∅ ∅) in
  httpGets (trace (snd run)) = httpGets (trace (start ∅ ∅)) ++ ["http://h/v/index.m3u8"]
  ∧ dlcClosed (snd run) = dlcClosed (start ∅ ∅)
  ∧ fst run ≠ OutOfFuel.
Proof.
  apply (live_manifest_is_fetched_once E_live 2 "http://h/v/index.m3u8" (start ∅ ∅)
           200 (bytes "#EXTM3U") (mkMedia [Some (mkSegment "a.ts"); None] false 10)
           eq_refl eq_refl eq_refl eq_refl _ _ (surjective_pairing _)).
Defined.

Example live_manifest_run :
  let run := getPlaylist E_live 3 "http://h/v/index.m3u8" (start ∅ ∅) in
  (fst run, trace (snd run), dlcClosed (snd run))
  = (Ok tt,
     [EvHttpGet "http://h/v/index.m3u8"; EvSend (mkDownload "http://h/v/a.ts");
      EvSleep 10000000000],
     false).
Proof. by vm_compute. Qed.

(** A closed manifest: the segments are sent and dlc is closed. *)
Example closed_manifest_run :
  let run := getPlaylist E_closed 3 "http://h/v/index.m3u8" (start ∅ ∅) in
  (fst run, trace (snd run), dlcClosed (snd run))
  = (Ok tt,
     [EvHttpGet "http://h/v/index.m3u8"; EvSend (mkDownload "http://h/v/a.ts");
      EvSend (mkDownload "http://h/v/b.ts"); EvClose],
     true).
Proof. by vm_compute. Qed.

(** With a live manifest the pool never sees dlc closed. *)
Example live_run_never_ends :
  fst (downloadFunc E_live 3 (start ∅ ∅)) = Block.
Proof. by vm_compute. Qed.

(** The manifest cannot be reached. *)
Lemma manifest_error_is_not_retried_witness :
  let run := getPlaylist E_closed 3 "http://down/index.m3u8" (start ∅ ∅) in
  trace (snd run)
  = trace (start ∅ ∅)
    ++ [EvHttpGet "http://down/index.m3u8"; EvLog "dial tcp: connection refused";
        EvSleep 3000000000; EvPrintln ("error msg: " +:+ nil_deref)]
  ∧ httpGets (trace (snd run)) = httpGets (trace (start ∅ ∅)) ++ ["http://down/index.m3u8"]
  ∧ dlc (snd run) = dlc (start ∅ ∅)
  ∧ dlcClosed (snd run) = dlcClosed (start ∅ ∅).
Proof.
  apply (manifest_error_is_not_retried E_closed 2 "http://down/index.m3u8"
           "dial tcp: connection refused" (start ∅ ∅) eq_refl eq_refl
           _ _ (surjective_pairing _)).
Defined.

(** The panic of the resolver meets a nil status map in the deferred
    writeJsonFile and leaves the goroutine: the process ends with
    status 2. *)
Example unreachable_manifest_crashes :
  exitStatus (fst (downloadFunc (env (λ _, HttpErr "refused") (λ _, closedManifest)
                                   noUnmarshal) 3 (start ∅ ∅)))
  = Some 2.
Proof. by vm_compute. Qed.

(** The only rendition declares bandwidth 0: its URI is not selected. *)
Lemma zero_bandwidth_selects_nothing_witness :
  maxVariant zeroMaster = ("", 0%N).
Proof.
  apply (zero_bandwidth_selects_nothing zeroMaster). by repeat constructor.
Defined.

(** The specification's test: bandwidths 500, 2000, 1200. *)
Example max_of_three_bandwidths :
  maxVariant [mkVariant "low" 500; mkVariant "high" 2000; mkVariant "mid" 1200]
  = ("high", 2000%N).
Proof. reflexivity. Qed.

(** Equal bandwidths: the first one seen stays. *)
Example first_of_equal_bandwidths :
  maxVariant [mkVariant "one" 800; mkVariant "two" 800] = ("one", 800%N).
Proof. reflexivity. Qed.

(** *** Start, resume and exit *)

(** The checkpoint lists a.ts as complete and b.ts, which MediaList does
    not name, as not complete: a descriptor is sent for b.ts. *)
Lemma resume_sends_pending_status_entries_witness :
  let w2 := snd (load E_extra (indexName E_extra) (announced E_extra w_resume)) in
  let ms := default ∅ (MediaStatus (downloadProcess w2)) in
  let ml := MediaList (downloadProcess w2) in
  (ml ≠ [] →
     downloadFunc E_extra 3 w_resume
     = deferred E_extra
         ((go (getContinuePlaylist E_extra) >> downloadSegmentLimit E_extra (outPath E_extra))
          >> finishRun E_extra) w2)
  ∧ (ml = [] →
     downloadFunc E_extra 3 w_resume
     = deferred E_extra
         ((go (getPlaylist E_extra 3 (m3u8Url E_extra)) >>
           downloadSegmentLimit E_extra (outPath E_extra)) >> finishRun E_extra) w2)
  ∧ (dlcClosed w2 = false → locked (downloadProcess w2) = false →
     (length (dlc w2) + length (pending (map_to_list ms)) ≤ 1024)%nat →
     ∃ w3, getContinuePlaylist E_extra w2 = (Ok tt, w3)
           ∧ httpGets (trace w3) = httpGets (trace w2)
           ∧ sends (trace w3)
             ≡ₚ sends (trace w2) ++ (descriptor w2 <$> pending (map_to_list ms))
           ∧ last (trace w3) = Some EvClose
           ∧ dlcClosed w3 = true
           ∧ bar w3 = Some (mkBar (length ml) (completed (map_to_list ms)) false))
  ∧ (NoDup ml → dom ms = list_to_set ml →
     pending (map_to_list ms) ≡ₚ filter (λ n, ms !! n = Some false) ml).
Proof.
  apply (resume_sends_pending_status_entries E_extra 3 w_resume).
  - repeat split; discriminate || reflexivity.
  - by apply (bool_decide_unpack _); vm_compute.
  - intros m. reflexivity.
Defined.

Example resume_run :
  let run := getContinuePlaylist E_extra w_extra in
  (fst run, trace (snd run), bar (snd run))
  = (Ok tt, [EvSend (mkDownload "http://h/v/b.ts"); EvClose], Some (mkBar 1 1 false)).
Proof. by vm_compute. Qed.

(** The claim in the specification's wording fails on that checkpoint:
    no entry of MediaList is incomplete, and one descriptor is sent. *)
Lemma resume_sends_entry_outside_order :
  ¬ resume_sends_incomplete_order_entries E_extra w_extra.
Proof.
  unfold resume_sends_incomplete_order_entries. intros H.
  apply Permutation_length in H. vm_compute in H. discriminate H.
Qed.

(** The decoder reports an error and leaves the target as it was: the
    manifest is resolved as on a first run. *)
Lemma unusable_checkpoint_starts_afresh_witness :
  let w2 := snd (load E_closed (indexName E_closed) (announced E_closed w_resume)) in
  downloadProcess w2 = downloadProcess w_resume
  ∧ trace w2 = trace (announced E_closed w_resume)
  ∧ downloadFunc E_closed 3 w_resume
    = deferred E_closed
        ((go (getPlaylist E_closed 3 (m3u8Url E_closed)) >>
          downloadSegmentLimit E_closed (outPath E_closed)) >> finishRun E_closed) w2.
Proof.
  apply (unusable_checkpoint_starts_afresh E_closed 3 w_resume (mkFile (bytes "{}") true)).
  - repeat split; discriminate || reflexivity.
  - by vm_compute.
  - right. reflexivity.
  - reflexivity.
Defined.

Example rejected_checkpoint_run :
  httpGets (trace (snd (downloadFunc E_closed 3 w_resume)))
  = ["http://h/v/index.m3u8"; "http://h/v/a.ts"; "http://h/v/b.ts"].
Proof. by vm_compute. Qed.

(** The decoder reports an error after storing MediaList: the state is
    not as it was, and the run resumes without requesting the manifest. *)
Lemma rejected_checkpoint_changes_state :
  ¬ rejected_checkpoint_leaves_state E_mismatch w_resume.
Proof.
  intros H.
  specialize (H (mkFile (bytes "{}") true) ltac:(by vm_compute) (or_intror eq_refl)).
  apply (f_equal MediaList) in H. vm_compute in H. discriminate H.
Qed.

Example partly_decoded_checkpoint_run :
  let run := downloadFunc E_mismatch 3 w_resume in
  (fst run, httpGets (trace (snd run))) = (Exit 0, []).
Proof. by vm_compute. Qed.



Example merge_abort_exit_run :
  let run := downloadFunc E_done 3 w_resume in
  (fst run, httpGets (trace (snd run)), last (trace (snd run)),
   artifact "out" (snd run))
  = (Exit 0, [], Some (EvPrintln "open out/b.ts: no such file or directory"),
     Some (bytes "AAA")).
Proof. by vm_compute. Qed.

(** The statuses other than 0: flags that are turned down. *)
Example missing_flags_exit :
  fst (downloadFunc (mkEnv 10 "" "out" (λ _, None) resolve (λ s, inr s) http
                       (λ _, closedManifest) (λ _, []) noUnmarshal (λ _, None)
                       map_to_list) 3 (start ∅ ∅))
  = Exit 1.
Proof. by vm_compute. Qed.

(** A run that meets no failure. *)
Example full_run :
  let run := downloadFunc E_closed 3 (start ∅ ∅) in
  (fst run, artifact "out" (snd run)) = (Exit 0, Some (bytes "AAABB")).
Proof. by vm_compute. Qed.

End Runs.


(** * Further properties *)

(** ** File names and base paths *)

Section Names.

#[local] Arguments String.prefix : simpl never.

Lemma take_drop (n : nat) (s : string) : take n s +:+ drop n s = s.
Proof.
  revert s. induction n as [|n IH]; intros s; [done|].
  destruct s as [|a s]; [done|]. simpl. cbv [String.append]. fold String.append.
  by rewrite IH.
Qed.

(** A result of LastIndex_from is -1 or an offset inside the string. *)
Lemma LastIndex_from_range (s sep : string) : ∀ i,
  0 ≤ i →
  LastIndex_from i s sep = -1
  ∨ i ≤ LastIndex_from i s sep ≤ i + Z.of_nat (String.length s).
Proof.
  induction s as [|a s IH]; intros i Hi; simpl.
  - case_bool_decide; [right; lia|by left].
  - destruct (IH (i + 1) ltac:(lia)) as [->|Hr].
    + simpl. destruct (String.prefix sep (String a s)); [right; lia|by left].
    + destruct (Z.eqb_spec (LastIndex_from (i + 1) s sep) (-1)); [lia|]. right. lia.
Qed.

(** Whether the separator is found does not depend on the offset counted
    from. *)
Lemma LastIndex_from_shift (s sep : string) : ∀ i j,
  0 ≤ i → 0 ≤ j →
  LastIndex_from j s sep
  = if LastIndex_from i s sep =? -1 then -1 else LastIndex_from i s sep - i + j.
Proof.
  induction s as [|a s IH]; intros i j Hi Hj; simpl.
  - case_bool_decide.
    + destruct (Z.eqb_spec i (-1)); lia.
    + done.
  - rewrite (IH (i + 1) (j + 1)) by lia.
    destruct (LastIndex_from_range s sep (i + 1) ltac:(lia)) as [Hr|Hr].
    + rewrite Hr. simpl. destruct (String.prefix sep (String a s)); simpl.
      * destruct (Z.eqb_spec i (-1)); lia.
      * done.
    + destruct (Z.eqb_spec (LastIndex_from (i + 1) s sep) (-1)); [lia|].
      destruct (Z.eqb_spec (LastIndex_from (i + 1) s sep - (i + 1) + (j + 1)) (-1)); [lia|].
      destruct (Z.eqb_spec (LastIndex_from (i + 1) s sep) (-1)); lia.
Qed.

(** No slash is found after the last one. *)
Lemma LastIndex_from_drop (s : string) : ∀ i,
  0 ≤ i →
  LastIndex_from 0 (drop (Z.to_nat (LastIndex_from i s "/" - i + 1)) s) "/" = -1.
Proof.
  induction s as [|a s IH]; intros i Hi.
  - simpl. by destruct (Z.to_nat _).
  - simpl. destruct (LastIndex_from_range s "/" (i + 1) ltac:(lia)) as [Hr|Hr].
    + rewrite Hr. simpl.
      assert (LastIndex_from 0 s "/" = -1) as H0.
      { rewrite (LastIndex_from_shift s "/" (i + 1) 0) by lia. by rewrite Hr. }
      destruct (String.prefix "/" (String a s)) eqn:Hp.
      * replace (Z.to_nat (i - i + 1)) with 1%nat by lia. done.
      * replace (Z.to_nat (-1 - i + 1)) with 0%nat by lia. simpl.
        rewrite (LastIndex_from_shift s "/" 0 (0 + 1)) by lia.
        rewrite H0. simpl. by rewrite Hp.
    + destruct (Z.eqb_spec (LastIndex_from (i + 1) s "/") (-1)); [lia|].
      replace (Z.to_nat (LastIndex_from (i + 1) s "/" - i + 1))
        with (S (Z.to_nat (LastIndex_from (i + 1) s "/" - (i + 1) + 1))) by lia.
      simpl. apply IH. lia.
Qed.

(** The text up to the index found ends in the slash. *)
Lemma LastIndex_from_take (s : string) : ∀ i,
  0 ≤ i → LastIndex_from i s "/" ≠ -1 →
  ∃ p, take (Z.to_nat (LastIndex_from i s "/" - i + 1)) s = p +:+ "/".
Proof.
  induction s as [|a s IH]; intros i Hi Hne.
  - simpl in Hne. done.
  - simpl in *. destruct (LastIndex_from_range s "/" (i + 1) ltac:(lia)) as [Hr|Hr].
    + rewrite Hr in *. simpl in *.
      destruct (String.prefix "/" (String a s)) eqn:Hp; [|done].
      replace (Z.to_nat (i - i + 1)) with 1%nat by lia. simpl.
      exists "". unfold String.prefix in Hp. destruct (ascii_dec "/" a); [|done].
      by subst.
    + destruct (Z.eqb_spec (LastIndex_from (i + 1) s "/") (-1)); [lia|].
      replace (Z.to_nat (LastIndex_from (i + 1) s "/" - i + 1))
        with (S (Z.to_nat (LastIndex_from (i + 1) s "/" - (i + 1) + 1))) by lia.
      simpl. destruct (IH (i + 1) ltac:(lia) ltac:(done)) as [p ->].
      by exists (String a p).
Qed.

(** X1.  getFileName cuts a URI after its last slash: the URI is the part
    up to that slash followed by the name, the name holds no slash, and
    the part before it is empty (when the URI has no slash, the name being
    the whole URI) or ends in a slash. *)
Theorem getFileName_is_last_component (uri : string) :
  uri = dirOf uri +:+ getFileName uri
  ∧ LastIndex (getFileName uri) "/" = -1
  ∧ (LastIndex uri "/" = -1 → dirOf uri = "" ∧ getFileName uri = uri)
  ∧ (LastIndex uri "/" ≠ -1 → ∃ p, dirOf uri = p +:+ "/").
Proof.
  unfold dirOf, getFileName, LastIndex. repeat split.
  - by rewrite take_drop.
  - pose proof (LastIndex_from_drop uri 0 ltac:(lia)) as H.
    by rewrite Z.sub_0_r in H.
  - by rewrite H.
  - by rewrite H.
  - intros Hne. pose proof (LastIndex_from_take uri 0 ltac:(lia) Hne) as H.
    by rewrite Z.sub_0_r in H.
Qed.

(** Two URIs in one directory have different names. *)
Lemma dirOf_getFileName_inj (u1 u2 : string) :
  dirOf u1 = dirOf u2 → getFileName u1 = getFileName u2 → u1 = u2.
Proof.
  intros Hd Hn. unfold dirOf, getFileName in *.
  rewrite <- (take_drop (Z.to_nat (LastIndex u1 "/" + 1)) u1).
  rewrite <- (take_drop (Z.to_nat (LastIndex u2 "/" + 1)) u2).
  by rewrite Hd, Hn.
Qed.

End Names.

(** ** A pass over a closed manifest *)

Section Pass.
Context (E : Env).

Lemma getAbsoluteUri_resolved (ref base u : string) (w : World) :
  resolved E base ref = Some u →
  getAbsoluteUri E ref base w = (Ok u, w).
Proof.
  unfold resolved, getAbsoluteUri. unfold_m.
  destruct (negb (HasPrefix ref "http")).
  - destruct (url_Resolve E base ref) as [err|abs]; [done|].
    destruct (url_QueryUnescape E abs); [done|]. by intros [= ->].
  - destruct (url_QueryUnescape E ref); [done|]. by intros [= ->].
Qed.

Lemma getFilePath_resolved (ref base u : string) (w : World) :
  resolved E base ref = Some u →
  getFilePath E ref base w = (Ok (dirOf u), w).
Proof.
  intros H. unfold getFilePath. unfold bind.
  by rewrite (getAbsoluteUri_resolved _ _ _ _ H).
Qed.

Lemma segmentsOf_cons_Some seg segs :
  segmentsOf (Some seg :: segs) = seg :: segmentsOf segs.
Proof. done. Qed.

Lemma segmentsOf_cons_None segs : segmentsOf (None :: segs) = segmentsOf segs.
Proof. done. Qed.

(** The first loop: every entry that is not nil has its name appended to
    MediaList and stored as not complete. *)
Lemma recordSegments_run (base : string) (segs : list (option MediaSegment)) :
  ∀ w st,
    status (downloadProcess w) = Some st →
    Forall (λ seg, is_Some (resolved E base (seg_URI seg))) (segmentsOf segs) →
    recordSegments E base segs w
    = (Ok tt, recorded (segmentNames segs) (segmentURIs E base segs) st w).
Proof.
  induction segs as [|[seg|] segs IH]; intros w st Hst Hall.
  - simpl. unfold recorded, set_process, segmentNames, segmentURIs. simpl.
    rewrite app_nil_r, <- Hst. by destruct w as [[]].
  - rewrite segmentsOf_cons_Some in Hall.
    inversion Hall as [|? ? [u Hu] Hrest]; subst.
    assert (segmentNames (Some seg :: segs)
            = getFileName (seg_URI seg) :: segmentNames segs) as -> by done.
    assert (segmentURIs E base (Some seg :: segs) = u :: segmentURIs E base segs) as ->.
    { unfold segmentURIs. rewrite segmentsOf_cons_Some. simpl. by rewrite Hu. }
    simpl. unfold bind at 1. unfold bind at 1. unfold get at 1. unfold bind at 1.
    destruct (bool_decide (Path (downloadProcess w) = "")) eqn:Hp.
    + unfold bind at 1. rewrite (getFilePath_resolved _ _ _ _ Hu).
      unfold modify at 1. unfold bind at 1. unfold status_Store. unfold_m. simpl.
      rewrite Hst. simpl.
      erewrite IH; [|done|done].
      unfold recorded, set_process. simpl. rewrite Hp, <- app_assoc. done.
    + unfold ret at 1. unfold bind at 1. unfold status_Store. unfold_m.
      rewrite Hst. simpl.
      erewrite IH; [|done|done].
      unfold recorded, set_process. simpl. rewrite Hp, <- app_assoc. done.
  - rewrite segmentsOf_cons_None in Hall. simpl. unfold bind at 1. unfold ret at 1.
    by apply IH.
Qed.

(** *** Deduplication *)

Lemma firstSeen_ext (uris : list string) : ∀ seen seen',
  (∀ u, u ∈ seen ↔ u ∈ seen') →
  firstSeen seen uris = firstSeen seen' uris.
Proof.
  induction uris as [|u uris IH]; intros seen seen' Heq; [done|]. simpl.
  rewrite (bool_decide_ext (u ∈ seen) (u ∈ seen')) by apply Heq.
  destruct (bool_decide (u ∈ seen')); [by apply IH|].
  f_equal. apply IH. intros x. rewrite !elem_of_cons. by rewrite Heq.
Qed.

Lemma elem_of_firstSeen (uris : list string) : ∀ seen u,
  u ∈ firstSeen seen uris ↔ u ∈ uris ∧ u ∉ seen.
Proof.
  induction uris as [|x uris IH]; intros seen u; simpl.
  - rewrite elem_of_nil. tauto.
  - case_bool_decide as Hx.
    + rewrite IH, elem_of_cons. split; [tauto|].
      intros [[->|Hu] Hn]; [done|tauto].
    + rewrite !elem_of_cons, IH, elem_of_cons. split.
      * intros [->|[Hu Hn]]; [tauto|]. tauto.
      * intros [[->|Hu] Hn]; [tauto|].
        destruct (decide (u = x)); [tauto|]. tauto.
Qed.

Lemma NoDup_firstSeen (uris : list string) : ∀ seen, NoDup (firstSeen seen uris).
Proof.
  induction uris as [|x uris IH]; intros seen; simpl; [constructor|].
  case_bool_decide; [apply IH|]. constructor; [|apply IH].
  rewrite elem_of_firstSeen, elem_of_cons. tauto.
Qed.

Lemma firstSeen_sublist (uris : list string) : ∀ seen,
  firstSeen seen uris `sublist_of` uris.
Proof.
  induction uris as [|x uris IH]; intros seen; simpl; [done|].
  case_bool_decide; [by apply sublist_cons|by apply sublist_skip].
Qed.

Lemma sendAll_cons d ds w :
  sendAll (d :: ds) w = sendAll ds (emit (EvSend d) (set_dlc (dlc w ++ [d]) false w)).
Proof. done. Qed.

Lemma sendAll_dirs (ds : list Download) : ∀ w, dirs (sendAll ds w) = dirs w.
Proof.
  induction ds as [|d ds IH]; intros w; [done|].
  rewrite sendAll_cons. by rewrite IH.
Qed.

Lemma sendAll_sealed (ds : list Download) : ∀ w, sealed (sendAll ds w) = sealed w.
Proof.
  induction ds as [|d ds IH]; intros w; [done|].
  rewrite sendAll_cons. by rewrite IH.
Qed.

Lemma sendAll_fields (ds : list Download) : ∀ w,
  trace (sendAll ds w) = trace w ++ (EvSend <$> ds)
  ∧ dlc (sendAll ds w) = dlc w ++ ds
  ∧ downloadProcess (sendAll ds w) = downloadProcess w
  ∧ bar (sendAll ds w) = bar w
  ∧ files (sendAll ds w) = files w
  ∧ (dlcClosed w = false → dlcClosed (sendAll ds w) = false).
Proof.
  induction ds as [|d ds IH]; intros w.
  - simpl. by rewrite !app_nil_r.
  - rewrite sendAll_cons. destruct (IH (emit (EvSend d) (set_dlc (dlc w ++ [d]) false w)))
      as (-> & -> & -> & -> & -> & Hc). simpl. rewrite <- !app_assoc.
    repeat split; try done. intros _. by apply Hc.
Qed.

(** The second loop, while the cache has room for every URI: a descriptor
    is sent for each URI the cache has not seen, in order. *)
Lemma enqueueSegments_run (base : string) (segs : list (option MediaSegment)) :
  ∀ cache w,
    dlcClosed w = false →
    Forall (λ seg, is_Some (resolved E base (seg_URI seg))) (segmentsOf segs) →
    lru.MaxEntries cache = 1024%nat →
    (length (lru.ll cache) + length (segmentsOf segs) ≤ 1024)%nat →
    enqueueSegments E base cache segs w
    = (Ok tt, sendAll (mkDownload <$> firstSeen (lru.ll cache) (segmentURIs E base segs)) w).
Proof.
  induction segs as [|[seg|] segs IH]; intros cache w Hopen Hall Hmax Hlen.
  - done.
  - rewrite segmentsOf_cons_Some in Hall, Hlen.
    inversion Hall as [|? ? [u Hu] Hrest]; subst.
    assert (segmentURIs E base (Some seg :: segs) = u :: segmentURIs E base segs) as ->.
    { unfold segmentURIs. rewrite segmentsOf_cons_Some. simpl. by rewrite Hu. }
    simpl in Hlen. simpl. unfold bind at 1.
    rewrite (getAbsoluteUri_resolved _ _ _ _ Hu). unfold lru.Get.
    destruct (bool_decide (u ∈ lru.ll cache)) eqn:Hin; simpl.
    + apply bool_decide_eq_true_1 in Hin.
      rewrite IH; [|done|done|done|].
      * simpl. f_equal. f_equal. f_equal. apply firstSeen_ext. intros x.
        rewrite elem_of_cons, list_elem_of_filter.
        destruct (decide (x = u)) as [->|]; [tauto|]. tauto.
      * pose proof (length_filter_lt (λ k, k ≠ u) (lru.ll cache) u Hin
                      (λ H, H eq_refl)) as Hf.
        cbn [lru.ll length]. lia.
    + unfold dlc_send. unfold_m. rewrite Hopen. simpl.
      unfold lru.Add. rewrite Hin, Hmax. simpl.
      destruct (Nat.ltb_spec 1024 (S (length (lru.ll cache)))); [lia|].
      destruct (length (lru.ll cache)) as [|n] eqn:Hn.
      * rewrite IH; [done|done|done|done|simpl; lia].
      * destruct (Nat.leb_spec n 1022); [|lia].
        rewrite IH; [done|done|done|done|simpl; lia].
  - rewrite segmentsOf_cons_None in Hall, Hlen. simpl. by apply IH.
Qed.

Lemma recordStatus_lookup (names : list string) : ∀ (st : gmap string bool) n,
  recordStatus st names !! n = if bool_decide (n ∈ names) then Some false else st !! n.
Proof.
  induction names as [|x names IH]; intros st n; [done|].
  unfold recordStatus in *. simpl. rewrite IH.
  destruct (bool_decide (n ∈ names)) eqn:Hin.
  - apply bool_decide_eq_true_1 in Hin.
    rewrite bool_decide_eq_true_2; [done|]. by right.
  - apply bool_decide_eq_false_1 in Hin. destruct (decide (n = x)) as [->|Hne].
    + rewrite lookup_insert_eq. rewrite bool_decide_eq_true_2; [done|]. by left.
    + rewrite lookup_insert_ne by done.
      rewrite bool_decide_eq_false_2; [done|]. rewrite elem_of_cons. tauto.
Qed.

Lemma settlePath_set (uris : list string) (p : string) :
  p ≠ "" → settlePath p uris = p.
Proof.
  intros Hp. induction uris as [|u uris IH]; [done|].
  unfold settlePath in *. simpl. by rewrite bool_decide_eq_false_2.
Qed.

Lemma settlePath_first (u : string) (uris : list string) :
  dirOf u ≠ "" → settlePath "" (u :: uris) = dirOf u.
Proof. intros H. unfold settlePath. simpl. by apply settlePath_set. Qed.

(** X2.  The first loop of getPlaylist over a decoded media playlist,
    when every segment URI resolves: it sends and requests nothing; the
    file name of every entry that is not nil is appended to MediaList in
    playlist order (a repeated entry is appended again) and stored as not
    complete, other keys of the status map being kept; and Path is left
    as it is unless it is empty, in which case it becomes the directory
    of the first segment's absolute URI. *)
Theorem playlist_order_is_recorded (base : string) (segs : list (option MediaSegment))
    (w : World) (st : gmap string bool) :
  status (downloadProcess w) = Some st →
  Forall (λ seg, is_Some (resolved E base (seg_URI seg))) (segmentsOf segs) →
  ∃ w' st',
    recordSegments E base segs w = (Ok tt, w')
    ∧ trace w' = trace w ∧ dlc w' = dlc w ∧ files w' = files w
    ∧ MediaList (downloadProcess w')
      = MediaList (downloadProcess w) ++ segmentNames segs
    ∧ status (downloadProcess w') = Some st'
    ∧ (∀ n, n ∈ segmentNames segs → st' !! n = Some false)
    ∧ (∀ n, n ∉ segmentNames segs → st' !! n = st !! n)
    ∧ (Path (downloadProcess w) ≠ "" →
       Path (downloadProcess w') = Path (downloadProcess w))
    ∧ (Path (downloadProcess w) = "" →
       ∀ u rest, segmentURIs E base segs = u :: rest → dirOf u ≠ "" →
       Path (downloadProcess w') = dirOf u).
Proof.
  intros Hst Hall. rewrite (recordSegments_run base segs w st Hst Hall).
  eexists _, _. split; [done|]. unfold recorded. simpl.
  repeat split; try done.
  - intros n Hn. rewrite recordStatus_lookup. by rewrite bool_decide_eq_true_2.
  - intros n Hn. rewrite recordStatus_lookup. by rewrite bool_decide_eq_false_2.
  - intros Hp. by apply settlePath_set.
  - intros Hp u rest Hu Hd. rewrite Hp, Hu. by apply settlePath_first.
Qed.

(** X3.  The second loop of getPlaylist, started on an empty cache, over
    at most 1024 entries whose URIs resolve, with dlc open: one descriptor
    is sent for each distinct absolute URI, at its first occurrence and in
    playlist order, and nothing else is sent. *)
Theorem each_uri_is_sent_once (base : string) (segs : list (option MediaSegment))
    (w : World) :
  dlcClosed w = false →
  Forall (λ seg, is_Some (resolved E base (seg_URI seg))) (segmentsOf segs) →
  (length (segmentsOf segs) ≤ 1024)%nat →
  ∃ w' sent,
    enqueueSegments E base (lru.New 1024) segs w = (Ok tt, w')
    ∧ sends (trace w') = sends (trace w) ++ (mkDownload <$> sent)
    ∧ dlc w' = dlc w ++ (mkDownload <$> sent)
    ∧ dlcClosed w' = false
    ∧ httpGets (trace w') = httpGets (trace w)
    ∧ NoDup sent
    ∧ (∀ u, u ∈ sent ↔ u ∈ segmentURIs E base segs)
    ∧ sent `sublist_of` segmentURIs E base segs.
Proof.
  intros Hopen Hall Hlen.
  rewrite (enqueueSegments_run base segs (lru.New 1024) w Hopen Hall eq_refl)
    by (simpl; lia).
  destruct (sendAll_fields (mkDownload <$> firstSeen [] (segmentURIs E base segs)) w)
    as (Htr & Hd & _ & _ & _ & Hc).
  eexists _, (firstSeen [] (segmentURIs E base segs)). split; [done|].
  simpl. rewrite Htr, Hd, sends_app, httpGets_app. repeat split.
  - f_equal. clear. induction (firstSeen _ _) as [|x l IH]; [done|].
    cbn. by f_equal.
  - by apply Hc.
  - rewrite <- (app_nil_r (httpGets (trace w))) at 2. f_equal.
    clear. induction (firstSeen _ _) as [|x l IH]; [done|]. cbn. exact IH.
  - apply NoDup_firstSeen.
  - intros Hu. by apply elem_of_firstSeen in Hu as [? _].
  - intros Hu. apply elem_of_firstSeen. split; [done|]. by apply not_elem_of_nil.
  - apply firstSeen_sublist.
Qed.

End Pass.

(** ** The checkpoint *)

Section Checkpoint.
Context (E : Env).

(** What writeJsonFile does when the lock is free and the status map is
    in place. *)
Lemma writeJsonFile_effect (w : World) (st : gmap string bool) :
  locked (downloadProcess w) = false →
  status (downloadProcess w) = Some st →
  ∃ w', writeJsonFile E w = (Ok tt, w')
    ∧ downloadProcess w'
      = {| Path := Path (downloadProcess w);
           MediaStatus := Some (st ∪ default ∅ (MediaStatus (downloadProcess w)));
           MediaList := MediaList (downloadProcess w);
           status := Some st; locked := false |}
    ∧ files w' = (if canCreate (outPath E) (indexName E) w
                  then <[indexName E := mkFile (json_MarshalIndent E (checkpointOf w st)) true]>
                         (files w)
                  else files w)
    ∧ trace w' = trace w ∧ dlc w' = dlc w ∧ dlcClosed w' = dlcClosed w
    ∧ bar w' = bar w ∧ dirs w' = dirs w
    ∧ chLimit w' = chLimit w ∧ wg w' = wg w ∧ sealed w' = sealed w.
Proof.
  intros Hl Hst. unfold writeJsonFile, checkpointOf. unfold_m. rewrite Hl.
  destruct (MediaStatus (downloadProcess w)) eqn:Hms; simpl; rewrite Hst; simpl;
    rewrite ?Hms; simpl;
    change (canCreate (outPath E) (indexName E) _)
      with (canCreate (outPath E) (indexName E) w);
    destruct (canCreate _ _ w); simpl; eexists; (split; [done|]);
    simpl; rewrite ?Hms; simpl; unfold with_locked, with_MediaStatus; simpl;
    rewrite ?Hst; done.
Qed.

(** X4.  writeJsonFile, with the lock free and the status map in place,
    returns with the lock free again.  Every entry of the status map is
    copied into MediaStatus, over an entry of the same key; the other keys
    of MediaStatus stay, none is ever removed.  Path, MediaList and the
    status map are left alone.  No file but the checkpoint file changes.
    The checkpoint file holds the encoded state when it can be opened for
    writing: the output directory is there, no directory is in the file's
    place, and the process may write the file, or make it; otherwise it is
    as it was, and the error of the write is dropped. *)
Theorem checkpoint_merges_status (w : World) (st : gmap string bool) :
  locked (downloadProcess w) = false →
  status (downloadProcess w) = Some st →
  ∃ w' ms',
    writeJsonFile E w = (Ok tt, w')
    ∧ locked (downloadProcess w') = false
    ∧ MediaStatus (downloadProcess w') = Some ms'
    ∧ (∀ k v, st !! k = Some v → ms' !! k = Some v)
    ∧ (∀ k, st !! k = None →
         ms' !! k = default ∅ (MediaStatus (downloadProcess w)) !! k)
    ∧ Path (downloadProcess w') = Path (downloadProcess w)
    ∧ MediaList (downloadProcess w') = MediaList (downloadProcess w)
    ∧ status (downloadProcess w') = Some st
    ∧ (∀ p, p ≠ indexName E → files w' !! p = files w !! p)
    ∧ (if canCreate (outPath E) (indexName E) w
       then content <$> files w' !! indexName E
            = Some (json_MarshalIndent E (checkpointOf w st))
       else files w' !! indexName E = files w !! indexName E)
    ∧ dirs w' = dirs w
    ∧ trace w' = trace w.
Proof.
  intros Hl Hst.
  destruct (writeJsonFile_effect w st Hl Hst)
    as (w' & Hrun & Hdp & Hf & Htr & _ & _ & _ & Hd & _).
  exists w', (st ∪ default ∅ (MediaStatus (downloadProcess w))).
  rewrite Hdp, Hf. simpl. repeat split; try done.
  - intros k v Hk. by apply lookup_union_Some_l.
  - intros k Hk. by apply lookup_union_r.
  - intros p Hp. destruct (canCreate _ _ _); [|done]. by rewrite lookup_insert_ne.
  - destruct (canCreate _ _ _); [|done]. by rewrite lookup_insert_eq.
Qed.

(** X5.  While the status map is still nil (no playlist has been resolved
    and no checkpoint loaded), writeJsonFile panics on the traversal of
    the nil map with the mutex held: no file is written, every later
    call of writeJsonFile waits on the mutex for ever, and a signal
    handled in that state ends in that panic, so the process ends with
    status 2 and not through os.Exit(0). *)
Theorem checkpoint_without_status_panics (w : World) :
  locked (downloadProcess w) = false →
  status (downloadProcess w) = None →
  ∃ w', writeJsonFile E w = (Panic nil_deref, w')
    ∧ locked (downloadProcess w') = true
    ∧ files w' = files w
    ∧ fst (writeJsonFile E w') = Block
    ∧ exitStatus (fst (listenSignal E w)) = Some 2
    ∧ files (snd (listenSignal E w)) = files w.
Proof.
  intros Hl Hst. unfold listenSignal, writeJsonFile. unfold_m. simpl.
  rewrite Hl. destruct (MediaStatus (downloadProcess w)); simpl; rewrite Hst; simpl;
    eexists; (split; [done|]); simpl; by rewrite ?Hl.
Qed.

End Checkpoint.

(** ** The resolver on a closed manifest *)

Section ClosedPass.
Context (E : Env).

(** X7.  getPlaylist on a media playlist that is closed and whose URIs
    resolve, called with the lock free and with dlc open and with room for
    the entries (dlc holds 1024 items, and a send on a full dlc waits for
    the pool): the manifest is requested once; the names of its entries
    are appended to MediaList in playlist order and stored as not complete
    in a new status map; the progress bar is started with the length of
    MediaList as its total; one descriptor is sent for each distinct
    absolute URI, in playlist order; dlc is closed; and on return the
    deferred writeJsonFile copies the status map into MediaStatus, which
    so holds every stored name, and writes the checkpoint file when that
    can be opened for writing (on a first run it cannot while the output
    directory is still to be made); no other file changes. *)
Theorem closed_manifest_pass (fuel : nat) (urlStr : string) (w : World)
    (code : Z) (body : list byte) (mpl : MediaPlaylist) :
  url_Parse E urlStr = None →
  http_Do E urlStr = HttpResp code body →
  m3u8_DecodeFrom E body = MEDIA mpl →
  Closed mpl = true →
  Forall (λ seg, is_Some (resolved E urlStr (seg_URI seg))) (segmentsOf (Segments mpl)) →
  (length (dlc w) + length (segmentsOf (Segments mpl)) ≤ 1024)%nat →
  dlcClosed w = false →
  locked (downloadProcess w) = false →
  let names := segmentNames (Segments mpl) in
  let sent := mkDownload <$> firstSeen [] (segmentURIs E urlStr (Segments mpl)) in
  ∃ w' ms' p,
    getPlaylist E (S fuel) urlStr w = (Ok tt, w')
    ∧ trace w' = trace w ++ [EvHttpGet urlStr] ++ (EvSend <$> sent) ++ [EvClose]
    ∧ dlc w' = dlc w ++ sent
    ∧ dlcClosed w' = true
    ∧ MediaList (downloadProcess w') = MediaList (downloadProcess w) ++ names
    ∧ status (downloadProcess w') = Some (recordStatus ∅ names)
    ∧ bar w' = Some (mkBar (length (MediaList (downloadProcess w) ++ names)) 0 false)
    ∧ MediaStatus (downloadProcess w') = Some ms'
    ∧ (∀ n, n ∈ names → ms' !! n = Some false)
    ∧ locked (downloadProcess w') = false
    ∧ MediaStatus p = Some ms'
    ∧ MediaList p = MediaList (downloadProcess w) ++ names
    ∧ (if canCreate (outPath E) (indexName E) w
       then content <$> files w' !! indexName E = Some (json_MarshalIndent E p)
       else files w' !! indexName E = files w !! indexName E)
    ∧ (∀ q, q ≠ indexName E → files w' !! q = files w !! q).
Proof.
  intros Hparse Hhttp Hdec Hclosed Hall Hlen Hopen Hlock names sent.
  assert (length (segmentsOf (Segments mpl)) ≤ 1024)%nat as Hlen' by lia.
  cbn [getPlaylist]. unfold deferred. rewrite Hparse, Hhttp, Hdec, Hclosed.
  unfold bind at 1. unfold modify at 1.
  unfold bind at 1. unfold modify at 1.
  unfold bind at 1.
  erewrite (recordSegments_run E urlStr (Segments mpl) _ ∅); [|reflexivity|exact Hall].
  unfold bind at 1. unfold get at 1. unfold bind at 1. unfold bar_StartNew.
  unfold modify at 1. unfold bind at 1.
  erewrite (enqueueSegments_run E urlStr (Segments mpl) (lru.New 1024));
    [|exact Hopen|exact Hall|reflexivity|simpl; lia].
  match goal with |- context [sendAll ?ds ?w0] =>
    change ds with sent; set (w4 := w0) end.
  destruct (sendAll_fields sent w4) as (Htr & Hd & Hp & Hb & Hf & Hc).
  unfold dlc_close. unfold_m. rewrite (Hc Hopen). simpl.
  unfold catchException. unfold_m.
  set (w5 := emit EvClose (set_dlc (dlc (sendAll sent w4)) true (sendAll sent w4))).
  edestruct (writeJsonFile_effect E w5 (recordStatus ∅ names))
    as (w' & -> & Hdp' & Hf' & Htr' & Hd' & Hc' & Hb' & _).
  { simpl. by rewrite Hp. }
  { simpl. by rewrite Hp. }
  assert (canCreate (outPath E) (indexName E) w5 = canCreate (outPath E) (indexName E) w)
    as Hcan.
  { unfold canCreate, isDir, w5. simpl. by rewrite Hf, (sendAll_dirs sent w4),
      (sendAll_sealed sent w4). }
  exists w', (recordStatus ∅ names ∪ default ∅ (MediaStatus (downloadProcess w5))),
    (checkpointOf w5 (recordStatus ∅ names)).
  split; [done|]. rewrite Hdp', Htr', Hd', Hc', Hb', Hf', Hcan. simpl.
  rewrite Htr, Hd, Hp, Hb, Hf. simpl. rewrite <- !app_assoc. split_and!; try done.
  - intros n Hn. apply lookup_union_Some_l. rewrite recordStatus_lookup.
    by rewrite bool_decide_eq_true_2.
  - destruct (canCreate _ _ w); [by rewrite lookup_insert_eq|done].
  - intros q Hq. destruct (canCreate _ _ w); [by rewrite lookup_insert_ne|done].
Qed.

End ClosedPass.

(** ** The fetch task, path by path *)

Section Task.
Context (E : Env).

Lemma writeJsonFile_chLimitClosed (w : World) r w' :
  writeJsonFile E w = (r, w') → chLimitClosed w' = chLimitClosed w.
Proof.
  unfold writeJsonFile. unfold_m.
  destruct (locked (downloadProcess w)); [intros ?; by simplify_eq|].
  destruct (MediaStatus (downloadProcess w)); simpl;
    (destruct (status (downloadProcess w)) eqn:Hst; simpl;
     [destruct (canCreate _ _ _); simpl|]);
    intros ?; by simplify_eq.
Qed.

(** A body that returns, followed by the deferred catchException. *)
Lemma deferred_effect (body : M unit) (w w1 : World) (st : gmap string bool) :
  body w = (Ok tt, w1) →
  locked (downloadProcess w1) = false →
  status (downloadProcess w1) = Some st →
  ∃ w', deferred E body w = (Ok tt, w')
    ∧ status (downloadProcess w') = Some st
    ∧ MediaList (downloadProcess w') = MediaList (downloadProcess w1)
    ∧ Path (downloadProcess w') = Path (downloadProcess w1)
    ∧ locked (downloadProcess w') = false
    ∧ (∀ p, p ≠ indexName E → files w' !! p = files w1 !! p)
    ∧ trace w' = trace w1 ∧ dlc w' = dlc w1 ∧ dlcClosed w' = dlcClosed w1
    ∧ bar w' = bar w1 ∧ dirs w' = dirs w1
    ∧ chLimit w' = chLimit w1 ∧ wg w' = wg w1
    ∧ chLimitClosed w' = chLimitClosed w1
    ∧ (accessible w1 → accessible w')
    ∧ sealed w' = sealed w1.
Proof.
  intros Hb Hl Hst. unfold deferred. rewrite Hb. unfold catchException. unfold_m.
  destruct (writeJsonFile_effect E w1 st Hl Hst)
    as (w' & Hrun & Hdp & Hf & Htr & Hd & Hc & Hbar & Hdirs & Hch & Hwg & Hse).
  pose proof (writeJsonFile_chLimitClosed _ _ _ Hrun) as Hcc. rewrite Hrun.
  exists w'. split; [done|]. unfold accessible. rewrite Hdp, Hf. simpl.
  split_and!; try done.
  - intros p Hp. destruct (canCreate _ _ _); [|done]. by rewrite lookup_insert_ne.
  - intros Hacc p f. destruct (canCreate _ _ _); [|apply Hacc].
    destruct (decide (p = indexName E)) as [->|Hne].
    + rewrite lookup_insert_eq. by intros [= <-].
    + rewrite lookup_insert_ne by done. apply Hacc.
Qed.



(** X9.  A fetch task whose request fails, or is answered with another
    status than 200: after its one request the derived file name is
    stored as not complete, over whatever was stored for it before, the
    progress bar is not advanced, and no file changes but the checkpoint. *)
Theorem fetch_failure_records_false (outPath : string) (v : Download)
    (w : World) (st : gmap string bool) :
  LastIndex (URI v) "/" ≠ -1 →
  status (downloadProcess w) = Some st →
  st !! URI v = None →
  url_Parse E (URI v) = None →
  (∃ msg, http_Do E (URI v) = HttpErr msg)
  ∨ (∃ code body, http_Do E (URI v) = HttpResp code body ∧ code ≠ 200) →
  locked (downloadProcess w) = false →
  ∃ w', downloadSegment E outPath v w = (Ok tt, w')
    ∧ status (downloadProcess w') = Some (<[getFileName (URI v) := false]> st)
    ∧ httpGets (trace w') = httpGets (trace w) ++ [URI v]
    ∧ bar w' = bar w
    ∧ (∀ p, p ≠ indexName E → files w' !! p = files w !! p).
Proof.
  intros Hidx Hst Hnone Hparse Hfail Hl.
  assert (∃ w1, downloadSegment_body E outPath v w = (Ok tt, w1)
            ∧ status (downloadProcess w1) = Some (<[getFileName (URI v) := false]> st)
            ∧ locked (downloadProcess w1) = false
            ∧ httpGets (trace w1) = httpGets (trace w) ++ [URI v]
            ∧ bar w1 = bar w ∧ files w1 = files w)
    as (w1 & Hbody & Hs1 & Hl1 & Ht1 & Hb1 & Hf1).
  { unfold downloadSegment_body. simpl. rewrite bool_decide_eq_true_2 by done.
    unfold status_Load, setMediaStatus, status_Store. unfold_m. rewrite Hst.
    rewrite bool_decide_eq_false_2 by (rewrite Hnone; by intros [? ?]).
    rewrite Hparse.
    destruct Hfail as [[msg Hh]|(code & body & Hh & Hcode)]; rewrite Hh; simpl.
    - rewrite Hst. simpl. eexists. split; [done|]. simpl.
      rewrite !httpGets_app. simpl. rewrite app_nil_r. by rewrite Hl.
    - rewrite bool_decide_eq_true_2 by done. simpl. rewrite Hst. simpl.
      eexists. split; [done|]. simpl.
      rewrite !httpGets_app. simpl. rewrite app_nil_r. by rewrite Hl. }
  destruct (deferred_effect _ _ _ _ Hbody Hl1 Hs1)
    as (w' & Hrun & Hs & _ & _ & _ & Hf & Htr & _ & _ & Hb & _).
  exists w'. split; [exact Hrun|]. rewrite Hs, Htr, Hb, Ht1, Hb1.
  repeat split; try done. intros p Hp. by rewrite (Hf _ Hp), Hf1.
Qed.

(** X20.  A fetch task that panics, on a URI that does not parse or on a
    body that cannot be stored (the output directory is missing, the file
    is not writable, or the name is empty), is recovered by the deferred
    catchException: the task returns after printing the error, its name
    keeps the status it had, the progress bar is not advanced, and its
    token and its WaitGroup count are not given back. *)
Theorem fetch_panic_is_recovered (outPath : string) (v : Download)
    (w : World) (st : gmap string bool) :
  LastIndex (URI v) "/" ≠ -1 →
  status (downloadProcess w) = Some st →
  st !! URI v = None →
  locked (downloadProcess w) = false →
  is_Some (url_Parse E (URI v))
  ∨ url_Parse E (URI v) = None
    ∧ (∃ body, http_Do E (URI v) = HttpResp 200 body)
    ∧ (canCreate outPath (outPath +:+ "/" +:+ getFileName (URI v)) w = false
       ∨ getFileName (URI v) = "") →
  ∃ w' msg, downloadSegment E outPath v w = (Ok tt, w')
    ∧ last (trace w') = Some (EvPrintln ("error msg: " +:+ msg))
    ∧ status (downloadProcess w') = Some st
    ∧ wg w' = wg w ∧ chLimit w' = chLimit w
    ∧ bar w' = bar w
    ∧ (∀ p, p ≠ indexName E → files w' !! p = files w !! p).
Proof.
  intros Hidx Hst Hnone Hl Hfail.
  assert (∃ w1 msg, downloadSegment_body E outPath v w = (Panic msg, w1)
            ∧ status (downloadProcess w1) = Some st
            ∧ locked (downloadProcess w1) = false
            ∧ wg w1 = wg w ∧ chLimit w1 = chLimit w ∧ bar w1 = bar w
            ∧ files w1 = files w)
    as (w1 & msg & Hbody & Hs1 & Hl1 & Hw1 & Hc1 & Hb1 & Hf1).
  { unfold downloadSegment_body. simpl. rewrite bool_decide_eq_true_2 by done.
    unfold status_Load, storeSegment. unfold_m. rewrite Hst.
    rewrite bool_decide_eq_false_2 by (rewrite Hnone; by intros [? ?]).
    destruct Hfail as [[err Hp]|(Hp & [body Hh] & Hstore)]; rewrite Hp.
    - simpl. eexists _, _. split; [reflexivity|]. by split_and!.
    - rewrite Hh. simpl.
      change (canStore outPath (getFileName (URI v)) _)
        with (canStore outPath (getFileName (URI v)) w).
      assert (canStore outPath (getFileName (URI v)) w = false) as ->.
      { unfold canStore, PathSeparator. destruct Hstore as [->|Hn]; [done|].
        by rewrite (bool_decide_eq_true_2 _ Hn), andb_false_r. }
      eexists _, _. split; [reflexivity|]. by split_and!. }
  unfold downloadSegment, deferred. rewrite Hbody. unfold catchException. unfold_m.
  destruct (writeJsonFile_effect E (emit (EvPrintln ("error msg: " +:+ msg)) w1) st Hl1 Hs1)
    as (w' & Hrun & Hdp & Hf & Htr & _ & _ & Hb & _ & Hc & Hw & _).
  simpl in *. rewrite Hrun. exists w', msg. split; [done|].
  rewrite Hdp, Htr, Hb, Hc, Hw, Hf. simpl. rewrite last_snoc.
  split_and!; try done.
  clear Hfail. intros p Hp. destruct (canCreate _ _ _); [|by rewrite Hf1].
  rewrite lookup_insert_ne by done. by rewrite Hf1.
Qed.

End Task.

(** ** The keys of the status map, and the tokens of the pool *)

Section Keys.
Context (E : Env).

Lemma getFileName_no_slash (uri : string) : LastIndex (getFileName uri) "/" = -1.
Proof.
  unfold getFileName, LastIndex.
  pose proof (LastIndex_from_drop uri 0 ltac:(lia)) as H.
  by rewrite Z.sub_0_r in H.
Qed.

Lemma slashFree_insert (st : gmap string bool) (uri : string) (b : bool) :
  slashFree st → slashFree (<[getFileName uri := b]> st).
Proof.
  intros Hst k. destruct (decide (k = getFileName uri)) as [->|Hne].
  - intros _. apply getFileName_no_slash.
  - rewrite lookup_insert_ne by done. apply Hst.
Qed.

Lemma slashFree_empty : slashFree ∅.
Proof. intros k. rewrite lookup_empty. by intros [? ?]. Qed.

(** What the deferred catchException leaves as the body left it. *)
Lemma deferred_keeps (body : M unit) (w : World) r1 w1 :
  body w = (r1, w1) →
  ∀ r w', deferred E body w = (r, w') →
    status (downloadProcess w') = status (downloadProcess w1)
    ∧ chLimit w' = chLimit w1 ∧ wg w' = wg w1 ∧ bar w' = bar w1
    ∧ dlc w' = dlc w1 ∧ dlcClosed w' = dlcClosed w1
    ∧ MediaList (downloadProcess w') = MediaList (downloadProcess w1).
Proof.
  intros Hb r w'. unfold deferred. rewrite Hb.
  destruct r1 as [[]|e| | |]; try (intros ?; by simplify_eq).
  - unfold catchException. unfold_m. intros H.
    by destruct (writeJsonFile_frame E _ _ _ H) as (-> & -> & _ & -> & -> & -> & -> & ->).
  - unfold catchException. unfold_m. simpl. intros H.
    by destruct (writeJsonFile_frame E _ _ _ H) as (-> & -> & _ & -> & -> & -> & -> & ->).
Qed.

(** The statements of a fetch task store at most one key, the derived
    name, and put no token into chLimit. *)
Lemma downloadSegment_body_keeps (outPath : string) (v : Download) (w : World)
    (st : gmap string bool) r1 w1 :
  status (downloadProcess w) = Some st →
  downloadSegment_body E outPath v w = (r1, w1) →
  (status (downloadProcess w1) = Some st
   ∨ ∃ b, status (downloadProcess w1) = Some (<[getFileName (URI v) := b]> st))
  ∧ (chLimit w1 ≤ chLimit w)%nat.
Proof.
  intros Hst. unfold downloadSegment_body. simpl.
  unfold status_Load, setMediaStatus, status_Store, storeSegment,
    bar_Increment, releaseSlot, wg_Done, wg_Add, chLimit_recv.
  unfold_m. case_bool_decide.
  2:{ destruct (wg w + -1 <? 0); simpl; [intros ?; simplify_eq; eauto|].
      destruct (chLimit w) eqn:Hc; simpl.
      - destruct (chLimitClosed w); intros ?; simplify_eq; simpl; rewrite ?Hc; eauto.
      - intros ?; simplify_eq; simpl. split; [eauto|lia]. }
  rewrite Hst. case_bool_decide; [intros ?; simplify_eq; eauto|].
  destruct (url_Parse E (URI v)); simpl; [intros ?; simplify_eq; simpl; eauto|].
  destruct (http_Do E (URI v)) as [msg|code body]; simpl.
  { rewrite Hst. simpl. intros ?; simplify_eq; simpl. eauto. }
  case_bool_decide; simpl.
  { rewrite Hst. simpl. intros ?; simplify_eq; simpl. eauto. }
  destruct (canStore _ _ _); cbn; [|intros ?; simplify_eq; simpl; eauto].
  rewrite Hst. cbn. destruct (bar w) as [b|]; cbn; [|intros ?; simplify_eq; simpl; eauto].
  destruct (wg w + -1 <? 0); cbn; [intros ?; simplify_eq; simpl; eauto|].
  destruct (chLimit w) eqn:Hc; cbn.
  - destruct (chLimitClosed w); intros ?; simplify_eq; simpl; rewrite ?Hc; eauto.
  - intros ?; simplify_eq; simpl. split; [eauto|lia].
Qed.

(** X10.  Every name a fetch task stores in the status map is a
    getFileName result, which holds no slash: a map whose keys hold no
    slash stays so through any fetch task, whatever its outcome.  The skip
    test of downloadSegment, which is only reached for a URI with a slash
    and looks the whole URI up, therefore never finds its key in such a
    map. *)
Theorem status_keys_hold_no_slash (outPath : string) (v : Download) (w : World)
    (st : gmap string bool) (r : Result unit) (w' : World) :
  status (downloadProcess w) = Some st →
  slashFree st →
  downloadSegment E outPath v w = (r, w') →
  (∃ st', status (downloadProcess w') = Some st' ∧ slashFree st')
  ∧ (LastIndex (URI v) "/" ≠ -1 → status_Load (URI v) w = (Ok false, w)).
Proof.
  intros Hst Hfree Hrun. split.
  - destruct (downloadSegment_body E outPath v w) as [r1 w1] eqn:Hbody.
    destruct (deferred_keeps _ _ _ _ Hbody _ _ Hrun) as (-> & _).
    destruct (downloadSegment_body_keeps _ _ _ _ _ _ Hst Hbody) as [[->|[b ->]] _].
    + by exists st.
    + eexists. split; [done|]. by apply slashFree_insert.
  - intros Hidx. unfold status_Load. unfold_m. rewrite Hst.
    rewrite bool_decide_eq_false_2; [done|]. intros Hsome. by apply Hidx, Hfree.
Qed.

Lemma go_inv (task : M unit) (w : World) r w' :
  go task w = (r, w') → ∃ r0, task w = (r0, w').
Proof.
  unfold go. destruct (task w) as [[[]|e| | |] w1]; intros ?; simplify_eq; eauto.
Qed.

Lemma downloadSegment_tokens (outPath : string) (v : Download) (w : World) r w' :
  downloadSegment E outPath v w = (r, w') → (chLimit w' ≤ chLimit w)%nat.
Proof.
  intros Hrun.
  destruct (downloadSegment_body E outPath v w) as [r1 w1] eqn:Hbody.
  destruct (deferred_keeps _ _ _ _ Hbody _ _ Hrun) as (_ & -> & _).
  destruct (status (downloadProcess w)) as [st|] eqn:Hst.
  - by destruct (downloadSegment_body_keeps _ _ _ _ _ _ Hst Hbody).
  - revert Hbody. unfold downloadSegment_body. simpl.
    unfold status_Load, releaseSlot, wg_Done, wg_Add, chLimit_recv.
    unfold_m. case_bool_decide.
    + rewrite Hst. intros ?; by simplify_eq.
    + destruct (wg w + -1 <? 0); simpl; [intros ?; by simplify_eq|].
      destruct (chLimit w) eqn:Hc; simpl.
      * destruct (chLimitClosed w); intros ?; simplify_eq; simpl; by rewrite ?Hc.
      * intros ?; simplify_eq; simpl. lia.
Qed.

(** X11.  The loop of downloadSegmentLimit puts a token into chLimit
    before it starts a task, and waits while parallel tokens are there;
    a task puts none in.  So however the tasks end, chLimit never holds
    more tokens than the num flag allows. *)
Theorem pool_holds_at_most_parallel_tokens (outPath : string) (q : list Download) :
  ∀ (w : World) (r : Result unit) (w' : World),
  (chLimit w ≤ Z.to_nat (parallel E))%nat →
  poolLoop E outPath q w = (r, w') →
  (chLimit w' ≤ Z.to_nat (parallel E))%nat.
Proof.
  induction q as [|v q IH]; intros w r w' Hle.
  - simpl. unfold_m. intros ?; by simplify_eq.
  - simpl. unfold bind at 1. unfold modify at 1.
    unfold bind at 1. unfold chLimit_send. unfold bind at 1. unfold get at 1.
    cbn [dlc dlcClosed chLimit set_dlc chLimitClosed].
    destruct (Nat.ltb_spec (chLimit w) (Z.to_nat (parallel E))) as [Hlt|Hge];
      [|unfold block; intros ?; by simplify_eq].
    unfold modify at 1. unfold bind at 1. unfold wg_Add. unfold bind at 1.
    unfold get at 1. cbn [wg set_chLimit set_dlc].
    destruct (wg w + 1 <? 0); [unfold panic; intros ?; simplify_eq; simpl; lia|].
    unfold modify at 1. unfold bind at 1.
    match goal with |- context [go ?t ?w0] =>
      destruct (go t w0) as [r1 w1] eqn:Hgo end.
    apply go_inv in Hgo as [r0 Hgo]. apply downloadSegment_tokens in Hgo.
    simpl in Hgo.
    destruct r1 as [[]|e| | |]; try (intros ?; simplify_eq; lia).
    apply IH. lia.
Qed.

End Keys.

(** ** The pool that cannot start *)

Section Pool.
Context (E : Env).

(** The deferred catchException of a panic while the status map is
    nil: the panic is printed, and writeJsonFile panics on the nil map
    with the mutex held. *)
Lemma catchException_without_status (e : string) (w : World) :
  locked (downloadProcess w) = false →
  status (downloadProcess w) = None →
  ∃ w', catchException E (Some e) w = (Panic nil_deref, w')
    ∧ locked (downloadProcess w') = true
    ∧ trace w' = trace w ++ [EvPrintln ("error msg: " +:+ e)]
    ∧ files w' = files w ∧ dirs w' = dirs w ∧ dlc w' = dlc w
    ∧ bar w' = bar w ∧ wg w' = wg w ∧ chLimit w' = chLimit w.
Proof.
  intros Hl Hst. unfold catchException, writeJsonFile. unfold_m. simpl. rewrite Hl.
  destruct (MediaStatus (downloadProcess w)); simpl; rewrite Hst; simpl;
    eexists; (split; [done|]); by split_and!.
Qed.

(** While the mutex is held, catchException waits on it. *)
Lemma catchException_locked (e : option string) (w : World) :
  locked (downloadProcess w) = true → fst (catchException E e w) = Block.
Proof.
  intros Hl. unfold catchException, writeJsonFile. unfold_m.
  destruct e; simpl; by rewrite Hl.
Qed.

(** A call that panics with the mutex held parks the function whose
    deferred catchException comes next. *)
Lemma deferred_after_locked_panic (m rest : M unit) (w w' : World) (e : string) :
  m w = (Panic e, w') →
  locked (downloadProcess w') = true →
  fst (deferred E (m >> rest) w) = Block.
Proof.
  intros Hm Hl. unfold deferred. unfold bind at 1. rewrite Hm.
  by apply catchException_locked.
Qed.

(** X12.  With the num flag at zero chLimit is unbuffered and the first
    send on it waits for a receiver that only a started task would be.
    With a negative flag make panics, and the deferred catchException
    prints the panic and goes on to write the checkpoint: where the status
    map is in place the call then returns; where it is still nil, as it is
    until a playlist has been resolved or a checkpoint is resumed,
    writeJsonFile panics in its turn on the nil map with the mutex held,
    and the deferred call of the calling function waits on that mutex for
    ever.  Either way, whatever is queued, no fetch task is started and no
    segment is requested.  The output directory is there, and the mutex is
    free when the pool is called. *)
Theorem pool_without_slots_starts_no_task (dir : string) (w : World)
    (d : Download) (q : list Download) :
  parallel E ≤ 0 →
  dir ∈ dirs w →
  dlc w = d :: q →
  locked (downloadProcess w) = false →
  ∃ w', downloadSegmentLimit E dir w
        = ((if parallel E <? 0
            then match status (downloadProcess w) with
                 | Some _ => Ok tt
                 | None => Panic nil_deref
                 end
            else Block), w')
    ∧ httpGets (trace w') = httpGets (trace w)
    ∧ wg w' = (if parallel E <? 0 then wg w else 0)
    ∧ bar w' = bar w
    ∧ (parallel E < 0 → status (downloadProcess w) = None →
       locked (downloadProcess w') = true
       ∧ ∀ rest, fst (deferred E (downloadSegmentLimit E dir >> rest) w) = Block).
Proof.
  intros Hpar Hdir Hq Hl.
  assert (isDir w dir = true) as Hisdir.
  { apply bool_decide_eq_true_2. exists dir. split; [done|]. by left. }
  assert (∀ T (k : M T), (let* st := os_Stat dir in
             (if os_IsNotExist st
              then match os_Mkdir E dir with
                   | Some err => log_Panic err
                   | None => modify (set_dirs (λ d, d ∪ {[dir]}))
                   end
              else ret tt) >> k) w = k w) as Hstat.
  { intros T k. unfold os_Stat. unfold_m. by rewrite Hisdir, orb_true_r. }
  destruct (decide (parallel E < 0)) as [Hneg|Hzero].
  - assert ((parallel E <? 0) = true) as Hltb by lia.
    assert (∀ rest : M unit, (let* st := os_Stat dir in
             (if os_IsNotExist st
              then match os_Mkdir E dir with
                   | Some err => log_Panic err
                   | None => modify (set_dirs (λ d, d ∪ {[dir]}))
                   end
              else ret tt) >>
             make_chan (parallel E) >> rest) w
            = (Panic "makechan: size out of range", w)) as Hbody.
    { intros rest. rewrite Hstat. unfold make_chan. unfold_m. by rewrite Hltb. }
    assert (∃ w', downloadSegmentLimit E dir w
              = (match status (downloadProcess w) with
                 | Some _ => Ok tt
                 | None => Panic nil_deref
                 end, w')
            ∧ httpGets (trace w') = httpGets (trace w)
            ∧ wg w' = wg w ∧ bar w' = bar w
            ∧ (status (downloadProcess w) = None → locked (downloadProcess w') = true))
      as (w' & Hrun & Ht & Hw & Hb & Hlock).
    { unfold downloadSegmentLimit, deferred. rewrite Hbody.
      destruct (status (downloadProcess w)) as [st|] eqn:Hst.
      - unfold catchException. unfold_m.
        destruct (writeJsonFile_effect E
                    (emit (EvPrintln ("error msg: " +:+ "makechan: size out of range")) w)
                    st Hl Hst)
          as (w' & Hrun & _ & _ & Htr & _ & _ & Hb & _ & _ & Hw & _).
        simpl in *. rewrite Hrun. exists w'. split; [done|]. rewrite Htr, Hb, Hw. simpl.
        rewrite httpGets_app. simpl. by rewrite app_nil_r.
      - destruct (catchException_without_status "makechan: size out of range" w Hl Hst)
          as (w' & Hrun & Hl' & Htr & _ & _ & _ & Hb & Hw & _).
        exists w'. split; [done|]. rewrite Htr, Hb, Hw, httpGets_app. simpl.
        by rewrite app_nil_r. }
    exists w'. rewrite Hltb. split; [done|]. split_and!; try done.
    intros _ Hst. split; [by apply Hlock|]. intros rest.
    apply (deferred_after_locked_panic _ _ _ w' nil_deref); [|by apply Hlock].
    by rewrite Hrun, Hst.
  - assert (parallel E = 0) as Hp by lia.
    assert ((parallel E <? 0) = false) as Hltb by lia.
    unfold downloadSegmentLimit, deferred. rewrite Hstat. rewrite Hltb.
    unfold make_chan, chLimit_send. unfold_m. rewrite Hp. simpl. rewrite Hq. simpl.
    unfold chLimit_send. unfold_m. simpl. rewrite Hp. simpl.
    eexists. split; [done|]. split_and!; try done; try (intros ?; lia).
Qed.

(** X13.  When os.Stat reports that the output path does not exist and
    the directory cannot be made, downloadSegmentLimit logs the error of
    Mkdir and panics with it, and the deferred catchException prints it:
    nothing is taken from dlc, no task is started, no directory is made and
    no file is written.  Where the status map is in place the call then
    returns as if the pool had ended.  Where it is still nil, as it is when
    the pool gets to Mkdir before a playlist has been resolved,
    writeJsonFile panics on the nil map with the mutex held, and the
    deferred call of the calling function waits on that mutex for ever.
    The mutex is free when the pool is called. *)
Theorem uncreatable_directory_ends_the_pool (err : string) (w : World) :
  fst (os_Stat (outPath E) w) = Ok NotExist →
  os_Mkdir E (outPath E) = Some err →
  locked (downloadProcess w) = false →
  ∃ w', downloadSegmentLimit E (outPath E) w
        = (match status (downloadProcess w) with
           | Some _ => Ok tt
           | None => Panic nil_deref
           end, w')
    ∧ trace w' = trace w ++ [EvLog err; EvPrintln ("error msg: " +:+ err)]
    ∧ dlc w' = dlc w ∧ dirs w' = dirs w ∧ files w' = files w
    ∧ chLimit w' = chLimit w ∧ wg w' = wg w
    ∧ (status (downloadProcess w) = None →
       locked (downloadProcess w') = true
       ∧ ∀ rest, fst (deferred E (downloadSegmentLimit E (outPath E) >> rest) w)
                 = Block).
Proof.
  intros Hstat Hmk Hl.
  assert (isDir w (outPath E) = false) as Hnodir.
  { revert Hstat. unfold os_Stat. unfold_m. simpl.
    destruct (isDir w (outPath E)); [|done]. by rewrite orb_true_r. }
  assert (∀ rest : M unit, (let* st := os_Stat (outPath E) in
             (if os_IsNotExist st
              then match os_Mkdir E (outPath E) with
                   | Some err => log_Panic err
                   | None => modify (set_dirs (λ d, d ∪ {[outPath E]}))
                   end
              else ret tt) >> rest) w
            = (Panic err, emit (EvLog err) w)) as Hbody.
  { intros rest. unfold bind at 1. destruct (os_Stat (outPath E) w) as [r w0] eqn:Hs.
    assert (w0 = w) as ->.
    { revert Hs. unfold os_Stat. unfold_m. by intros [= _ <-]. }
    simpl in Hstat. subst r. simpl. rewrite Hmk. by unfold_m. }
  assert (∃ w', downloadSegmentLimit E (outPath E) w
            = (match status (downloadProcess w) with
               | Some _ => Ok tt
               | None => Panic nil_deref
               end, w')
          ∧ trace w' = trace w ++ [EvLog err; EvPrintln ("error msg: " +:+ err)]
          ∧ dlc w' = dlc w ∧ dirs w' = dirs w ∧ files w' = files w
          ∧ chLimit w' = chLimit w ∧ wg w' = wg w
          ∧ (status (downloadProcess w) = None → locked (downloadProcess w') = true))
    as (w' & Hrun & Htr & Hd & Hdirs & Hf & Hc & Hw & Hlock).
  { unfold downloadSegmentLimit, deferred. rewrite Hbody.
    destruct (status (downloadProcess w)) as [st|] eqn:Hst.
    - unfold catchException. unfold_m.
      destruct (writeJsonFile_effect E
                  (emit (EvPrintln ("error msg: " +:+ err)) (emit (EvLog err) w)) st Hl Hst)
        as (w' & Hrun & _ & Hfiles & Htr & Hd & _ & _ & Hdirs & Hc & Hw & _).
      simpl in *. rewrite Hrun. exists w'. split; [done|].
      rewrite Htr, Hd, Hdirs, Hc, Hw, Hfiles, <- app_assoc. simpl.
      split_and!; try done.
      unfold canCreate.
      change (isDir (emit _ (emit _ w)) (outPath E)) with (isDir w (outPath E)).
      by rewrite Hnodir.
    - destruct (catchException_without_status err (emit (EvLog err) w) Hl Hst)
        as (w' & Hrun & Hl' & Htr & Hf & Hdirs & Hd & _ & Hw & Hc).
      exists w'. split; [done|]. rewrite Htr, Hf, Hdirs, Hd, Hw, Hc. simpl.
      rewrite <- app_assoc. by split_and!. }
  exists w'. split_and!; try done.
  intros Hst. split; [by apply Hlock|]. intros rest.
  apply (deferred_after_locked_panic _ _ _ w' nil_deref); [|by apply Hlock].
  by rewrite Hrun, Hst.
Qed.

End Pool.

(** ** What the merge leaves alone *)

Section MergeFrame.

Lemma onlyFile_refl name w : onlyFile name w w.
Proof. by repeat split. Qed.

Lemma onlyFile_trans name w1 w2 w3 :
  onlyFile name w1 w2 → onlyFile name w2 w3 → onlyFile name w1 w3.
Proof.
  intros (Hf & Hd & Hp & Ht) (Hf' & Hd' & Hp' & Ht'). repeat split.
  - intros p Hne. by rewrite Hf', Hf.
  - intros ?. by apply Hd, Hd'.
  - intros ?. by apply Hd', Hd.
  - congruence.
  - congruence.
Qed.

Lemma Touches_bind {A B} name (m : M A) (k : A → M B) :
  Touches name m → (∀ a, Touches name (k a)) → Touches name (bind m k).
Proof.
  intros Hm Hk w r w'. unfold bind. destruct (m w) as [r1 w1] eqn:Hmw.
  pose proof (Hm _ _ _ Hmw) as H1.
  destruct r1; try (intros ?; by simplify_eq).
  intros H. eapply onlyFile_trans; [exact H1|]. by eapply Hk.
Qed.

Lemma Touches_ret {A} name (a : A) : Touches name (ret a).
Proof. intros w r w' H. unfold_m. simplify_eq. apply onlyFile_refl. Qed.

Lemma Touches_get name : Touches name get.
Proof. intros w r w' H. unfold_m. simplify_eq. apply onlyFile_refl. Qed.

Lemma Touches_panic {A} name msg : Touches name (panic (A:=A) msg).
Proof. intros w r w' H. unfold_m. simplify_eq. apply onlyFile_refl. Qed.

Lemma Touches_modify name (f : World → World) :
  (∀ w, onlyFile name w (f w)) → Touches name (modify f).
Proof. intros Hf w r w' H. unfold_m. simplify_eq. apply Hf. Qed.

Lemma Touches_Println name msg : Touches name (Println msg).
Proof.
  apply Touches_modify. intros w. repeat split; try done.
  simpl. rewrite httpGets_app. simpl. by rewrite app_nil_r.
Qed.

Lemma Touches_set_files name (f : gmap string File → gmap string File) :
  (∀ m p, p ≠ name → f m !! p = m !! p) → Touches name (modify (set_files f)).
Proof.
  intros Hf. apply Touches_modify. intros w. repeat split; try done.
  intros p Hp. simpl. by apply Hf.
Qed.

Lemma Touches_os_Remove name : Touches name (os_Remove name).
Proof.
  unfold os_Remove. apply Touches_bind; [apply Touches_get|]. intros w.
  destruct (files w !! name) as [f|].
  - destruct (pinned f); [apply Touches_ret|].
    apply Touches_bind; [|intros; apply Touches_ret].
    apply Touches_set_files. intros m p Hp. by rewrite lookup_delete_ne.
  - case_bool_decide; [|apply Touches_ret].
    case_bool_decide; [|apply Touches_ret].
    apply Touches_bind; [|intros; apply Touches_ret].
    apply Touches_modify. intros w0. repeat split; try done; simpl;
      rewrite elem_of_difference, elem_of_singleton; tauto.
Qed.

Lemma Touches_os_OpenFile_append name : Touches name (os_OpenFile_append name).
Proof.
  unfold os_OpenFile_append. apply Touches_bind; [apply Touches_get|]. intros w.
  destruct (isDir w name); [apply Touches_ret|].
  destruct (files w !! name); [apply Touches_ret|].
  apply Touches_bind; [|intros; apply Touches_ret].
  apply Touches_set_files. intros m p Hp. by rewrite lookup_insert_ne.
Qed.

Lemma Touches_mergeLoop (outPath fileName : string) (l : list string) :
  Touches fileName (mergeLoop outPath fileName l).
Proof.
  induction l as [|n l IH]; simpl; [apply Touches_ret|].
  apply Touches_bind.
  - unfold os_OpenFile_rdonly. apply Touches_bind; [apply Touches_get|]. intros w.
    destruct (files w !! _) as [f|].
    + destruct (readable f); apply Touches_ret.
    + destruct (isDir w _); apply Touches_ret.
  - intros [err|]; [apply Touches_Println|].
    apply Touches_bind.
    + unfold ioutil_ReadAll. apply Touches_bind; [apply Touches_get|]. intros w.
      destruct (files w !! _) as [f|]; apply Touches_ret.
    + intros [err|b]; [apply Touches_Println|].
      apply Touches_bind; [|intros; apply IH].
      apply Touches_set_files. intros m p Hp. by rewrite lookup_alter_ne.
Qed.

Lemma Touches_mergeMediaFile (outPath : string) :
  Touches (outPath +:+ ".ts") (mergeMediaFile outPath).
Proof.
  unfold mergeMediaFile. apply Touches_bind.
  { unfold os_Stat. apply Touches_bind; [apply Touches_get|].
    intros; apply Touches_ret. }
  intros st. apply Touches_bind.
  { destruct st; [|apply Touches_ret..].
    apply Touches_bind; [apply Touches_os_Remove|].
    intros [e|]; [apply Touches_Println|apply Touches_ret]. }
  intros _. apply Touches_bind; [apply Touches_os_OpenFile_append|].
  intros [e|]; [apply Touches_panic|].
  apply Touches_bind; [apply Touches_get|]. intros w0. apply Touches_mergeLoop.
Qed.

(** X14.  mergeMediaFile writes one file, the merged one: whatever it
    returns, every other file is as it was, so the segment files and the
    checkpoint are still there after the merge; no directory other than
    one at the merged file's own path is removed, the state that the
    checkpoint saves is not touched, and nothing is requested. *)
Theorem merge_touches_only_the_merged_file (outPath : string) (w : World)
    (r : Result unit) (w' : World) :
  mergeMediaFile outPath w = (r, w') →
  (∀ p, p ≠ outPath +:+ ".ts" → files w' !! p = files w !! p)
  ∧ (∀ name, segmentFile outPath w' name = segmentFile outPath w name)
  ∧ (∀ d, d ≠ outPath +:+ ".ts" → d ∈ dirs w' ↔ d ∈ dirs w)
  ∧ downloadProcess w' = downloadProcess w
  ∧ httpGets (trace w') = httpGets (trace w).
Proof.
  intros Hrun.
  destruct (Touches_mergeMediaFile _ _ _ _ Hrun) as (Hf & Hd & Hp & Ht).
  repeat split; try done; try (by apply Hd).
  intros name. unfold segmentFile. rewrite Hf; [done|].
  intros Heq. symmetry in Heq. by apply artifact_not_segment in Heq.
Qed.

End MergeFrame.

(** ** Flags, resume and master playlists *)

Section Start.
Context (E : Env).

(** X15.  A command line cobra cannot parse, or flags that downloadFunc
    rejects (a URL or output path that is empty, a URL that does not start
    with http or end in m3u8): the process ends with status 1 before it
    looks for a checkpoint.  Nothing is requested, no file or directory
    changes, and rejected flags end with the help text. *)
Theorem rejected_flags_exit_one (inv : Invocation) (fuel : nat) (w : World) :
  match inv with
  | ParseError _ => True
  | ConfigCmd => False
  | RootCmd => ¬ validFlags E
  end →
  ∃ w', Execute E inv fuel w = (Exit 1, w')
    ∧ sameDisk w w'
    ∧ httpGets (trace w') = httpGets (trace w)
    ∧ sends (trace w') = sends (trace w)
    ∧ (inv = RootCmd → last (trace w') = Some EvHelp).
Proof.
  destruct inv as [err| |]; [intros _|done|intros Hbad]; simpl.
  - unfold_m. eexists. split; [done|]. simpl.
    rewrite httpGets_app, sends_app. simpl. by rewrite !app_nil_r.
  - unfold downloadFunc.
    destruct (bool_decide (m3u8Url E = "") || bool_decide (outPath E = "")) eqn:H1.
    { unfold_m. eexists. split; [done|]. simpl.
      rewrite !httpGets_app, !sends_app. simpl. rewrite !app_nil_r.
      repeat split; try done. intros _. by rewrite last_snoc. }
    destruct (negb (HasPrefix (m3u8Url E) "http") || negb (HasSuffix (m3u8Url E) "m3u8"))
      eqn:H2.
    { unfold_m. eexists. split; [done|]. simpl.
      rewrite !httpGets_app, !sends_app. simpl. rewrite !app_nil_r.
      repeat split; try done. intros _. by rewrite last_snoc. }
    destruct Hbad. apply orb_false_elim in H1 as [Hu Ho].
    apply orb_false_elim in H2 as [Hp Hs].
    apply bool_decide_eq_false_1 in Hu. apply bool_decide_eq_false_1 in Ho.
    apply negb_false_iff in Hp. apply negb_false_iff in Hs. done.
Qed.

Lemma storeAll_foldr (l : list (string * bool)) (st : gmap string bool) :
  storeAll st l = foldr (λ kv m, <[kv.1 := kv.2]> m) st (reverse l).
Proof.
  unfold storeAll. revert st. induction l as [|kv l IH]; intros st; [done|].
  rewrite reverse_cons, foldr_app. simpl. apply IH.
Qed.

Lemma foldr_insert_list_to_map (l : list (string * bool)) :
  foldr (λ kv m, <[kv.1 := kv.2]> m) (∅ : gmap string bool) l = list_to_map l.
Proof. induction l as [|[k v] l IH]; [done|]. simpl. by rewrite IH. Qed.

(** A range over the entries of a map, in any order, stores the map. *)
Lemma storeAll_range (ms : gmap string bool) (l : list (string * bool)) :
  l ≡ₚ map_to_list ms → storeAll ∅ l = ms.
Proof.
  intros Hl. rewrite storeAll_foldr, foldr_insert_list_to_map.
  rewrite <- (list_to_map_to_list ms).
  apply list_to_map_proper.
  - rewrite reverse_Permutation, Hl. apply NoDup_fst_map_to_list.
  - by rewrite reverse_Permutation.
Qed.

Lemma continueLoop_store (l : list (string * bool)) : ∀ w st b,
  status (downloadProcess w) = Some st →
  bar w = Some b →
  dlcClosed w = false →
  ∃ w', continueLoop l w = (Ok tt, w')
        ∧ downloadProcess w' = with_status (Some (storeAll st l)) (downloadProcess w)
        ∧ dlcClosed w' = false
        ∧ files w' = files w ∧ dirs w' = dirs w ∧ sealed w' = sealed w.
Proof.
  induction l as [|[key value] l IH]; intros w st b Hst Hbar Hopen.
  - exists w. simpl. split; [done|]. split; [|done].
    destruct (downloadProcess w). simpl in *. by rewrite Hst.
  - simpl. unfold status_Store, dlc_send, bar_Increment. unfold_m.
    destruct value; simpl; rewrite Hst; simpl.
    + rewrite Hbar. simpl.
      edestruct (IH (set_bar (Some (mkBar (total b) (S (current b)) (finished b)))
                      (set_process (with_status (Some (<[key:=true]> st))) w)))
        as (w' & Hrun & Hp & Hc & Hf & Hd & Hse); [done..|].
      exists w'. split; [exact Hrun|]. by rewrite Hp, Hc, Hf, Hd, Hse.
    + rewrite Hopen. simpl.
      edestruct (IH (emit (EvSend (mkDownload (Path (downloadProcess w) +:+ key)))
                      (set_dlc (dlc w ++ [mkDownload (Path (downloadProcess w) +:+ key)]) false
                         (set_process (with_status (Some (<[key:=false]> st))) w))))
        as (w' & Hrun & Hp & Hc & Hf & Hd & Hse); [done..|].
      exists w'. split; [exact Hrun|]. by rewrite Hp, Hc, Hf, Hd, Hse.
Qed.

(** X16.  getContinuePlaylist, called with the lock free and with dlc
    open and with room for the entries recorded as not complete (dlc holds
    1024 items, and a send on a full dlc waits for the pool), stores every
    entry of the loaded MediaStatus in the status map, whatever order the
    range visits them in: when it returns, status is the loaded
    MediaStatus, and the checkpoint file, when the deferred catchException
    can open it for writing, holds the three loaded fields unchanged; no
    other file changes. *)
Theorem resume_rebuilds_status (w : World) (ms : gmap string bool) :
  MediaStatus (downloadProcess w) = Some ms →
  map_range E ms ≡ₚ map_to_list ms →
  (length (dlc w) + length (pending (map_to_list ms)) ≤ 1024)%nat →
  dlcClosed w = false →
  locked (downloadProcess w) = false →
  ∃ w', getContinuePlaylist E w = (Ok tt, w')
    ∧ downloadProcess w' = with_status (Some ms) (downloadProcess w)
    ∧ (if canCreate (outPath E) (indexName E) w
       then content <$> files w' !! indexName E
            = Some (json_MarshalIndent E
                      (with_locked true (with_status (Some ms) (downloadProcess w))))
       else files w' !! indexName E = files w !! indexName E)
    ∧ (∀ p, p ≠ indexName E → files w' !! p = files w !! p).
Proof.
  intros Hms Hrange _ Hopen Hl. unfold getContinuePlaylist.
  assert (∃ w1, (let* w := get in
                 bar_StartNew (length (MediaList (downloadProcess w))) >>
                 modify (set_process (with_status (Some ∅))) >>
                 continueLoop (match MediaStatus (downloadProcess w) with
                               | None => []
                               | Some m => map_range E m
                               end) >>
                 dlc_close) w = (Ok tt, w1)
            ∧ downloadProcess w1 = with_status (Some ms) (downloadProcess w)
            ∧ files w1 = files w ∧ dirs w1 = dirs w ∧ sealed w1 = sealed w)
    as (w1 & Hbody & Hp1 & Hf1 & Hd1 & Hse1).
  { unfold bind at 1. unfold get at 1. unfold bind at 1. unfold bar_StartNew.
    unfold modify at 1. unfold bind at 1. unfold modify at 1. unfold bind at 1.
    rewrite Hms.
    edestruct (continueLoop_store (map_range E ms)
                 (set_process (with_status (Some ∅))
                    (set_bar (Some (mkBar (length (MediaList (downloadProcess w))) 0 false)) w)))
      as (w1 & -> & Hp & Hc & Hf & Hd & Hse); [done..|].
    unfold dlc_close. unfold_m. rewrite Hc. simpl.
    eexists. split; [done|]. simpl. rewrite Hp, Hf, Hd, Hse.
    rewrite (storeAll_range _ _ Hrange). simpl.
    split; [|done]. by destruct (downloadProcess w). }
  assert (status (downloadProcess w1) = Some ms) as Hs1 by by rewrite Hp1.
  assert (locked (downloadProcess w1) = false) as Hl1 by by rewrite Hp1.
  assert (canCreate (outPath E) (indexName E) w1 = canCreate (outPath E) (indexName E) w)
    as Hcan by (unfold canCreate, isDir; by rewrite Hf1, Hd1, Hse1).
  unfold deferred. rewrite Hbody. unfold catchException. unfold_m.
  destruct (writeJsonFile_effect E w1 ms Hl1 Hs1)
    as (w' & -> & Hdp & Hf & _).
  exists w'. split; [done|]. rewrite Hdp, Hf, Hp1, Hcan, Hf1. simpl. rewrite Hms. simpl.
  rewrite map_union_idemp. split_and!.
  - destruct (downloadProcess w). simpl in *. by subst.
  - destruct (canCreate _ _ w); [|done].
    rewrite lookup_insert_eq. simpl. do 2 f_equal. unfold checkpointOf.
    rewrite Hp1. simpl. rewrite Hms. simpl. rewrite map_union_idemp.
    destruct (downloadProcess w). simpl in *. by subst.
  - intros p Hp. destruct (canCreate _ _ w); [|done]. by rewrite lookup_insert_ne.
Qed.

(** X17.  For a master playlist with some rendition of bandwidth above
    zero, getPlaylist goes on with the first rendition of the greatest
    bandwidth: after its one request and the line it prints, the call is
    the call on that rendition's resolved URI, followed by the deferred
    catchException. *)
Theorem master_follows_first_greatest_bandwidth (fuel : nat) (urlStr : string)
    (w : World) (code : Z) (body : list byte) (mpl : MasterPlaylist)
    (pre post : list Variant) (v : Variant) (ms : string) :
  url_Parse E urlStr = None →
  http_Do E urlStr = HttpResp code body →
  m3u8_DecodeFrom E body = MASTER mpl →
  Variants mpl = pre ++ v :: post →
  (0 < Bandwidth v)%N →
  Forall (λ u, (Bandwidth u < Bandwidth v)%N) pre →
  Forall (λ u, (Bandwidth u ≤ Bandwidth v)%N) post →
  resolved E urlStr (var_URI v) = Some ms →
  getPlaylist E (S fuel) urlStr w
  = deferred E (getPlaylist E fuel ms)
      (emit (EvPrintln ("master m3u8 url " +:+ ms)) (emit (EvHttpGet urlStr) w)).
Proof.
  intros Hparse Hhttp Hdec Hvs Hpos Hpre Hpost Hres.
  cbn [getPlaylist]. rewrite Hparse, Hhttp, Hdec, Hvs.
  rewrite (maxVariant_first_max pre post v Hpos Hpre Hpost).
  cbn [fst]. unfold deferred. unfold_m. cbv beta.
  rewrite (getAbsoluteUri_resolved E _ _ _ _ Hres). done.
Qed.

(** X18.  In a run without a checkpoint the status map is nil until a
    media playlist has been decoded.  A manifest URL that does not parse,
    a body that does not decode, or a playlist of another type makes
    getPlaylist panic; the deferred writeJsonFile then panics in turn on
    the nil map, and the panic leaves the goroutine: the process ends with
    status 2, with the mutex held and no checkpoint written. *)
Theorem manifest_failure_before_status_crashes (fuel : nat) (urlStr : string) (w : World) :
  status (downloadProcess w) = None →
  locked (downloadProcess w) = false →
  (is_Some (url_Parse E urlStr)
   ∨ url_Parse E urlStr = None
     ∧ ∃ code body, http_Do E urlStr = HttpResp code body
         ∧ ((∃ err, m3u8_DecodeFrom E body = DecodeErr err)
            ∨ m3u8_DecodeFrom E body = OtherType)) →
  ∃ w', go (getPlaylist E (S fuel) urlStr) w = (Exit 2, w')
    ∧ getPlaylist E (S fuel) urlStr w = (Panic nil_deref, w')
    ∧ files w' = files w
    ∧ locked (downloadProcess w') = true
    ∧ sends (trace w') = sends (trace w)
    ∧ dlcClosed w' = dlcClosed w.
Proof.
  intros Hst Hl Hfail.
  assert (∃ w', getPlaylist E (S fuel) urlStr w = (Panic nil_deref, w')
            ∧ files w' = files w
            ∧ locked (downloadProcess w') = true
            ∧ sends (trace w') = sends (trace w)
            ∧ dlcClosed w' = dlcClosed w) as (w' & Hrun & H).
  { cbn [getPlaylist]. unfold deferred, catchException, writeJsonFile. unfold_m.
    destruct Hfail as [[err Hp]|(Hp & code & body & Hh & [[err Hd]|Hd])];
      rewrite Hp; [|rewrite Hh, Hd..]; simpl; rewrite Hl;
      destruct (MediaStatus (downloadProcess w)); simpl; rewrite Hst; simpl;
      (eexists; split; [done|]); simpl;
      rewrite !sends_app; simpl; by rewrite !app_nil_r. }
  exists w'. split; [|by split]. unfold go. by rewrite Hrun.
Qed.

End Start.

(** ** A whole run over a closed manifest *)

Section WholeRun.
Context (E : Env).








Lemma markAll_slashFree (uris : list string) : ∀ st,
  slashFree st → slashFree (markAll st uris).
Proof.
  induction uris as [|u uris IH]; intros st Hst; [done|].
  simpl. apply IH. by apply slashFree_insert.
Qed.













End WholeRun.


(** ** The further properties on sample inputs *)

Section FurtherRuns.
Import Sample Cases.

Ltac decided := apply (bool_decide_unpack _); vm_compute; reflexivity.


(** The two segments of the sample manifest, recorded in a process whose status map is empty. *)
Lemma playlist_order_is_recorded_witness :
  let E := E_closed in
  let base := url in
  let segs := Segments twoSegments in
  let w := resolving in
  let st := (∅ : gmap string bool) in
  ∃ w' st',
    recordSegments E base segs w = (Ok tt, w')
    ∧ trace w' = trace w ∧ dlc w' = dlc w ∧ files w' = files w
    ∧ MediaList (downloadProcess w')
      = MediaList (downloadProcess w) ++ segmentNames segs
    ∧ status (downloadProcess w') = Some st'
    ∧ (∀ n, n ∈ segmentNames segs → st' !! n = Some false)
    ∧ (∀ n, n ∉ segmentNames segs → st' !! n = st !! n)
    ∧ (Path (downloadProcess w) ≠ "" →
       Path (downloadProcess w') = Path (downloadProcess w))
    ∧ (Path (downloadProcess w) = "" →
       ∀ u rest, segmentURIs E base segs = u :: rest → dirOf u ≠ "" →
       Path (downloadProcess w') = dirOf u).
Proof.
  intros E base segs w st.
  apply (playlist_order_is_recorded E base segs w st).
  - reflexivity.
  - decided.
Defined.

(** A playlist that lists a.ts twice: two descriptors are sent. *)
Lemma each_uri_is_sent_once_witness :
  let E := E_closed in
  let base := url in
  let segs := repeated in
  let w := resolving in
  ∃ w' sent,
    enqueueSegments E base (lru.New 1024) segs w = (Ok tt, w')
    ∧ sends (trace w') = sends (trace w) ++ (mkDownload <$> sent)
    ∧ dlc w' = dlc w ++ (mkDownload <$> sent)
    ∧ dlcClosed w' = false
    ∧ httpGets (trace w') = httpGets (trace w)
    ∧ NoDup sent
    ∧ (∀ u, u ∈ sent ↔ u ∈ segmentURIs E base segs)
    ∧ sent `sublist_of` segmentURIs E base segs.
Proof.
  intros E base segs w.
  apply (each_uri_is_sent_once E base segs w).
  - reflexivity.
  - decided.
  - vm_compute. lia.
Defined.

(** The checkpoint of a pool in which a.ts is complete. *)
Lemma checkpoint_merges_status_witness :
  let E := E_closed in
  let w := running {["a.ts" := true]} in
  let st := ({["a.ts" := true]} : gmap string bool) in
  ∃ w' ms',
    writeJsonFile E w = (Ok tt, w')
    ∧ locked (downloadProcess w') = false
    ∧ MediaStatus (downloadProcess w') = Some ms'
    ∧ (∀ k v, st !! k = Some v → ms' !! k = Some v)
    ∧ (∀ k, st !! k = None →
         ms' !! k = default ∅ (MediaStatus (downloadProcess w)) !! k)
    ∧ Path (downloadProcess w') = Path (downloadProcess w)
    ∧ MediaList (downloadProcess w') = MediaList (downloadProcess w)
    ∧ status (downloadProcess w') = Some st
    ∧ (∀ p, p ≠ indexName E → files w' !! p = files w !! p)
    ∧ (if canCreate (outPath E) (indexName E) w
       then content <$> files w' !! indexName E
            = Some (json_MarshalIndent E (checkpointOf w st))
       else files w' !! indexName E = files w !! indexName E)
    ∧ dirs w' = dirs w
    ∧ trace w' = trace w.
Proof.
  intros E w st.
  apply (checkpoint_merges_status E w st); reflexivity.
Defined.

(** A process that has just started has no status map. *)
Lemma checkpoint_without_status_panics_witness :
  let E := E_closed in
  let w := start ∅ {["out"]} in
  ∃ w', writeJsonFile E w = (Panic nil_deref, w')
    ∧ locked (downloadProcess w') = true
    ∧ files w' = files w
    ∧ fst (writeJsonFile E w') = Block
    ∧ exitStatus (fst (listenSignal E w)) = Some 2
    ∧ files (snd (listenSignal E w)) = files w.
Proof.
  intros E w.
  apply (checkpoint_without_status_panics E w); reflexivity.
Defined.

(** The sample manifest of two segments, resolved by a process that has just started. *)
Lemma closed_manifest_pass_witness :
  let E := E_closed in
  let fuel := 0%nat in
  let urlStr := url in
  let w := start ∅ {["out"]} in
  let code := 200 in
  let body := bytes "#EXTM3U" in
  let mpl := twoSegments in
  let names := segmentNames (Segments mpl) in
  let sent := mkDownload <$> firstSeen [] (segmentURIs E urlStr (Segments mpl)) in
  ∃ w' ms' p,
    getPlaylist E (S fuel) urlStr w = (Ok tt, w')
    ∧ trace w' = trace w ++ [EvHttpGet urlStr] ++ (EvSend <$> sent) ++ [EvClose]
    ∧ dlc w' = dlc w ++ sent
    ∧ dlcClosed w' = true
    ∧ MediaList (downloadProcess w') = MediaList (downloadProcess w) ++ names
    ∧ status (downloadProcess w') = Some (recordStatus ∅ names)
    ∧ bar w' = Some (mkBar (length (MediaList (downloadProcess w) ++ names)) 0 false)
    ∧ MediaStatus (downloadProcess w') = Some ms'
    ∧ (∀ n, n ∈ names → ms' !! n = Some false)
    ∧ locked (downloadProcess w') = false
    ∧ MediaStatus p = Some ms'
    ∧ MediaList p = MediaList (downloadProcess w) ++ names
    ∧ (if canCreate (outPath E) (indexName E) w
       then content <$> files w' !! indexName E = Some (json_MarshalIndent E p)
       else files w' !! indexName E = files w !! indexName E)
    ∧ (∀ q, q ≠ indexName E → files w' !! q = files w !! q).
Proof.
  intros E fuel urlStr w code body mpl.
  apply (closed_manifest_pass E fuel urlStr w code body mpl).
  - reflexivity.
  - by vm_compute.
  - reflexivity.
  - reflexivity.
  - decided.
  - vm_compute. lia.
  - reflexivity.
  - reflexivity.
Defined.


(** c.ts is not found: the entry that recorded it as complete is overwritten. *)
Lemma fetch_failure_records_false_witness :
  let E := E_closed in
  let outPath := "out" in
  let v := mkDownload "http://h/v/c.ts" in
  let w := running {["c.ts" := true]} in
  let st := ({["c.ts" := true]} : gmap string bool) in
  ∃ w', downloadSegment E outPath v w = (Ok tt, w')
    ∧ status (downloadProcess w') = Some (<[getFileName (URI v) := false]> st)
    ∧ httpGets (trace w') = httpGets (trace w) ++ [URI v]
    ∧ bar w' = bar w
    ∧ (∀ p, p ≠ indexName E → files w' !! p = files w !! p).
Proof.
  intros E outPath v w st.
  apply (fetch_failure_records_false E outPath v w st).
  - by vm_compute.
  - reflexivity.
  - by vm_compute.
  - reflexivity.
  - right. exists 404, (bytes ""). split; [by vm_compute|done].
  - reflexivity.
Defined.

(** a.ts is served, but the output directory is not there. *)
Lemma fetch_panic_is_recovered_witness :
  let E := E_closed in
  let outPath := "out" in
  let v := mkDownload "http://h/v/a.ts" in
  let w := set_dirs (λ _, ∅) (running ∅) in
  let st := (∅ : gmap string bool) in
  ∃ w' msg, downloadSegment E outPath v w = (Ok tt, w')
    ∧ last (trace w') = Some (EvPrintln ("error msg: " +:+ msg))
    ∧ status (downloadProcess w') = Some st
    ∧ wg w' = wg w ∧ chLimit w' = chLimit w
    ∧ bar w' = bar w
    ∧ (∀ p, p ≠ indexName E → files w' !! p = files w !! p).
Proof.
  intros E outPath v w st.
  apply (fetch_panic_is_recovered E outPath v w st).
  - by vm_compute.
  - reflexivity.
  - reflexivity.
  - reflexivity.
  - right. split; [reflexivity|]. split; [exists (bytes "AAA"); by vm_compute|].
    left. by vm_compute.
Defined.

(** The task for a.ts, started with an empty status map. *)
Lemma status_keys_hold_no_slash_witness :
  let E := E_closed in
  let outPath := "out" in
  let v := mkDownload "http://h/v/a.ts" in
  let w := running ∅ in
  let st := (∅ : gmap string bool) in
  let r := fst (downloadSegment E_closed "out" (mkDownload "http://h/v/a.ts") (running ∅)) in
  let w' := snd (downloadSegment E_closed "out" (mkDownload "http://h/v/a.ts") (running ∅)) in
  (∃ st', status (downloadProcess w') = Some st' ∧ slashFree st')
  ∧ (LastIndex (URI v) "/" ≠ -1 → status_Load (URI v) w = (Ok false, w)).
Proof.
  intros E outPath v w st r w'.
  apply (status_keys_hold_no_slash E outPath v w st r w').
  - reflexivity.
  - apply slashFree_empty.
  - apply surjective_pairing.
Defined.

(** Three tasks of which two keep their token, in a pool of ten slots. *)
Lemma pool_holds_at_most_parallel_tokens_witness :
  let E := E_closed in
  let outPath := "out" in
  let q := [mkDownload "http://h/v/zzz.ts"; mkDownload "http://h/v/c.ts"; mkDownload "http://h/v/a.ts"] in
  let w := running ∅ in
  let r := fst (poolLoop E_closed "out" [mkDownload "http://h/v/zzz.ts"; mkDownload "http://h/v/c.ts"; mkDownload "http://h/v/a.ts"] (running ∅)) in
  let w' := snd (poolLoop E_closed "out" [mkDownload "http://h/v/zzz.ts"; mkDownload "http://h/v/c.ts"; mkDownload "http://h/v/a.ts"] (running ∅)) in
  (chLimit w' ≤ Z.to_nat (parallel E))%nat.
Proof.
  intros E outPath q w r w'.
  apply (pool_holds_at_most_parallel_tokens E outPath q w r w').
  - vm_compute. lia.
  - apply surjective_pairing.
Defined.

(** The num flag at zero, with one descriptor queued. *)
Lemma pool_without_slots_starts_no_task_witness :
  let E := E_noslots in
  let dir := "out" in
  let w := queued in
  let d := mkDownload "http://h/v/a.ts" in
  let q := ([] : list Download) in
  ∃ w', downloadSegmentLimit E dir w
        = ((if parallel E <? 0
            then match status (downloadProcess w) with
                 | Some _ => Ok tt
                 | None => Panic nil_deref
                 end
            else Block), w')
    ∧ httpGets (trace w') = httpGets (trace w)
    ∧ wg w' = (if parallel E <? 0 then wg w else 0)
    ∧ bar w' = bar w
    ∧ (parallel E < 0 → status (downloadProcess w) = None →
       locked (downloadProcess w') = true
       ∧ ∀ rest, fst (deferred E (downloadSegmentLimit E dir >> rest) w) = Block).
Proof.
  intros E dir w d q.
  apply (pool_without_slots_starts_no_task E dir w d q).
  - done.
  - by vm_compute.
  - reflexivity.
  - reflexivity.
Defined.

(** A first run in which the output directory is missing and Mkdir is refused: the pool gets there while the status map is nil. *)
Lemma uncreatable_directory_ends_the_pool_witness :
  let E := E_nodir in
  let err := "mkdir out: permission denied" in
  let w := start ∅ ∅ in
  ∃ w', downloadSegmentLimit E (outPath E) w
        = (match status (downloadProcess w) with
           | Some _ => Ok tt
           | None => Panic nil_deref
           end, w')
    ∧ trace w' = trace w ++ [EvLog err; EvPrintln ("error msg: " +:+ err)]
    ∧ dlc w' = dlc w ∧ dirs w' = dirs w ∧ files w' = files w
    ∧ chLimit w' = chLimit w ∧ wg w' = wg w
    ∧ (status (downloadProcess w) = None →
       locked (downloadProcess w') = true
       ∧ ∀ rest, fst (deferred E (downloadSegmentLimit E (outPath E) >> rest) w)
                 = Block).
Proof.
  intros E err w.
  apply (uncreatable_directory_ends_the_pool E err w).
  - by vm_compute.
  - reflexivity.
  - reflexivity.
Defined.

(** The merge that stops at the missing b.ts. *)
Lemma merge_touches_only_the_merged_file_witness :
  let outPath := "out" in
  let w := w_fetched in
  let r := fst (mergeMediaFile "out" w_fetched) in
  let w' := snd (mergeMediaFile "out" w_fetched) in
  (∀ p, p ≠ outPath +:+ ".ts" → files w' !! p = files w !! p)
  ∧ (∀ name, segmentFile outPath w' name = segmentFile outPath w name)
  ∧ (∀ d, d ≠ outPath +:+ ".ts" → d ∈ dirs w' ↔ d ∈ dirs w)
  ∧ downloadProcess w' = downloadProcess w
  ∧ httpGets (trace w') = httpGets (trace w).
Proof.
  intros outPath w r w'.
  apply (merge_touches_only_the_merged_file outPath w r w').
  apply surjective_pairing.
Defined.

(** The root command without a URL. *)
Lemma rejected_flags_exit_one_witness :
  let E := E_nourl in
  let inv := RootCmd in
  let fuel := 3%nat in
  let w := start ∅ ∅ in
  ∃ w', Execute E inv fuel w = (Exit 1, w')
    ∧ sameDisk w w'
    ∧ httpGets (trace w') = httpGets (trace w)
    ∧ sends (trace w') = sends (trace w)
    ∧ (inv = RootCmd → last (trace w') = Some EvHelp).
Proof.
  intros E inv fuel w.
  apply (rejected_flags_exit_one E inv fuel w).
  intros [Hu _]. by apply Hu.
Defined.

(** A loaded checkpoint with a.ts complete and b.ts not. *)
Lemma resume_rebuilds_status_witness :
  let E := E_extra in
  let w := w_extra in
  let ms := ({["a.ts" := true; "b.ts" := false]} : gmap string bool) in
  ∃ w', getContinuePlaylist E w = (Ok tt, w')
    ∧ downloadProcess w' = with_status (Some ms) (downloadProcess w)
    ∧ (if canCreate (outPath E) (indexName E) w
       then content <$> files w' !! indexName E
            = Some (json_MarshalIndent E
                      (with_locked true (with_status (Some ms) (downloadProcess w))))
       else files w' !! indexName E = files w !! indexName E)
    ∧ (∀ p, p ≠ indexName E → files w' !! p = files w !! p).
Proof.
  intros E w ms.
  apply (resume_rebuilds_status E w ms).
  - reflexivity.
  - reflexivity.
  - vm_compute. lia.
  - reflexivity.
  - reflexivity.
Defined.

(** Renditions of 500, 2000, 1200 and 2000: the first of 2000 is followed. *)
Lemma master_follows_first_greatest_bandwidth_witness :
  let E := E_master in
  let fuel := 1%nat in
  let urlStr := url in
  let w := start ∅ {["out"]} in
  let code := 200 in
  let body := bytes "#EXTM3U" in
  let mpl := renditions in
  let pre := [mkVariant "low.m3u8" 500] in
  let post := [mkVariant "mid.m3u8" 1200; mkVariant "also.m3u8" 2000] in
  let v := mkVariant "high.m3u8" 2000 in
  let ms := "http://h/v/high.m3u8" in
  getPlaylist E (S fuel) urlStr w
  = deferred E (getPlaylist E fuel ms)
      (emit (EvPrintln ("master m3u8 url " +:+ ms)) (emit (EvHttpGet urlStr) w)).
Proof.
  intros E fuel urlStr w code body mpl pre post v ms.
  apply (master_follows_first_greatest_bandwidth E fuel urlStr w code body mpl pre post v ms).
  - reflexivity.
  - by vm_compute.
  - reflexivity.
  - reflexivity.
  - reflexivity.
  - repeat constructor.
  - repeat constructor; by vm_compute.
  - by vm_compute.
Defined.

(** A manifest that is neither a media nor a master playlist, in a first run. *)
Lemma manifest_failure_before_status_crashes_witness :
  let E := E_other in
  let fuel := 0%nat in
  let urlStr := url in
  let w := start ∅ {["out"]} in
  ∃ w', go (getPlaylist E (S fuel) urlStr) w = (Exit 2, w')
    ∧ getPlaylist E (S fuel) urlStr w = (Panic nil_deref, w')
    ∧ files w' = files w
    ∧ locked (downloadProcess w') = true
    ∧ sends (trace w') = sends (trace w)
    ∧ dlcClosed w' = dlcClosed w.
Proof.
  intros E fuel urlStr w.
  apply (manifest_failure_before_status_crashes E fuel urlStr w).
  - reflexivity.
  - reflexivity.
  - right. split; [reflexivity|]. exists 200, (bytes "#EXTM3U").
    split; [by vm_compute|]. by right.
Defined.


(** *** What the file system refuses *)

(** A path under a regular file: os.Stat fails, and not with an error
    that os.IsNotExist accepts, so the program takes the path to be
    there. *)
Example stat_under_regular_file :
  let w := start {["f" := mkFile (bytes "x") true]} ∅ in
  (fst (os_Stat "f/out" w), fst (os_Stat "g/out" w), fst (os_Stat "f" w))
  = (Ok (StatError "stat f/out: not a directory"), Ok NotExist, Ok Found).
Proof. by vm_compute. Qed.

(** os.Create is refused on a file the process may not write, on a
    directory, in a directory the process may not write, and in an output
    path that is a regular file; it truncates a file the process may read
    and write. *)
Example create_is_refused :
  let at_file f := set_files (λ _, {["out/a.ts" := f]}) (running ∅) in
  (canStore "out" "a.ts" (at_file (MkFile (bytes "old") true false false)),
   canStore "out" "a.ts" (at_file (MkFile (bytes "old") false true false)),
   canStore "out" "a.ts" (set_dirs (λ d, d ∪ {["out/a.ts"]}) (running ∅)),
   canStore "out" "a.ts"
     {| downloadProcess := emptyProcess; bar := None; files := ∅; dirs := {["out"]};
        sealed := {["out"]}; dlc := []; dlcClosed := false; chLimit := 0;
        chLimitClosed := false; wg := 0; trace := [] |},
   canStore "out" "a.ts" (start {["out" := mkFile (bytes "x") true]} ∅),
   canStore "out" "" (running ∅),
   canStore "out" "." (running ∅),
   canStore "out" "a.ts" (at_file (mkFile (bytes "old") true)),
   canStore "out" "a.ts" (running ∅))
  = (false, false, false, false, false, false, false, true, true).
Proof. by vm_compute. Qed.

(** A task whose file is read-only: the copy fails, the panic is
    recovered, the file is as it was and the slot is kept. *)
Example fetch_onto_read_only_file :
  let w := set_files (λ _, {["out/a.ts" := MkFile (bytes "old") true false false]})
             (running ∅) in
  let w' := snd (downloadSegment E_closed "out" (mkDownload "http://h/v/a.ts") w) in
  (segmentFile "out" w' "a.ts", wg w', chLimit w', last (trace w'))
  = (Some (bytes "old"), 1, 1%nat, Some (EvPrintln "error msg: invalid argument")).
Proof. by vm_compute. Qed.

(** The checkpoint is not written over a directory, nor over a file the
    process may not write. *)
Example checkpoint_is_refused :
  let w1 := set_dirs (λ d, d ∪ {["out/.index"]}) (running ∅) in
  let w2 := set_files (λ _, {["out/.index" := MkFile (bytes "{}") true false false]})
              (running ∅) in
  (files (snd (writeJsonFile E_closed w1)) !! "out/.index",
   content <$> files (snd (writeJsonFile E_closed w2)) !! "out/.index")
  = (None, Some (bytes "{}")).
Proof. by vm_compute. Qed.

(** *** The pool before the status map *)

(** A negative num flag in a process that has no status map yet: the
    pool panics out of its deferred call with the mutex held, and the
    function that called it never returns. *)
Example negative_flag_before_status :
  let w := start ∅ {["out"]} in
  (fst (downloadSegmentLimit E_negative "out" w),
   locked (downloadProcess (snd (downloadSegmentLimit E_negative "out" w))),
   fst (deferred E_negative
          (downloadSegmentLimit E_negative "out" >> finishRun E_negative) w))
  = (Panic nil_deref, true, Block).
Proof. by vm_compute. Qed.

(** The same flag once a playlist has been resolved: the panic is
    recovered and the pool returns. *)
Example negative_flag_after_status :
  fst (downloadSegmentLimit E_negative "out" queued) = Ok tt.
Proof. by vm_compute. Qed.

(** Mkdir refused once a playlist has been resolved: the pool returns. *)
Example refused_mkdir_after_status :
  let w' := snd (downloadSegmentLimit E_nodir "out" (set_dirs (λ _, ∅) resolving)) in
  (fst (downloadSegmentLimit E_nodir "out" (set_dirs (λ _, ∅) resolving)), trace w')
  = (Ok tt, [EvLog "mkdir out: permission denied";
             EvPrintln "error msg: mkdir out: permission denied"]).
Proof. by vm_compute. Qed.

(** An output path that is a regular file: os.Stat finds it, no
    directory is made, and the task cannot store its body. *)
Example output_path_is_a_file :
  let w := set_dlc [mkDownload "http://h/v/a.ts"] true
             (set_files (λ _, {["out" := mkFile (bytes "x") true]})
                (set_dirs (λ _, ∅) (running ∅))) in
  let w' := snd (downloadSegmentLimit E_closed "out" w) in
  (fst (downloadSegmentLimit E_closed "out" w), dirs w', files w' !! "out/a.ts",
   httpGets (trace w'))
  = (Block, ∅, None, ["http://h/v/a.ts"]).
Proof. by vm_compute. Qed.

End FurtherRuns.
